(** * str1ker: the analytical inverse-kinematics plugin and its robot

    A shallow embedding of the IK plugin of the str1ker robot-arm stack and the
    properties of its solver.  The repository carries three generations of the
    plugin:

    - [Ik] follows the law-of-cosines solver with the reachability envelope
      (the file headed [ik.cpp] whose [searchPositionIK] compares the target
      distance with [MAX.norm() - wristNorm]): [initialize], the entry points
      of [KinematicsBase], the solver and its setters;
    - [IkLegacy] follows the earlier [src/ik.cpp]: its [setJointState] and
      the solver that branches on the height and the offset of the target;
    - [InverseKinematicsPlugin] follows [src/inverseKinematicsPlugin.cpp]:
      its [setJointState], [initialize] and the solver around the external
      [inverseKinematics].

    Beside the plugin, [Hardware] follows the [hardware] node appended to
    [src/inverseKinematicsPlugin.cpp] ([configure], [init], [write]), [Robot]
    the path functions of [robot.cpp] appended to [arduinoMicro.h], and
    [PwmServo] the servo of [pwmServo.cpp].

    C++ [double] is IEEE binary64, embedded as Rocq's primitive [float];
    [std::vector<double>] is a list updated by index, and a write or a pointer
    dereference that C++ leaves undefined is the fault [None].  The C library
    ([atan2], [acos], [asin]), MoveIt and Eigen's transform algebra are not
    part of the repository: the development is parametric in them.  ROS
    logging and the debug markers are output only and stay outside the model,
    as do the transforms the setters return where they feed nothing but the
    markers. *)

From Stdlib Require Import ZArith Floats Lia Bool Ascii String.
From stdpp Require Import base option list sorting sets strings functions gmap.

Local Open Scope float_scope.

(** ** C++ [double] *)

Module Double.

Definition double := float.

(** [std::isnan]. *)
Definition isnan (x : double) : bool := PrimFloat.is_nan x.

(** [std::clamp(v, lo, hi)]: [(v < lo) ? lo : (hi < v) ? hi : v]. *)
Definition clamp (v lo hi : double) : double :=
  if v <? lo then lo else if hi <? v then hi else v.

(** [M_PI] of <math.h>: the binary64 nearest to pi. *)
Definition M_PI : double := 0x1.921fb54442d18p+1.

(** A value [x] lies in the closed interval [lo, hi]. *)
Definition within (lo hi x : double) : bool := (lo <=? x) && (x <=? hi).

End Double.
Export Double.

(** ** Data model *)

(** [Eigen::Vector3d], with the two operations the solver applies to it. *)
Module Eigen.

Record Vector3d := { x : double; y : double; z : double }.

(** [a - b], component by component. *)
Definition sub (a b : Vector3d) : Vector3d :=
  {| x := x a - x b; y := y a - y b; z := z a - z b |}.

(** [v.norm()]: the square root of the sum of squares. *)
Definition norm (v : Vector3d) : double :=
  sqrt (x v * x v + y v * y v + z v * z v).

(** [Eigen::AngleAxisd(angle, axis)], kept symbolically: the solver only
    hands it on to MoveIt. *)
Record AngleAxisd := { angle : double; axis : Vector3d }.

(** [Eigen::Isometry3d], as far as the solver reads it: the translation. *)
Record Isometry3d := { translation : Vector3d }.

End Eigen.
Export Eigen(Vector3d, AngleAxisd, Isometry3d).

(** [geometry_msgs::Pose]; [tf2::fromMsg] makes its position the translation
    of the target transform. *)
Record Quaternion := { qx : double; qy : double; qz : double; qw : double }.
Record Pose := { position : Vector3d; orientation : Quaternion }.

(** [moveit_msgs::MoveItErrorCodes]: [val] with the two codes the solver sets. *)
Record MoveItErrorCodes := { val : Z }.
Definition SUCCESS : Z := 1.
Definition NO_IK_SOLUTION : Z := -31.

(** Pointers to MoveIt's joint and link models are addresses; two pointers
    denote the same joint exactly when they are equal. *)
Definition JointPtr := nat.
Definition LinkPtr := nat.
Bind Scope nat_scope with JointPtr LinkPtr.

Inductive JointType := UNKNOWN | REVOLUTE | PRISMATIC | PLANAR | FLOATING | FIXED.

Global Instance JointType_eq_dec : EqDecision JointType.
Proof. solve_decision. Defined.

(** [moveit_msgs::JointLimits], the fields the solver reads. *)
Record JointLimits := { min_position : double; max_position : double }.

(** [moveit::core::JointModel], through the accessors the plugin calls.
    [getVariableBoundsMsg] stands for [getVariableBoundsMsg().front()]: every
    joint of a supported group has one variable. *)
Record JointModel := {
  getType : JointType;
  getAxis : Vector3d;
  getVariableBoundsMsg : JointLimits;
  getMimic : option JointPtr;
  getMimicFactor : double;
  getMimicOffset : double;
  getMimicRequests : list JointPtr;
  getParentLinkModel : LinkPtr;
  getChildLinkModel : LinkPtr
}.

(** [moveit::core::JointModelGroup]: [getLinkModel] is [None] for the null
    pointer MoveIt returns on an unknown link name. *)
Record JointModelGroup := {
  chains_ : list (string * string);
  getJointModels : list JointPtr;
  getLinkModel : string -> option LinkPtr
}.

(** [robot_state::RobotState]: the global transform of every link. *)
Record RobotState := { getGlobalLinkTransform : LinkPtr -> Isometry3d }.

(** [moveit::core::RobotModel]: the groups, the joint each pointer refers to,
    and the state [RobotState::setToDefaultValues] produces for it. *)
Record RobotModel := {
  getJointModelGroup : string -> option JointModelGroup;
  jointModel : JointPtr -> JointModel;
  defaultState : RobotState
}.

(** [kinematics::KinematicsBase::IKCallbackFn]: it reads the pose and the
    solution and may rewrite the error code. *)
Definition IKCallbackFn : Type :=
  option (Pose -> list double -> MoveItErrorCodes -> MoveItErrorCodes).

(** ** What the plugin takes from outside the repository *)

(** <math.h>. *)
Class Libm := {
  atan2 : double -> double -> double;
  acos : double -> double
}.

(** MoveIt's [JointModel::computeVariablePositions]: the joint value that
    realises a transform. *)
Class MoveIt := {
  computeVariablePositions : JointModel -> AngleAxisd -> double
}.

(** MoveIt's [kinematics::KinematicsBase]: the timeout that [getPositionIK]
    passes on. *)
Class KinematicsBase := { DEFAULT_TIMEOUT : double }.

(** ** Vectors of joint states *)

(** [find(m_joints.begin(), m_joints.end(), pJoint) - m_joints.begin()]:
    the position of the first occurrence, the length when there is none. *)
Fixpoint indexOf (pJoint : JointPtr) (joints : list JointPtr) : nat :=
  match joints with
  | [] => 0
  | q :: rest => if decide (q = pJoint) then 0 else S (indexOf pJoint rest)
  end.

(** [states[index] = v] on a [std::vector]: undefined past the end. *)
Definition store (states : list double) (index : nat) (v : double)
  : option (list double) :=
  if decide (index < length states) then Some (<[index := v]> states) else None.

(** ** The law-of-cosines solver *)

Module Ik.

(** The constants [MIN] and [MAX] of [include/ik.h]; the header is not part
    of the sources at hand, so the solver is parametric in them. *)
Class Header := { MIN : Vector3d; MAX : Vector3d }.

(** The members of [IKPlugin] that the solver reads. *)
Record IKPlugin := {
  robot_model_ : RobotModel;
  tip_frames_ : list string;
  m_joints : list JointPtr;
  m_pState : RobotState;
  m_pTipLink : option LinkPtr;
  m_pMountJoint : option JointPtr;
  m_pShoulderJoint : option JointPtr;
  m_pElbowJoint : option JointPtr;
  m_pWristJoint : option JointPtr;
  m_upperArm : Vector3d;
  m_forearm : Vector3d
}.

(** The arguments of the general [searchPositionIK] overload; [solution]
    and [error_code] are what the caller's objects hold on entry. *)
Record IKRequest := {
  ik_poses : list Pose;
  ik_seed_state : list double;
  timeout : double;
  consistency_limits : list double;
  solution : list double;
  solution_callback : IKCallbackFn;
  error_code : MoveItErrorCodes
}.

(** What the call leaves behind: the returned flag and the two output
    arguments. *)
Record IKResult := {
  returned : bool;
  solution_out : list double;
  error_code_out : MoveItErrorCodes
}.

Section Solver.
Context {libm : Libm} {moveit : MoveIt} {header : Header}.

(** *** Static methods *)

Definition getAngle (x y : double) : double := atan2 y x.

(** The quotient [lawOfCosines] hands to [acos]. *)
Definition lawOfCosinesArg (a b c : double) : double :=
  (a * a + b * b - c * c) / (2 * a * b).

Definition lawOfCosines (a b c : double) : double :=
  acos (lawOfCosinesArg a b c).

(** [getJointAxis]: the [dynamic_cast] chosen by the joint type; a joint
    that is neither revolute nor prismatic casts to null. *)
Definition getJointAxis (joint : JointModel) : option Vector3d :=
  match getType joint with
  | REVOLUTE | PRISMATIC => Some (getAxis joint)
  | _ => None
  end.

Section Setters.
Variable rm : RobotModel.
Variable joints : list JointPtr.

(** The loop "Update other mimics" of [setJointState]. *)
Fixpoint updateOtherMimics (pJoint : JointPtr) (masterState : double)
    (requests : list JointPtr) (states : list double)
  : option (list double) :=
  match requests with
  | [] => Some states
  | pMimicJoint :: rest =>
      if decide (pMimicJoint = pJoint)
      then updateOtherMimics pJoint masterState rest states
      else
        let mimicIndex := indexOf pMimicJoint joints in
        if decide (mimicIndex = length joints)
        then updateOtherMimics pJoint masterState rest states
        else
          let mimic := jointModel rm pMimicJoint in
          let mimicLimits := getVariableBoundsMsg mimic in
          let mimicState :=
            masterState * getMimicFactor mimic + getMimicOffset mimic in
          states ← store states mimicIndex
            (clamp mimicState (min_position mimicLimits)
               (max_position mimicLimits));
          updateOtherMimics pJoint masterState rest states
  end.

Definition setJointState (pJoint : JointPtr) (angle : double)
    (states : list double) : option (list double) :=
  if isnan angle then Some states
  else
    let joint := jointModel rm pJoint in
    axis ← getJointAxis joint;
    let limits := getVariableBoundsMsg joint in
    let transform := {| Eigen.angle := angle; Eigen.axis := axis |} in
    let jointState := computeVariablePositions joint transform in
    let index := indexOf pJoint joints in
    states ← store states index
      (clamp jointState (min_position limits) (max_position limits));
    match getMimic joint with
    | None => Some states
    | Some pMasterJoint =>
        (* Update the master joint *)
        let master := jointModel rm pMasterJoint in
        let masterLimits := getVariableBoundsMsg master in
        let masterStateRaw :=
          (jointState - getMimicOffset joint) / getMimicFactor joint in
        let masterState :=
          clamp masterStateRaw (min_position masterLimits)
            (max_position masterLimits) in
        let masterIndex := indexOf pMasterJoint joints in
        states ← store states masterIndex masterStateRaw;
        (* Update other mimics *)
        updateOtherMimics pJoint masterState (getMimicRequests master) states
    end.

Definition setJointMinState (pJoint : JointPtr) (states : list double)
  : option (list double) :=
  let jointState := min_position (getVariableBoundsMsg (jointModel rm pJoint)) in
  let jointIndex := indexOf pJoint joints in
  store states jointIndex jointState.

Definition setJointMaxState (pJoint : JointPtr) (states : list double)
  : option (list double) :=
  let jointState := max_position (getVariableBoundsMsg (jointModel rm pJoint)) in
  let jointIndex := indexOf pJoint joints in
  store states jointIndex jointState.

(** [getJoint(type, parent)]: the first supported joint of the type,
    attached to the child link of [parent] when one is given. *)
Fixpoint getJointFrom (type : JointType) (parent : option JointPtr)
    (candidates : list JointPtr) : option JointPtr :=
  match candidates with
  | [] => None
  | joint :: rest =>
      let found :=
        match parent with
        | Some par =>
            bool_decide (getType (jointModel rm joint) = type)
            && bool_decide (getParentLinkModel (jointModel rm joint)
                            = getChildLinkModel (jointModel rm par))
        | None => bool_decide (getType (jointModel rm joint) = type)
        end in
      if found then Some joint else getJointFrom type parent rest
  end.

Definition getJoint (type : JointType) (parent : option JointPtr)
  : option JointPtr := getJointFrom type parent joints.

End Setters.

(** [setJointState] through a member pointer that may be null: the NaN
    test comes before the first dereference. *)
Definition setJointStateVia (rm : RobotModel) (joints : list JointPtr)
    (pJoint : option JointPtr) (angle : double) (states : list double)
  : option (list double) :=
  match pJoint with
  | Some j => setJointState rm joints j angle states
  | None => if isnan angle then Some states else None
  end.

(** *** Private methods *)

Definition validateTarget (p : IKPlugin) (poses : list Pose) : bool :=
  negb (bool_decide (length poses ≠ 1%nat)
        || bool_decide (length (tip_frames_ p) ≠ length poses)).

(** [getTarget]: the transform of [ik_poses.back()]. *)
Definition getTarget (poses : list Pose) : option Isometry3d :=
  targetPose ← last poses;
  Some {| Eigen.translation := position targetPose |}.

(** [validateSeedState]; after the length test it walks the seed and the
    joint list side by side for the debug log. *)
Definition validateSeedState (p : IKPlugin) (seed : list double)
  : option bool :=
  if decide (length seed ≠ length (m_joints p)) then Some false
  else
    _ ← mapM (fun jointIndex =>
                pJoint ← m_joints p !! jointIndex;
                state ← seed !! jointIndex;
                Some (pJoint, state))
             (seq 0%nat (length seed));
    Some true.

Definition getLinkLength (state : RobotState) (pBaseLink pTipLink : LinkPtr)
  : Vector3d :=
  let baseLinkPos := getGlobalLinkTransform state pBaseLink in
  let tipLinkPos := getGlobalLinkTransform state pTipLink in
  Eigen.sub (Eigen.translation tipLinkPos) (Eigen.translation baseLinkPos).

Definition childLink (rm : RobotModel) (pJoint : JointPtr) : LinkPtr :=
  getChildLinkModel (jointModel rm pJoint).

(** [initialize], as far as it builds the members above.  [Some None]
    is the refusal [return false]; [None] is a null dereference. *)
Definition initialize (robot_model : RobotModel) (group_name : string)
    (base_frame : string) (tip_frames : list string)
    (search_discretization : double) : option (option IKPlugin) :=
  match getJointModelGroup robot_model group_name with
  | None => Some None
  | Some group =>
      match chains_ group with
      | [chain] =>
          if decide (length tip_frames ≠ 1%nat) then Some None
          else
            (* Validate joints *)
            let joints :=
              filter (fun pJoint =>
                        getType (jointModel robot_model pJoint) = REVOLUTE
                        ∨ getType (jointModel robot_model pJoint) = PRISMATIC)
                     (getJointModels group) in
            (* Load configuration *)
            let chainTips := [chain.2] in
            (* Initialize state *)
            let state := defaultState robot_model in
            let pTipLink := chainTip ← head chainTips; getLinkModel group chainTip in
            let pMountJoint := getJoint robot_model joints REVOLUTE None in
            let pShoulderJoint := getJoint robot_model joints REVOLUTE pMountJoint in
            let pElbowJoint := getJoint robot_model joints REVOLUTE pShoulderJoint in
            let pWristJoint := getJoint robot_model joints REVOLUTE pElbowJoint in
            shoulder ← pShoulderJoint;
            elbow ← pElbowJoint;
            wrist ← pWristJoint;
            Some (Some {|
              robot_model_ := robot_model;
              tip_frames_ := chainTips;
              m_joints := joints;
              m_pState := state;
              m_pTipLink := pTipLink;
              m_pMountJoint := pMountJoint;
              m_pShoulderJoint := pShoulderJoint;
              m_pElbowJoint := pElbowJoint;
              m_pWristJoint := pWristJoint;
              m_upperArm :=
                getLinkLength state (childLink robot_model shoulder)
                  (childLink robot_model elbow);
              m_forearm :=
                getLinkLength state (childLink robot_model elbow)
                  (childLink robot_model wrist)
            |})
      | _ => Some None
      end
  end.

(** *** [searchPositionIK] *)

(** The vectors [searchPositionIK] derives from the request and the
    kinematic state before its first write. *)
Record Locals := {
  targetWorld : Vector3d;
  shoulderWorld : Vector3d;
  targetLocal : Vector3d;
  shoulderToEffector : Vector3d;
  wristToEffector : Vector3d
}.

Definition locals (p : IKPlugin) (poses : list Pose) : option Locals :=
  let rm := robot_model_ p in
  target ← getTarget poses;
  let targetWorld := Eigen.translation target in
  pShoulder ← m_pShoulderJoint p;
  let shoulderWorld :=
    Eigen.translation
      (getGlobalLinkTransform (m_pState p) (childLink rm pShoulder)) in
  let targetLocal := Eigen.sub targetWorld shoulderWorld in
  pTip ← m_pTipLink p;
  let shoulderToEffector :=
    getLinkLength (m_pState p) (childLink rm pShoulder) pTip in
  pWrist ← m_pWristJoint p;
  let wristToEffector :=
    getLinkLength (m_pState p) (childLink rm pWrist) pTip in
  Some {| targetWorld := targetWorld; shoulderWorld := shoulderWorld;
          targetLocal := targetLocal;
          shoulderToEffector := shoulderToEffector;
          wristToEffector := wristToEffector |}.

(** "Calculate mount joint angle": the angle handed to [setJointState]
    for the mount joint, [mountAngle - mountOffset]. *)
Definition mountJointAngle (l : Locals) : double :=
  let mountAngle :=
    getAngle (Eigen.x (targetLocal l)) (Eigen.y (targetLocal l)) in
  let mountOffset :=
    getAngle (Eigen.x (shoulderToEffector l)) (Eigen.y (shoulderToEffector l)) in
  mountAngle - mountOffset.

Definition targetNorm (l : Locals) : double := Eigen.norm (targetLocal l).
Definition wristNorm (l : Locals) : double := Eigen.norm (wristToEffector l).
Definition reachableMaxNorm (l : Locals) : double := Eigen.norm MAX - wristNorm l.
Definition reachableMinNorm (l : Locals) : double := Eigen.norm MIN - wristNorm l.

(** The shoulder angle of the branch that solves the triangle. *)
Definition shoulderJointAngle (p : IKPlugin) (l : Locals) : double :=
  let upperArmNorm := Eigen.norm (m_upperArm p) in
  let forearmNorm := Eigen.norm (m_forearm p) in
  let reachableNorm :=
    clamp (targetNorm l) (reachableMinNorm l) (reachableMaxNorm l) in
  lawOfCosines upperArmNorm forearmNorm reachableNorm - M_PI / 2.

(** The three-way branch on the target distance.  In the last branch the
    source also computes an elbow angle, which it does not write. *)
Definition solveArm (p : IKPlugin) (l : Locals) (pShoulder : JointPtr)
    (solution : list double) : option (list double) :=
  let rm := robot_model_ p in
  if reachableMaxNorm l <? targetNorm l then
    solution ← setJointMaxState rm (m_joints p) pShoulder solution;
    pElbow ← m_pElbowJoint p;
    setJointMaxState rm (m_joints p) pElbow solution
  else if targetNorm l <? reachableMinNorm l then
    solution ← setJointMinState rm (m_joints p) pShoulder solution;
    pElbow ← m_pElbowJoint p;
    setJointMinState rm (m_joints p) pElbow solution
  else
    setJointState rm (m_joints p) pShoulder (shoulderJointAngle p l) solution.

(** "Return solution": the code is set to [SUCCESS], the callback, when one
    is installed, sees the first pose and may rewrite the code, and the call
    returns [true]. *)
Definition returnSolution (req : IKRequest) (solution : list double)
  : option IKResult :=
  let error_code := {| val := SUCCESS |} in
  error_code ←
    match solution_callback req with
    | Some callback =>
        front ← head (ik_poses req);
        Some (callback front solution error_code)
    | None => Some error_code
    end;
  Some {| returned := true;
          solution_out := solution;
          error_code_out := error_code |}.

Definition searchPositionIK (p : IKPlugin) (req : IKRequest)
  : option IKResult :=
  seedOk ← validateSeedState p (ik_seed_state req);
  if negb seedOk || negb (validateTarget p (ik_poses req)) then
    Some {| returned := false;
            solution_out := solution req;
            error_code_out := {| val := NO_IK_SOLUTION |} |}
  else
    let solution := ik_seed_state req in
    l ← locals p (ik_poses req);
    pShoulder ← m_pShoulderJoint p;
    (* Calculate mount joint angle *)
    solution ← setJointStateVia (robot_model_ p) (m_joints p)
                 (m_pMountJoint p) (mountJointAngle l) solution;
    solution ← solveArm p l pShoulder solution;
    returnSolution req solution.

(** *** The single-pose overloads and [getPositionIK] *)

(** [searchPositionIK(ik_pose, ik_seed_state, timeout, consistency_limits,
    solution, solution_callback, error_code, options)]: the pose is pushed
    onto an empty vector. *)
Definition searchPositionIK_limits_callback (p : IKPlugin) (ik_pose : Pose)
    (ik_seed_state : list double) (timeout : double)
    (consistency_limits solution : list double)
    (solution_callback : IKCallbackFn) (error_code : MoveItErrorCodes)
  : option IKResult :=
  let poses := [] ++ [ik_pose] in
  searchPositionIK p
    {| ik_poses := poses; ik_seed_state := ik_seed_state; timeout := timeout;
       consistency_limits := consistency_limits; solution := solution;
       solution_callback := solution_callback; error_code := error_code |}.

(** [searchPositionIK(ik_pose, ik_seed_state, timeout, solution,
    solution_callback, error_code, options)]. *)
Definition searchPositionIK_callback (p : IKPlugin) (ik_pose : Pose)
    (ik_seed_state : list double) (timeout : double) (solution : list double)
    (solution_callback : IKCallbackFn) (error_code : MoveItErrorCodes)
  : option IKResult :=
  let consistency_limits := [] in
  searchPositionIK_limits_callback p ik_pose ik_seed_state timeout
    consistency_limits solution solution_callback error_code.

(** [searchPositionIK(ik_pose, ik_seed_state, timeout, consistency_limits,
    solution, error_code, options)]. *)
Definition searchPositionIK_limits (p : IKPlugin) (ik_pose : Pose)
    (ik_seed_state : list double) (timeout : double)
    (consistency_limits solution : list double) (error_code : MoveItErrorCodes)
  : option IKResult :=
  let solution_callback : IKCallbackFn := None in
  searchPositionIK_limits_callback p ik_pose ik_seed_state timeout
    consistency_limits solution solution_callback error_code.

(** [searchPositionIK(ik_pose, ik_seed_state, timeout, solution, error_code,
    options)]: this one calls the general overload itself. *)
Definition searchPositionIK_pose (p : IKPlugin) (ik_pose : Pose)
    (ik_seed_state : list double) (timeout : double) (solution : list double)
    (error_code : MoveItErrorCodes) : option IKResult :=
  let solution_callback : IKCallbackFn := None in
  let consistency_limits := [] in
  let poses := [] ++ [ik_pose] in
  searchPositionIK p
    {| ik_poses := poses; ik_seed_state := ik_seed_state; timeout := timeout;
       consistency_limits := consistency_limits; solution := solution;
       solution_callback := solution_callback; error_code := error_code |}.

Definition getPositionIK {kb : KinematicsBase} (p : IKPlugin) (ik_pose : Pose)
    (ik_seed_state solution : list double) (error_code : MoveItErrorCodes)
  : option IKResult :=
  searchPositionIK_pose p ik_pose ik_seed_state DEFAULT_TIMEOUT solution
    error_code.

(** [getPositionFK]: this generation has no forward kinematics; [poses] is
    left as it was. *)
Definition getPositionFK (link_names : list string)
    (joint_angles : list double) (poses : list Pose) : bool * list Pose :=
  (false, poses).

End Solver.
End Ik.

(** ** [setJointState] of the other two generations *)

(** [src/inverseKinematicsPlugin.cpp].  Here a NaN angle selects the upper
    limit, the master slot receives the clamped master state, and every write
    is mirrored into the plugin's [RobotState]. *)
Module InverseKinematicsPlugin.

(** MoveIt's mutable [RobotState], as far as [setJointState] drives it. *)
Class KinematicState := {
  RobotStateObj : Type;
  setJointPositions : RobotStateObj -> JointPtr -> double -> RobotStateObj;
  enforceBounds : RobotStateObj -> JointPtr -> RobotStateObj
}.

Section Setters.
Context {kin : KinematicState}.
Variable rm : RobotModel.
Variable joints : list JointPtr.

(** The loop over [pMasterJoint->getMimicRequests()]. *)
Fixpoint updateMimics (pJoint : JointPtr) (masterState : double)
    (requests : list JointPtr) (states : list double) (kstate : RobotStateObj)
  : option (list double * RobotStateObj) :=
  match requests with
  | [] => Some (states, kstate)
  | pMimicJoint :: rest =>
      if decide (pMimicJoint = pJoint)
      then updateMimics pJoint masterState rest states kstate
      else
        let mimicIndex := indexOf pMimicJoint joints in
        if decide (mimicIndex = length joints)
        then updateMimics pJoint masterState rest states kstate
        else
          let mimic := jointModel rm pMimicJoint in
          let mimicLimits := getVariableBoundsMsg mimic in
          let mimicState :=
            clamp (masterState * getMimicFactor mimic + getMimicOffset mimic)
              (min_position mimicLimits) (max_position mimicLimits) in
          states ← store states mimicIndex mimicState;
          let kstate :=
            enforceBounds (setJointPositions kstate pMimicJoint mimicState)
              pMimicJoint in
          updateMimics pJoint masterState rest states kstate
  end.

Definition setJointState (pJoint : JointPtr) (angle : double)
    (states : list double) (kstate : RobotStateObj)
  : option (list double * RobotStateObj) :=
  let joint := jointModel rm pJoint in
  axis ← Ik.getJointAxis joint;
  let limits := getVariableBoundsMsg joint in
  let jointState :=
    if isnan angle then max_position limits
    else clamp angle (min_position limits) (max_position limits) in
  let index := indexOf pJoint joints in
  states ← store states index jointState;
  match getMimic joint with
  | Some pMasterJoint =>
      (* Update the master joint *)
      let master := jointModel rm pMasterJoint in
      let masterLimits := getVariableBoundsMsg master in
      let masterState :=
        clamp ((jointState - getMimicOffset joint) / getMimicFactor joint)
          (min_position masterLimits) (max_position masterLimits) in
      let masterIndex := indexOf pMasterJoint joints in
      states ← store states masterIndex masterState;
      let kstate :=
        enforceBounds (setJointPositions kstate pMasterJoint masterState)
          pMasterJoint in
      updateMimics pJoint masterState (getMimicRequests master) states kstate
  | None =>
      Some (states,
            enforceBounds (setJointPositions kstate pJoint jointState) pJoint)
  end.

End Setters.

(** *** The plugin around [setJointState] *)

(** What [inverseKinematicsSolver.h] declares, a header that is not among
    the sources: the rows of the angle matrix and the two overloads of
    [inverseKinematics].  [coeff angles r] stands for [angles(r, 0)]. *)
Inductive Row := BASE | SHOULDER | ELBOW | WRIST.

(** The [Matrix4d] of a pose: [tf2::fromMsg] puts the position into the
    last column; the rotation block is Eigen's matrix of the quaternion, kept
    symbolically, since the plugin hands it to the solver as it is. *)
Record Matrix4d := { linear : Quaternion; column3 : Vector3d }.

Class Solver := {
  MatrixXd : Type;
  coeff : MatrixXd -> Row -> double;
  inverseKinematics : Vector3d -> MatrixXd;
  inverseKinematicsPose : Matrix4d -> MatrixXd
}.

(** What the plugin reads from MoveIt's [RobotState] besides driving it:
    the state [setToDefaultValues] produces and the link transforms. *)
Class KinematicQueries {kin : KinematicState} := {
  setToDefaultValues : RobotModel -> RobotStateObj;
  getGlobalLinkTransform : RobotStateObj -> LinkPtr -> Isometry3d
}.

(** The members of this [IKPlugin]; the [RobotState] behind [m_pState]
    changes with every solve and is passed along with the plugin. *)
Record IKPlugin := {
  robot_model_ : RobotModel;
  tip_frames_ : list string;
  m_joints : list JointPtr;
  m_pBaseJoint : option JointPtr;
  m_pShoulderJoint : option JointPtr;
  m_pElbowJoint : option JointPtr;
  m_pWristJoint : option JointPtr;
  m_positionOnly : bool;
  m_debug : bool
}.

Section Plugin.
Context {kin : KinematicState} {queries : KinematicQueries} {solver : Solver}.

(** [initialize].  The two settings come from the parameter server:
    [getParam] leaves the member as the constructor set it ([true] for
    [m_positionOnly], [false] for [m_debug]) when the parameter is missing.
    [None] is [return false]. *)
Definition initialize (robot_model : RobotModel) (group_name : string)
    (base_frame : string) (tip_frames : list string)
    (search_discretization : double)
    (positionOnlyParam debugParam : option bool)
  : option (IKPlugin * RobotStateObj) :=
  match getJointModelGroup robot_model group_name with
  | None => None
  | Some group =>
      (* Load settings *)
      let positionOnly := default true positionOnlyParam in
      let debug := default false debugParam in
      match chains_ group with
      | [chain] =>
          if decide (length tip_frames ≠ 1%nat) then None
          else
            (* Validate joints *)
            let joints :=
              filter (fun pJoint =>
                        getType (jointModel robot_model pJoint) = REVOLUTE
                        ∨ getType (jointModel robot_model pJoint) = PRISMATIC)
                     (getJointModels group) in
            (* Load configuration *)
            let chainTips := [chain.2] in
            let pBaseJoint := Ik.getJoint robot_model joints REVOLUTE None in
            let pShoulderJoint :=
              Ik.getJoint robot_model joints REVOLUTE pBaseJoint in
            let pElbowJoint :=
              Ik.getJoint robot_model joints REVOLUTE pShoulderJoint in
            let pWristJoint :=
              Ik.getJoint robot_model joints REVOLUTE pElbowJoint in
            (* Initialize state *)
            Some ({| robot_model_ := robot_model;
                     tip_frames_ := chainTips;
                     m_joints := joints;
                     m_pBaseJoint := pBaseJoint;
                     m_pShoulderJoint := pShoulderJoint;
                     m_pElbowJoint := pElbowJoint;
                     m_pWristJoint := pWristJoint;
                     m_positionOnly := positionOnly;
                     m_debug := debug |},
                  setToDefaultValues robot_model)
      | _ => None
      end
  end.

Definition validateTarget (p : IKPlugin) (poses : list Pose) : bool :=
  negb (bool_decide (length poses ≠ 1%nat)
        || bool_decide (length (tip_frames_ p) ≠ length poses)).

Definition validateSeedState (p : IKPlugin) (seed : list double)
  : option bool :=
  if decide (length seed ≠ length (m_joints p)) then Some false
  else
    _ ← mapM (fun jointIndex =>
                pJoint ← m_joints p !! jointIndex;
                state ← seed !! jointIndex;
                Some (pJoint, state))
             (seq 0%nat (length seed));
    Some true.

(** [getOrigin]: the translation of the base joint's child link. *)
Definition getOrigin (p : IKPlugin) (kstate : RobotStateObj)
  : option Vector3d :=
  pBaseJoint ← m_pBaseJoint p;
  Some (Eigen.translation
          (getGlobalLinkTransform kstate
             (getChildLinkModel (jointModel (robot_model_ p) pBaseJoint)))).

(** [getGoalPosition]: the position of [ik_poses.back()] less the origin. *)
Definition getGoalPosition (poses : list Pose) (origin : Vector3d)
  : option Vector3d :=
  goalPose ← last poses;
  let pos := position goalPose in
  Some {| Eigen.x := Eigen.x pos - Eigen.x origin;
          Eigen.y := Eigen.y pos - Eigen.y origin;
          Eigen.z := Eigen.z pos - Eigen.z origin |}.

(** [getGoal]: the matrix of [ik_poses.back()] with the origin taken off
    its last column. *)
Definition getGoal (poses : list Pose) (origin : Vector3d) : option Matrix4d :=
  goalPose ← last poses;
  let goalMatrix :=
    {| linear := orientation goalPose; column3 := position goalPose |} in
  Some {| linear := linear goalMatrix;
          column3 :=
            {| Eigen.x := Eigen.x (column3 goalMatrix) - Eigen.x origin;
               Eigen.y := Eigen.y (column3 goalMatrix) - Eigen.y origin;
               Eigen.z := Eigen.z (column3 goalMatrix) - Eigen.z origin |} |}.

(** [setJointState] through a member pointer: its first statement reads
    the joint type, so a null pointer faults whatever the angle. *)
Definition setJointStateVia (p : IKPlugin) (pJoint : option JointPtr)
    (angle : double) (states : list double) (kstate : RobotStateObj)
  : option (list double * RobotStateObj) :=
  pJoint ← pJoint;
  setJointState (robot_model_ p) (m_joints p) pJoint angle states kstate.

(** The general [searchPositionIK].  The solution vector is resized before
    the request is validated.  [visualizeSolution] publishes markers only and
    stays outside the model. *)
Definition searchPositionIK (p : IKPlugin) (kstate : RobotStateObj)
    (req : Ik.IKRequest) : option (Ik.IKResult * RobotStateObj) :=
  (* Initialize solution *)
  let solution := resize (length (m_joints p)) 0 (Ik.solution req) in
  (* Validate request *)
  seedOk ← validateSeedState p (Ik.ik_seed_state req);
  if negb seedOk || negb (validateTarget p (Ik.ik_poses req)) then
    Some ({| Ik.returned := false;
             Ik.solution_out := solution;
             Ik.error_code_out := {| val := NO_IK_SOLUTION |} |}, kstate)
  else
    (* Solve inverse kinematics *)
    origin ← getOrigin p kstate;
    angles ←
      (if m_positionOnly p then
         goal ← getGoalPosition (Ik.ik_poses req) origin;
         Some (inverseKinematics goal)
       else
         goal ← getGoal (Ik.ik_poses req) origin;
         Some (inverseKinematicsPose goal));
    (* Return solution *)
    '(solution, kstate) ←
      setJointStateVia p (m_pBaseJoint p) (coeff angles BASE) solution kstate;
    '(solution, kstate) ←
      setJointStateVia p (m_pShoulderJoint p) (coeff angles SHOULDER)
        solution kstate;
    '(solution, kstate) ←
      setJointStateVia p (m_pElbowJoint p) (coeff angles ELBOW) solution kstate;
    '(solution, kstate) ←
      setJointStateVia p (m_pWristJoint p) (coeff angles WRIST) solution kstate;
    let error_code := {| val := SUCCESS |} in
    error_code ←
      match Ik.solution_callback req with
      | Some callback =>
          front ← head (Ik.ik_poses req);
          Some (callback front solution error_code)
      | None => Some error_code
      end;
    Some ({| Ik.returned := true;
             Ik.solution_out := solution;
             Ik.error_code_out := error_code |}, kstate).

End Plugin.
End InverseKinematicsPlugin.

(** [src/ik.cpp], the earlier solver: the master slot receives the clamped
    inverse image and no other mimic is touched. *)
Module IkLegacy.

Section Setters.
Context {moveit : MoveIt}.
Variable rm : RobotModel.
Variable joints : list JointPtr.

Definition setJointState (pJoint : JointPtr) (angle : double)
    (states : list double) : option (list double) :=
  let joint := jointModel rm pJoint in
  axis ← Ik.getJointAxis joint;
  let limits := getVariableBoundsMsg joint in
  let transform := {| Eigen.angle := angle; Eigen.axis := axis |} in
  if isnan angle then Some states
  else
    let state := computeVariablePositions joint transform in
    let index := indexOf pJoint joints in
    states ← store states index
      (clamp state (min_position limits) (max_position limits));
    match getMimic joint with
    | Some pMimicJoint =>
        let mimicLimits := getVariableBoundsMsg (jointModel rm pMimicJoint) in
        let mimicState :=
          (state - getMimicOffset joint) / getMimicFactor joint in
        let mimicIndex := indexOf pMimicJoint joints in
        store states mimicIndex
          (clamp mimicState (min_position mimicLimits)
             (max_position mimicLimits))
    | None => Some states
    end.

End Setters.

(** *** The solver around it *)

(** The four thresholds this solver takes from [include/ik.h]; the header
    is not among the sources. *)
Class Header := {
  MIN_TARGET_HEIGHT : double;
  MAX_TARGET_HEIGHT : double;
  MIN_TARGET_OFFSET : double;
  MAX_TARGET_OFFSET : double
}.

(** What this solver takes from outside the repository besides [atan2],
    [acos] and [computeVariablePositions]: [asin] of <math.h>; Eigen's rigid
    transforms in full, where the data model keeps the translation only
    ([ofAngleAxis] is [Isometry3d(AngleAxisd(angle, axis))], [product] is
    [a * b], [apply] is the transform times a vector, [linkTransform] is the
    transform [getGlobalLinkTransform] answers); and MoveIt's
    [getDescendantJointModels]. *)
Class Outside := {
  asin : double -> double;
  Transform : Type;
  ofAngleAxis : AngleAxisd -> Transform;
  product : Transform -> Transform -> Transform;
  inverse : Transform -> Transform;
  apply : Transform -> Vector3d -> Vector3d;
  linkTransform : RobotState -> LinkPtr -> Transform;
  getDescendantJointModels : JointModel -> list JointPtr
}.

(** The members of this [IKPlugin]: it keeps no joint pointers and looks
    the joints up in every solve. *)
Record IKPlugin := {
  robot_model_ : RobotModel;
  m_pPlanningGroup : JointModelGroup;
  tip_frames_ : list string;
  m_joints : list JointPtr;
  m_pState : RobotState
}.

Section Solver.
Context {libm : Libm} {moveit : MoveIt} {header : Header} {outside : Outside}.

(** [initialize]; [None] is [return false]. *)
Definition initialize (robot_model : RobotModel) (group_name : string)
    (base_frame : string) (tip_frames : list string)
    (search_discretization : double) : option IKPlugin :=
  match getJointModelGroup robot_model group_name with
  | None => None
  | Some group =>
      match chains_ group with
      | [chain] =>
          if decide (length tip_frames ≠ 1%nat) then None
          else
            (* Validate joints *)
            let joints :=
              filter (fun pJoint =>
                        getType (jointModel robot_model pJoint) = REVOLUTE
                        ∨ getType (jointModel robot_model pJoint) = PRISMATIC)
                     (getJointModels group) in
            (* Load configuration *)
            let chainTips := [chain.2] in
            (* Initialize state *)
            Some {| robot_model_ := robot_model;
                    m_pPlanningGroup := group;
                    tip_frames_ := chainTips;
                    m_joints := joints;
                    m_pState := defaultState robot_model |}
      | _ => None
      end
  end.

Definition getTipLink (p : IKPlugin) : option LinkPtr :=
  front ← head (tip_frames_ p);
  getLinkModel (m_pPlanningGroup p) front.

Definition validateTarget (p : IKPlugin) (poses : list Pose) : bool :=
  negb (bool_decide (length poses ≠ 1%nat)
        || bool_decide (length (tip_frames_ p) ≠ length poses)).

Definition validateSeedState (p : IKPlugin) (seed : list double)
  : option bool :=
  if decide (length seed ≠ length (m_joints p)) then Some false
  else
    _ ← mapM (fun jointIndex =>
                pJoint ← m_joints p !! jointIndex;
                state ← seed !! jointIndex;
                Some (pJoint, state))
             (seq 0%nat (length seed));
    Some true.

(** The joints and vectors [searchPositionIK] derives before its first
    write. *)
Record Locals := {
  pMountJoint : JointPtr;
  pShoulderJoint : JointPtr;
  pElbowJoint : JointPtr;
  targetReference : Isometry3d;
  shoulderReference : Isometry3d;
  upperArm : Vector3d;
  forearm : Vector3d;
  shoulderToEffector : Vector3d;
  elbowToEffector : Vector3d
}.

Definition locals (p : IKPlugin) (poses : list Pose) : option Locals :=
  let rm := robot_model_ p in
  pTipLink ← getTipLink p;
  let mount := Ik.getJoint rm (m_joints p) REVOLUTE None in
  let shoulder := Ik.getJoint rm (m_joints p) REVOLUTE mount in
  let elbow := Ik.getJoint rm (m_joints p) REVOLUTE shoulder in
  targetReference ← Ik.getTarget poses;
  pShoulderJoint ← shoulder;
  let shoulderLink := Ik.childLink rm pShoulderJoint in
  pElbowJoint ← elbow;
  let elbowLink := Ik.childLink rm pElbowJoint in
  pDescendant ← head (getDescendantJointModels (jointModel rm pElbowJoint));
  pMountJoint ← mount;
  Some {| pMountJoint := pMountJoint;
          pShoulderJoint := pShoulderJoint;
          pElbowJoint := pElbowJoint;
          targetReference := targetReference;
          shoulderReference := getGlobalLinkTransform (m_pState p) shoulderLink;
          upperArm := Ik.getLinkLength (m_pState p) shoulderLink elbowLink;
          forearm :=
            Ik.getLinkLength (m_pState p) elbowLink
              (Ik.childLink rm pDescendant);
          shoulderToEffector :=
            Ik.getLinkLength (m_pState p) shoulderLink pTipLink;
          elbowToEffector :=
            Ik.getLinkLength (m_pState p) elbowLink pTipLink |}.

(** "Calculate mount joint angle": the angle handed to [setJointState]
    for the mount joint. *)
Definition mountJointAngle (l : Locals) : double :=
  let targetOffset :=
    Eigen.sub (Eigen.translation (targetReference l))
              (Eigen.translation (shoulderReference l)) in
  let mountAngle := Ik.getAngle (Eigen.x targetOffset) (Eigen.y targetOffset) in
  let mountReference :=
    Ik.getAngle (Eigen.x (upperArm l)) (Eigen.y (upperArm l)) in
  let mountOffset :=
    Ik.getAngle (Eigen.x (shoulderToEffector l)) (Eigen.y (shoulderToEffector l))
    - mountReference in
  mountAngle - mountReference - mountOffset.

(** "Calculate shoulder joint angle": the target in the frame of the
    turned shoulder link. *)
Definition targetLocal (p : IKPlugin) (l : Locals) (axis : Vector3d)
  : Vector3d :=
  let armRotation :=
    ofAngleAxis {| Eigen.angle := mountJointAngle l; Eigen.axis := axis |} in
  let targetToEffectorReference :=
    Eigen.sub (Eigen.translation (targetReference l)) (elbowToEffector l) in
  let localToWorld :=
    product armRotation
      (linkTransform (m_pState p)
         (Ik.childLink (robot_model_ p) (pShoulderJoint l))) in
  apply (inverse localToWorld) targetToEffectorReference.

Definition shoulderJointAngle (l : Locals) (targetLocal : Vector3d) : double :=
  let shoulderOffset := asin (Eigen.z targetLocal / Eigen.norm targetLocal) in
  let shoulderRaw :=
    Ik.lawOfCosines (Eigen.norm (upperArm l)) (Eigen.norm (forearm l))
      (Eigen.norm targetLocal) in
  let effectorOffset :=
    Ik.getAngle (Eigen.y (elbowToEffector l)) (Eigen.z (elbowToEffector l)) in
  shoulderOffset - effectorOffset + shoulderRaw.

Definition elbowJointAngle (l : Locals) (targetLocal : Vector3d) : double :=
  Ik.lawOfCosines (Eigen.norm (forearm l)) (Eigen.norm (upperArm l))
    (Eigen.norm targetLocal)
  - M_PI.

(** The branch on the height of the target for the shoulder. *)
Definition solveShoulder (p : IKPlugin) (l : Locals) (targetLocal : Vector3d)
    (solution : list double) : option (list double) :=
  let rm := robot_model_ p in
  if Eigen.z targetLocal <? MIN_TARGET_HEIGHT then
    Ik.setJointMinState rm (m_joints p) (pShoulderJoint l) solution
  else if MAX_TARGET_HEIGHT <? Eigen.z targetLocal then
    Ik.setJointMaxState rm (m_joints p) (pShoulderJoint l) solution
  else
    setJointState rm (m_joints p) (pShoulderJoint l)
      (shoulderJointAngle l targetLocal) solution.

(** The branch on the sideways offset of the target for the elbow. *)
Definition solveElbow (p : IKPlugin) (l : Locals) (targetLocal : Vector3d)
    (solution : list double) : option (list double) :=
  let rm := robot_model_ p in
  if Eigen.y targetLocal <? MIN_TARGET_OFFSET then
    Ik.setJointMinState rm (m_joints p) (pElbowJoint l) solution
  else if MAX_TARGET_OFFSET <? Eigen.y targetLocal then
    Ik.setJointMaxState rm (m_joints p) (pElbowJoint l) solution
  else
    (* Calculate elbow joint angle *)
    setJointState rm (m_joints p) (pElbowJoint l)
      (elbowJointAngle l targetLocal) solution.

(** The general [searchPositionIK].  The debug markers it publishes are
    output only. *)
Definition searchPositionIK (p : IKPlugin) (req : Ik.IKRequest)
  : option Ik.IKResult :=
  seedOk ← validateSeedState p (Ik.ik_seed_state req);
  if negb seedOk || negb (validateTarget p (Ik.ik_poses req)) then
    Some {| Ik.returned := false;
            Ik.solution_out := Ik.solution req;
            Ik.error_code_out := {| val := NO_IK_SOLUTION |} |}
  else
    let rm := robot_model_ p in
    let solution := Ik.ik_seed_state req in
    l ← locals p (Ik.ik_poses req);
    (* Calculate mount joint angle *)
    axis ← Ik.getJointAxis (jointModel rm (pMountJoint l));
    solution ← setJointState rm (m_joints p) (pMountJoint l)
                 (mountJointAngle l) solution;
    (* Calculate shoulder joint angle *)
    let targetLocal := targetLocal p l axis in
    solution ← solveShoulder p l targetLocal solution;
    solution ← solveElbow p l targetLocal solution;
    Ik.returnSolution req solution.

End Solver.
End IkLegacy.

(** ** Notions the statements use *)

Module Notions.
Import Ik.

(** A joint of the two types the plugin lists; these have an axis. *)
Definition supported (rm : RobotModel) (j : JointPtr) : Prop :=
  getType (jointModel rm j) = REVOLUTE ∨ getType (jointModel rm j) = PRISMATIC.

(** The joints whose slots [setJointState] may write besides the joint
    itself: its mimic master and the joints that mimic that master. *)
Definition mimicFamily (rm : RobotModel) (j : JointPtr) : list JointPtr :=
  match getMimic (jointModel rm j) with
  | None => []
  | Some m => m :: getMimicRequests (jointModel rm m)
  end.

(** The state a mimic of the master takes for the master state [ms]. *)
Definition mimicStateOf (rm : RobotModel) (s : JointPtr) (ms : double) : double :=
  let mimic := jointModel rm s in
  clamp (ms * getMimicFactor mimic + getMimicOffset mimic)
    (min_position (getVariableBoundsMsg mimic))
    (max_position (getVariableBoundsMsg mimic)).

Section Locals.
Context {moveit : MoveIt}.
Variable rm : RobotModel.

(** The locals of the law-of-cosines [setJointState] for joint [j] and angle
    [a]: the joint state MoveIt computes, the master state drawn from it
    through the inverse affine relation, and that state clamped to the
    limits of the master [m]. *)
Definition jointStateOf (j : JointPtr) (a : double) : double :=
  computeVariablePositions (jointModel rm j)
    {| Eigen.angle := a; Eigen.axis := getAxis (jointModel rm j) |}.

Definition masterStateRawOf (j : JointPtr) (a : double) : double :=
  (jointStateOf j a - getMimicOffset (jointModel rm j))
  / getMimicFactor (jointModel rm j).

Definition masterStateOf (j m : JointPtr) (a : double) : double :=
  clamp (masterStateRawOf j a)
    (min_position (getVariableBoundsMsg (jointModel rm m)))
    (max_position (getVariableBoundsMsg (jointModel rm m))).

(** The locals of [setJointState] in [inverseKinematicsPlugin.cpp]: the
    joint state is the clamped angle, or the upper limit for NaN; the master
    state is clamped. *)
Definition ikpJointStateOf (j : JointPtr) (a : double) : double :=
  if isnan a then max_position (getVariableBoundsMsg (jointModel rm j))
  else clamp a (min_position (getVariableBoundsMsg (jointModel rm j)))
               (max_position (getVariableBoundsMsg (jointModel rm j))).

Definition ikpMasterStateOf (j m : JointPtr) (a : double) : double :=
  clamp ((ikpJointStateOf j a - getMimicOffset (jointModel rm j))
         / getMimicFactor (jointModel rm j))
    (min_position (getVariableBoundsMsg (jointModel rm m)))
    (max_position (getVariableBoundsMsg (jointModel rm m))).

End Locals.

(** What [initialize] establishes about the members: the four joints are
    found and listed, one tip frame is stored, and every listed joint is
    revolute or prismatic. *)
Record Ready (p : IKPlugin) (mt sh el wr : JointPtr) : Prop := {
  ready_mount : m_pMountJoint p = Some mt;
  ready_shoulder : m_pShoulderJoint p = Some sh;
  ready_elbow : m_pElbowJoint p = Some el;
  ready_wrist : m_pWristJoint p = Some wr;
  ready_mount_in : mt ∈ m_joints p;
  ready_shoulder_in : sh ∈ m_joints p;
  ready_elbow_in : el ∈ m_joints p;
  ready_wrist_in : wr ∈ m_joints p;
  ready_tips : length (tip_frames_ p) = 1%nat;
  ready_supported : ∀ j, j ∈ m_joints p → supported (robot_model_ p) j
}.

(** The master of joint [j], when it has one, is a listed joint. *)
Definition masterListed (p : IKPlugin) (j : JointPtr) : Prop :=
  ∀ m, getMimic (jointModel (robot_model_ p) j) = Some m → m ∈ m_joints p.

(** Every listed mimic joint has its master in the list. *)
Definition mastersListed (p : IKPlugin) : Prop :=
  ∀ j, j ∈ m_joints p → masterListed p j.

(** The joints whose slots a solve may write: the mount and the shoulder
    with their mimic families, and the elbow. *)
Definition writtenJoints (rm : RobotModel) (mt sh el : JointPtr)
  : list JointPtr :=
  (mt :: mimicFamily rm mt) ++ (sh :: mimicFamily rm sh) ++ [el].

(** Every slot holds a value inside the limits of its joint. *)
Definition withinLimits (rm : RobotModel) (joints : list JointPtr)
    (states : list double) : Prop :=
  ∀ i j v, joints !! i = Some j → states !! i = Some v →
    within (min_position (getVariableBoundsMsg (jointModel rm j)))
           (max_position (getVariableBoundsMsg (jointModel rm j))) v = true.

(** A request that passes [validateSeedState] and [validateTarget]. *)
Definition validRequest (p : IKPlugin) (req : IKRequest) : Prop :=
  length (ik_seed_state req) = length (m_joints p)
  ∧ length (ik_poses req) = 1%nat
  ∧ length (tip_frames_ p) = length (ik_poses req).

(** The test [getJoint] applies to a candidate: the type asked for and,
    under a parent joint, the parent link being that joint's child link. *)
Definition attached (rm : RobotModel) (type : JointType)
    (parent : option JointPtr) (j : JointPtr) : Prop :=
  getType (jointModel rm j) = type
  ∧ ∀ par, parent = Some par →
      getParentLinkModel (jointModel rm j)
      = getChildLinkModel (jointModel rm par).

(** The translation of a link in the default pose of the robot. *)
Definition linkOrigin (rm : RobotModel) (link : LinkPtr) : Vector3d :=
  Eigen.translation (getGlobalLinkTransform (defaultState rm) link).

End Notions.

(** ** Concrete robots for the examples *)

Module Fixture.
Import Ik.

(** A table of <math.h> values that Annex F of the C standard fixes exactly:
    [atan2(±0, x) = ±0] for [x > 0], [acos(1) = +0], and NaN for an argument
    of [acos] outside [-1, 1].  The examples below only reach these entries;
    any other argument shows up as NaN. *)
Definition table_atan2 (y x : double) : double :=
  if (y =? 0) && (0 <? x) then y else nan.

Definition table_acos (x : double) : double :=
  if within (-1) 1 x then (if x =? 1 then 0 else nan) else nan.

#[export] Instance table_libm : Libm :=
  {| atan2 := table_atan2; acos := table_acos |}.

(** A revolute joint turned by [angle] about its own axis reads [angle]. *)
#[export] Instance revolute_moveit : MoveIt :=
  {| computeVariablePositions := fun _ transform => Eigen.angle transform |}.

(** A recorder in place of MoveIt's [RobotState]: it keeps the positions it
    was given, latest first. *)
#[export] Instance recorder : InverseKinematicsPlugin.KinematicState :=
  {| InverseKinematicsPlugin.RobotStateObj := list (JointPtr * double);
     InverseKinematicsPlugin.setJointPositions := fun log j v => (j, v) :: log;
     InverseKinematicsPlugin.enforceBounds := fun log _ => log |}.

(** The recorder before any call. *)
Definition fresh : @InverseKinematicsPlugin.RobotStateObj recorder := [].

Definition along_x (d : double) : Vector3d :=
  {| Eigen.x := d; Eigen.y := 0; Eigen.z := 0 |}.

#[export] Instance envelope : Header :=
  {| MIN := along_x 0.5; MAX := along_x 1.25 |}.

(** A header whose upper constant lies far outside the arms below. *)
Definition wide : Header := {| MIN := along_x 0.5; MAX := along_x 3 |}.

Definition joint (type : JointType) (parent child : LinkPtr) (lo hi : double)
    (master : option JointPtr) (factor offset : double)
    (requests : list JointPtr) : JointModel :=
  {| getType := type;
     getAxis := {| Eigen.x := 0; Eigen.y := 0; Eigen.z := 1 |};
     getVariableBoundsMsg := {| min_position := lo; max_position := hi |};
     getMimic := master;
     getMimicFactor := factor;
     getMimicOffset := offset;
     getMimicRequests := requests;
     getParentLinkModel := parent;
     getChildLinkModel := child |}.

Definition free (parent child : LinkPtr) (lo hi : double) : JointModel :=
  joint REVOLUTE parent child lo hi None 1 0 [].

(** Links 0..5 in a row along x: base, turret, upper arm, forearm, hand,
    effector; the upper arm starts at the origin. *)
Definition stretched : RobotState :=
  {| getGlobalLinkTransform := fun link =>
       {| Eigen.translation :=
            match link with
            | 0%nat | 1%nat | 2%nat => along_x 0
            | 3%nat => along_x 0.5
            | 4%nat => along_x 1
            | _ => along_x 1.25
            end |} |}.

Definition robot (table : JointPtr -> JointModel) (listed : list JointPtr)
  : RobotModel :=
  {| getJointModelGroup := fun name =>
       if decide (name = "arm"%string)
       then Some {| chains_ := [("base"%string, "effector"%string)];
                    getJointModels := listed;
                    getLinkModel := fun link =>
                      if decide (link = "effector"%string) then Some 5%nat
                      else None |}
       else None;
     jointModel := table;
     defaultState := stretched |}.

(** The plain arm: mount 0, shoulder 1, elbow 2, wrist 3. *)
Definition arm_joints (j : JointPtr) : JointModel :=
  match j with
  | 0%nat => free 0 1 (-2) 2
  | 1%nat => free 1 2 (-1) 1
  | 2%nat => free 2 3 (-0.5) 0.5
  | _ => free 3 4 (-0.25) 0.25
  end.

Definition arm : RobotModel := robot arm_joints [0; 1; 2; 3]%nat.

(** The geared arm: the shoulder mimics a linear actuator, joint 4. *)
Definition geared_joints (j : JointPtr) : JointModel :=
  match j with
  | 1%nat => joint REVOLUTE 1 2 (-1) 1 (Some 4%nat) 2 0 []
  | 4%nat => joint PRISMATIC 1 6 0 1 None 1 0 [1%nat]
  | _ => arm_joints j
  end.

Definition geared : RobotModel := robot geared_joints [0; 1; 2; 3; 4]%nat.

(** The coupled arm: mount and wrist both mimic the actuator, joint 4. *)
Definition coupled_joints (j : JointPtr) : JointModel :=
  match j with
  | 0%nat => joint REVOLUTE 0 1 (-2) 2 (Some 4%nat) 1 0 []
  | 3%nat => joint REVOLUTE 3 4 (-0.25) 0.25 (Some 4%nat) 1 0.125 []
  | 4%nat => joint PRISMATIC 0 6 0 1 None 1 0 [0; 3]%nat
  | _ => arm_joints j
  end.

Definition coupled : RobotModel := robot coupled_joints [0; 1; 2; 3; 4]%nat.

(** A master with limits [0, 1] and one mimic with limits [0, 10]. *)
Definition pair_joints (j : JointPtr) : JointModel :=
  match j with
  | 0%nat => joint REVOLUTE 0 1 0 1 None 1 0 [1%nat]
  | _ => joint REVOLUTE 0 2 0 10 (Some 0%nat) 1 0 []
  end.

Definition pair : RobotModel := robot pair_joints [0; 1]%nat.

(** [initialize] on a fixture robot; the empty plugin stands for a refusal
    or a fault, which none of the three arms produces. *)
Definition plugin_of (rm : RobotModel) : IKPlugin :=
  match initialize rm "arm" "base" ["effector"%string] 0 with
  | Some (Some p) => p
  | _ => {| robot_model_ := rm; tip_frames_ := []; m_joints := [];
            m_pState := defaultState rm; m_pTipLink := None;
            m_pMountJoint := None; m_pShoulderJoint := None;
            m_pElbowJoint := None; m_pWristJoint := None;
            m_upperArm := along_x 0; m_forearm := along_x 0 |}
  end.

Definition pose_at (target : Vector3d) : Pose :=
  {| position := target;
     orientation := {| qx := 0; qy := 0; qz := 0; qw := 1 |} |}.

(** A request for one target with the given seed; the caller's solution
    vector starts empty and no callback is installed. *)
Definition request (target : Vector3d) (seed : list double) : IKRequest :=
  {| ik_poses := [pose_at target];
     ik_seed_state := seed;
     timeout := 1;
     consistency_limits := [];
     solution := [];
     solution_callback := None;
     error_code := {| val := 0 |} |}.

(** A target ten units out along x, beyond the envelope. *)
Definition far : Vector3d := along_x 10.

(** A target an eighth of a unit out, short of the envelope. *)
Definition near : Vector3d := along_x 0.125.

(** Seeds for the arms of four and of five listed joints. *)
Definition seed4 : list double := [0.125; 0.25; 0.375; 0.0625].
Definition seed5 : list double := [0.125; 0.25; 0.375; 0; 0.75].

(** A seed whose wrist entry lies far outside the wrist limits. *)
Definition wild_seed : list double := [0.125; 0.25; 0.375; 9].

(** A seed of one entry for an arm of four joints. *)
Definition short_request : IKRequest := request far [0.125].

End Fixture.

(** ** The hardware interface node *)

(** [hardware], from the part of [src/inverseKinematicsPlugin.cpp] headed
    [hardware.h].  Its header and the controller classes are not among the
    sources: a controller is what [hardware] asks of it, the maps keyed by
    group name are read with [operator[]] only and so are total maps with the
    default-constructed value, and [m_groups], the one map that is walked, is
    a [std::map] visited in the order of its keys.  Of ros_control the model
    keeps what decides how [init] ends: the saturation handle that refuses
    limits without a velocity limit. *)
Module Hardware.

(** The controller types [hardware] tells apart by their [TYPE] constant. *)
Inductive ControllerType := solenoid | encoder | motor | other.

Global Instance ControllerType_eq_dec : EqDecision ControllerType.
Proof. solve_decision. Defined.

(** A controller: its path names it, [configure] and [init] hold what the
    calls of those names answer. *)
Module Controller.

Record controller := {
  getPath : string;
  getType : ControllerType;
  getParentName : string;
  configure : bool;
  init : bool
}.

End Controller.

Definition controller : Type := Controller.controller.

(** A controller of the given type: [controller->getType() == type::TYPE]. *)
Definition ofType (type : ControllerType) (c : controller) : bool :=
  bool_decide (Controller.getType c = type).

(** [joint_limits_interface::JointLimits], the fields [hardware] and the
    saturation handle of ros_control read; a default-constructed object holds
    zeros and has no limits of any kind. *)
Record JointLimits := {
  min_position : double;
  max_position : double;
  max_velocity : double;
  has_velocity_limits : bool
}.

Definition noLimits : JointLimits :=
  {| min_position := 0; max_position := 0; max_velocity := 0;
     has_velocity_limits := false |}.

(** The members of [hardware]. *)
Record hardware := {
  m_controllers : list controller;
  m_groups : gmap string (list controller);
  m_limits : string -> JointLimits;
  m_pos : string -> double;
  m_vel : string -> double;
  m_effort : string -> double;
  m_cmd : string -> double
}.

(** The object the constructor leaves. *)
Definition constructed : hardware :=
  {| m_controllers := []; m_groups := ∅;
     m_limits := fun _ => noLimits;
     m_pos := fun _ => 0; m_vel := fun _ => 0;
     m_effort := fun _ => 0; m_cmd := fun _ => 0 |}.

(** [m_groups[groupName].push_back(controller)]. *)
Definition push_back (groups : gmap string (list controller))
    (groupName : string) (c : controller) : gmap string (list controller) :=
  <[groupName := default [] (groups !! groupName) ++ [c]]> groups.

(** The first loop of [configure]: it stops at the first controller whose
    [configure] fails. *)
Fixpoint groupControllers (controllers : list controller)
    (groups : gmap string (list controller))
  : bool * gmap string (list controller) :=
  match controllers with
  | [] => (true, groups)
  | c :: rest =>
      if negb (Controller.configure c) then (false, groups)
      else groupControllers rest (push_back groups (Controller.getParentName c) c)
  end.

(** The loop over the controllers once [robot_description] is parsed;
    [urdf jointName] is what [getJointLimits] fills in for the joint, [None]
    when it answers [false] and the limits stay as constructed. *)
Fixpoint loadLimits (urdf : string -> option JointLimits)
    (controllers : list controller) (limits : string -> JointLimits)
  : string -> JointLimits :=
  match controllers with
  | [] => limits
  | c :: rest =>
      if ofType solenoid c || ofType motor c
      then
        let jointName := Controller.getParentName c in
        loadLimits urdf rest
          (<[jointName := default noLimits (urdf jointName)]> limits)
      else loadLimits urdf rest limits
  end.

(** [configure]: [loaded] is what [controllerFactory::fromNamespace] made,
    [description] the parsed [robot_description], [None] when the parameter is
    missing or does not parse. *)
Definition configure (hw : hardware) (loaded : list controller)
    (description : option (string -> option JointLimits)) : bool * hardware :=
  let '(ok, groups) := groupControllers loaded (m_groups hw) in
  if negb ok then
    (false,
     {| m_controllers := loaded; m_groups := groups;
        m_limits := m_limits hw; m_pos := m_pos hw; m_vel := m_vel hw;
        m_effort := m_effort hw; m_cmd := m_cmd hw |})
  else
    let limits :=
      match description with
      | Some urdf => loadLimits urdf loaded (m_limits hw)
      | None => m_limits hw
      end in
    (true,
     {| m_controllers := loaded; m_groups := groups;
        m_limits := limits; m_pos := m_pos hw; m_vel := m_vel hw;
        m_effort := m_effort hw; m_cmd := m_cmd hw |}).

(** "Initialize hardware state": the four values of every group are set to
    zero; the handles registered with [hardware_interface] point at them. *)
Definition zeroGroup (hw : hardware) (group : string * list controller)
  : hardware :=
  {| m_controllers := m_controllers hw; m_groups := m_groups hw;
     m_limits := m_limits hw;
     m_pos := <[group.1 := 0]> (m_pos hw);
     m_vel := <[group.1 := 0]> (m_vel hw);
     m_effort := <[group.1 := 0]> (m_effort hw);
     m_cmd := <[group.1 := 0]> (m_cmd hw) |}.

(** The groups in the order a range-for over [m_groups] visits them: by
    key, [std::string] comparing byte by byte. *)
Definition keyBefore (a b : string * list controller) : Prop :=
  String.leb a.1 b.1 = true.

#[export] Instance keyBefore_dec : RelDecision keyBefore :=
  fun a b => decide (String.leb a.1 b.1 = true).

Definition inOrder (groups : gmap string (list controller))
  : list (string * list controller) :=
  merge_sort keyBefore (map_to_list groups).

(** How a call of [init] ends: it returns a value, or an exception leaves
    it. *)
Inductive Outcome :=
  | returns (value : bool)
  | throws.

(** The loop of [init] over the groups.  After the four values of a group
    are zeroed and its state and velocity handles registered, the loop
    constructs [VelocityJointSaturationHandle(jointHandle, m_limits[name])];
    that constructor of ros_control throws [JointLimitsInterfaceException]
    when the limits have no velocity limits, which ends the loop and [init]
    ([false] below). *)
Fixpoint registerGroups (hw : hardware)
    (groups : list (string * list controller)) : bool * hardware :=
  match groups with
  | [] => (true, hw)
  | group :: rest =>
      let hw := zeroGroup hw group in
      if has_velocity_limits (m_limits hw group.1)
      then registerGroups hw rest
      else (false, hw)
  end.

(** [init]: every controller is initialized first. *)
Definition init (hw : hardware) : Outcome * hardware :=
  if negb (forallb Controller.init (m_controllers hw)) then (returns false, hw)
  else
    let '(registered, hw) := registerGroups hw (inOrder (m_groups hw)) in
    (if registered then returns true else throws, hw).

(** What [write] asks of the devices. *)
Inductive Action :=
  | trigger (sol : controller)
  | command (mtr : controller) (velocity : double).

(** The inner loop of [write] over the controllers of one group. *)
Fixpoint writeGroup (name : string) (controllers : list controller)
    (cmd : string -> double) : (string -> double) * list Action :=
  match controllers with
  | [] => (cmd, [])
  | c :: rest =>
      if ofType solenoid c && (0 <? cmd name) then
        let cmd := <[name := 0]> cmd in
        let '(cmd, actions) := writeGroup name rest cmd in
        (cmd, trigger c :: actions)
      else if ofType motor c then
        let '(cmd', actions) := writeGroup name rest cmd in
        (cmd', command c (cmd name) :: actions)
      else writeGroup name rest cmd
  end.

(** The outer loop over the groups. *)
Fixpoint writeGroups (groups : list (string * list controller))
    (cmd : string -> double) : (string -> double) * list Action :=
  match groups with
  | [] => (cmd, [])
  | group :: rest =>
      let '(cmd, actions) := writeGroup group.1 group.2 cmd in
      let '(cmd, actions') := writeGroups rest cmd in
      (cmd, actions ++ actions')
  end.

(** [write]: the commands left in [m_cmd] and the calls made. *)
Definition write (hw : hardware) : hardware * list Action :=
  let '(cmd, actions) := writeGroups (inOrder (m_groups hw)) (m_cmd hw) in
  ({| m_controllers := m_controllers hw; m_groups := m_groups hw;
      m_limits := m_limits hw; m_pos := m_pos hw; m_vel := m_vel hw;
      m_effort := m_effort hw; m_cmd := cmd |}, actions).

End Hardware.

(** ** The robot controller *)

(** The path functions of [robot.cpp], which the sources carry after
    [arduinoMicro.h].  A C string is the sequence of its bytes up to the
    terminator; a [char] array is a sequence of fixed length in which the
    terminator may occur, and a write past its end is the fault [None]. *)
Module Robot.

Definition NUL : ascii := Ascii.zero.
Definition slash : ascii := "/"%char.

(** [strchr(s, c)]: the offset of the first [c] in [s]. *)
Fixpoint strchr (s : list ascii) (c : ascii) : option nat :=
  match s with
  | [] => None
  | a :: rest => if decide (a = c) then Some 0%nat else S <$> strchr rest c
  end.

(** [strrchr(s, c)]: the offset of the last [c] in [s]. *)
Fixpoint strrchr (s : list ascii) (c : ascii) : option nat :=
  match s with
  | [] => None
  | a :: rest =>
      match strrchr rest c with
      | Some i => Some (S i)
      | None => if decide (a = c) then Some 0%nat else None
      end
  end.

(** [strstr(haystack, needle)]: the offset of the first occurrence. *)
Fixpoint strstr (haystack needle : list ascii) : option nat :=
  if decide (needle `prefix_of` haystack) then Some 0%nat
  else match haystack with
       | [] => None
       | _ :: rest => S <$> strstr rest needle
       end.

(** [strncpy(dest, src, n)] for [n] no more than the length of [src]: [n]
    bytes are copied and no terminator is added. *)
Definition strncpy (dest src : list ascii) (n : nat) : option (list ascii) :=
  if decide (n ≤ length dest) then Some (take n src ++ drop n dest) else None.

(** The C string a [char] array holds: the bytes before the first
    terminator; reading an array without one runs past its end. *)
Fixpoint c_str (array : list ascii) : option (list ascii) :=
  match array with
  | [] => None
  | a :: rest => if decide (a = NUL) then Some [] else (a ::.) <$> c_str rest
  end.

(** [robot::getControllerName]: what follows the last slash. *)
Definition getControllerName (path : list ascii) : list ascii :=
  match strrchr path slash with
  | None => path
  | Some lastSep => drop (S lastSep) path
  end.

(** [robot::getControllerPath].  [sprintf] fills [componentTypePath], an
    array of 64 bytes, with the component type between two slashes and a
    terminator.  The answer is [Some None] for the null pointer and
    [Some (Some array)] for [componentPath] as the call leaves it. *)
Definition getControllerPath (path componentType componentPath : list ascii)
  : option (option (list ascii)) :=
  let componentTypePath := slash :: componentType ++ [slash] in
  if decide (64 < length componentTypePath + 1) then None
  else
    match strstr path componentTypePath with
    | None => Some None
    | Some typeNode =>
        let nameNode := (typeNode + length componentTypePath)%nat in
        let nextNode :=
          match strchr (drop nameNode path) slash with
          | Some next => (nameNode + next)%nat
          | None => (nameNode + length (drop nameNode path))%nat
          end in
        Some <$> strncpy componentPath path nextNode
    end.

(** The locals of the loop of [deserializeArms] and the member it fills:
    [m_arms] holds, for every arm made, the path handed to its constructor.
    [m_armNames], whose key type is fixed by a header that is not among the
    sources, is left out. *)
Record ArmScan := {
  armPath : list ascii;
  unique : gset (list ascii);
  m_arms : list (list ascii)
}.

Definition arms : list ascii := list_ascii_of_string "arms".

(** One turn of the loop: the array [armPath] is the same in every turn. *)
Definition scanParam (scan : ArmScan) (param : list ascii) : option ArmScan :=
  found ← getControllerPath param arms (armPath scan);
  match found with
  | None => Some scan
  | Some array =>
      path ← c_str array;
      if decide (path ∈ unique scan) then
        Some {| armPath := array; unique := unique scan;
                m_arms := m_arms scan |}
      else
        Some {| armPath := array;
                unique := {[ path ]} ∪ unique scan;
                m_arms := m_arms scan ++ [path] |}
  end.

Fixpoint scanParams (scan : ArmScan) (params : list (list ascii))
  : option ArmScan :=
  match params with
  | [] => Some scan
  | param :: rest => scan ← scanParam scan param; scanParams scan rest
  end.

(** [robot::deserializeArms] over the parameter names [params], for a robot
    that holds the arms [made] so far; [armPath] starts as 255 zero bytes. *)
Definition deserializeArms (made : list (list ascii))
    (params : list (list ascii)) : option (list (list ascii)) :=
  scan ← scanParams
            {| armPath := replicate 255 NUL; unique := ∅; m_arms := made |}
            params;
  Some (m_arms scan).

End Robot.

(** ** The PWM servo controller *)

(** [pwmServo.cpp].  The class headers and the [Pwm] message are not among
    the sources: the members are those the constructor and the methods name,
    and the message has the four fields [setVelocity] fills. *)
Module PwmServo.

(** The members of [pwmServo] that the methods below touch. *)
Record pwmServo := {
  m_topic : string;
  m_lpwm : Z;
  m_rpwm : Z;
  m_min : double;
  m_max : double;
  m_velocity : double
}.

(** The object the constructor leaves; [m_velocity] belongs to a base class
    and starts as that class leaves it. *)
Definition constructed (velocity : double) : pwmServo :=
  {| m_topic := "/robot/pwm"; m_lpwm := 0; m_rpwm := 1;
     m_min := 1; m_max := 1; m_velocity := velocity |}.

(** The [Pwm] message. *)
Record Pwm := {
  channel1 : Z;
  dutyCycle1 : Z;
  channel2 : Z;
  dutyCycle2 : Z
}.

(** The conversion of a [double] to [uint8_t]: the value is cut towards
    zero; the result is undefined for a NaN, an infinity, and a value that
    does not fit. *)
Definition to_uint8 (v : double) : option Z :=
  match Prim2SF v with
  | S754_zero _ => Some 0%Z
  | S754_finite sign m e =>
      let magnitude := Z.shiftl (Z.pos m) e in
      let cut := if sign then (- magnitude)%Z else magnitude in
      if decide (0 ≤ cut ≤ 255)%Z then Some cut else None
  | _ => None
  end.

Section Methods.
(** [double(DUTY_CYCLE)], from a constant of a header that is not among the
    sources. *)
Variable DUTY_CYCLE : double.

(** [setVelocity]: the message published, the servo after it, and the
    value returned. *)
Definition setVelocity (servo : pwmServo) (velocity : double)
  : option (Pwm * pwmServo * bool) :=
  dutyCycle ← to_uint8 (abs velocity * DUTY_CYCLE);
  let msg :=
    {| (* Request RPWM *)
       channel1 := m_rpwm servo;
       dutyCycle1 := if 0 <=? velocity then dutyCycle else 0%Z;
       (* Request LPWM *)
       channel2 := m_lpwm servo;
       dutyCycle2 := if 0 <=? velocity then 0%Z else dutyCycle |} in
  Some (msg,
        {| m_topic := m_topic servo; m_lpwm := m_lpwm servo;
           m_rpwm := m_rpwm servo; m_min := m_min servo; m_max := m_max servo;
           m_velocity := velocity |},
        true).

End Methods.

(** The parameters of the controller on the parameter server, by their
    short names; [ros::param::get] leaves its argument alone when the
    parameter is missing. *)
Record Params := {
  topic : option string;
  lpwm : option Z;
  rpwm : option Z;
  minSpeed : option double;
  maxSpeed : option double
}.

(** [deserialize], as far as it sets the members above: the call for
    [rpwm] stores into [m_lpwm]. *)
Definition deserialize (servo : pwmServo) (params : Params) : pwmServo :=
  let m_topic := default (m_topic servo) (topic params) in
  let m_lpwm := default (m_lpwm servo) (lpwm params) in
  let m_lpwm := default m_lpwm (rpwm params) in
  let m_min := default (m_min servo) (minSpeed params) in
  let m_max := default (m_max servo) (maxSpeed params) in
  {| m_topic := m_topic; m_lpwm := m_lpwm; m_rpwm := m_rpwm servo;
     m_min := m_min; m_max := m_max; m_velocity := m_velocity servo |}.

End PwmServo.

(** ** More robots and devices for the examples *)

Module Bench.
Import Fixture.

(** MoveIt's default timeout of one second. *)
#[export] Instance moveit_base : KinematicsBase := {| DEFAULT_TIMEOUT := 1 |}.

(** A rail: one prismatic joint and no revolute joint. *)
Definition rail : RobotModel :=
  robot (fun _ => joint PRISMATIC 0 1 0 1 None 1 0 []) [4%nat].

(** The plain arm in a group whose chain ends at a link the group does not
    know. *)
Definition tipless : RobotModel :=
  {| getJointModelGroup := fun name =>
       if decide (name = "arm"%string)
       then Some {| chains_ := [("base"%string, "nowhere"%string)];
                    getJointModels := [0; 1; 2; 3]%nat;
                    getLinkModel := fun link =>
                      if decide (link = "effector"%string) then Some 5%nat
                      else None |}
       else None;
     jointModel := arm_joints;
     defaultState := stretched |}.

(** A target half a unit out, inside the envelope. *)
Definition inside : Vector3d := along_x 0.5.

(** The locals of the plain arm for a target. *)
Definition locals_for (target : Vector3d) : Ik.Locals :=
  default {| Ik.targetWorld := target; Ik.shoulderWorld := target;
             Ik.targetLocal := target; Ik.shoulderToEffector := target;
             Ik.wristToEffector := target |}
    (Ik.locals (plugin_of arm) [pose_at target]).

(** A target whose x coordinate is NaN. *)
Definition nowhere : Vector3d :=
  {| Eigen.x := nan; Eigen.y := 0; Eigen.z := 0 |}.

(** A callback that turns every solution down. *)
Definition veto (ik_pose : Pose) (solution : list double)
    (error_code : MoveItErrorCodes) : MoveItErrorCodes :=
  {| val := NO_IK_SOLUTION |}.

Definition vetoed (target : Vector3d) (seed : list double) : Ik.IKRequest :=
  {| Ik.ik_poses := [pose_at target];
     Ik.ik_seed_state := seed;
     Ik.timeout := 1;
     Ik.consistency_limits := [];
     Ik.solution := [];
     Ik.solution_callback := Some veto;
     Ik.error_code := {| val := 0 |} |}.

(** The recorder answers link transforms from the stretched pose. *)
#[export] Instance recorder_queries
  : @InverseKinematicsPlugin.KinematicQueries recorder :=
  {| InverseKinematicsPlugin.setToDefaultValues := fun _ => fresh;
     InverseKinematicsPlugin.getGlobalLinkTransform := fun _ link =>
       getGlobalLinkTransform stretched link |}.

(** A solver that answers the same column for every goal: NaN for the
    base, 5 for the shoulder, 0.25 for the elbow, -9 for the wrist. *)
#[export] Instance stub_solver : InverseKinematicsPlugin.Solver :=
  {| InverseKinematicsPlugin.MatrixXd := InverseKinematicsPlugin.Row -> double;
     InverseKinematicsPlugin.coeff := fun angles row => angles row;
     InverseKinematicsPlugin.inverseKinematics := fun _ row =>
       match row with
       | InverseKinematicsPlugin.BASE => nan
       | InverseKinematicsPlugin.SHOULDER => 5
       | InverseKinematicsPlugin.ELBOW => 0.25
       | InverseKinematicsPlugin.WRIST => -9
       end;
     InverseKinematicsPlugin.inverseKinematicsPose := fun _ _ => 0 |}.

(** [initialize] of [inverseKinematicsPlugin.cpp] on a fixture robot, with
    no settings on the parameter server. *)
Definition solver_plugin (rm : RobotModel)
  : option (InverseKinematicsPlugin.IKPlugin * list (JointPtr * double)) :=
  InverseKinematicsPlugin.initialize rm "arm" "base" ["effector"%string] 0
    None None.

(** What it builds for the plain arm and for the rail. *)
Definition solver_arm : InverseKinematicsPlugin.IKPlugin :=
  {| InverseKinematicsPlugin.robot_model_ := arm;
     InverseKinematicsPlugin.tip_frames_ := ["effector"%string];
     InverseKinematicsPlugin.m_joints := [0; 1; 2; 3]%nat;
     InverseKinematicsPlugin.m_pBaseJoint := Some 0%nat;
     InverseKinematicsPlugin.m_pShoulderJoint := Some 1%nat;
     InverseKinematicsPlugin.m_pElbowJoint := Some 2%nat;
     InverseKinematicsPlugin.m_pWristJoint := Some 3%nat;
     InverseKinematicsPlugin.m_positionOnly := true;
     InverseKinematicsPlugin.m_debug := false |}.

Definition solver_rail : InverseKinematicsPlugin.IKPlugin :=
  {| InverseKinematicsPlugin.robot_model_ := rail;
     InverseKinematicsPlugin.tip_frames_ := ["effector"%string];
     InverseKinematicsPlugin.m_joints := [4%nat];
     InverseKinematicsPlugin.m_pBaseJoint := None;
     InverseKinematicsPlugin.m_pShoulderJoint := None;
     InverseKinematicsPlugin.m_pElbowJoint := None;
     InverseKinematicsPlugin.m_pWristJoint := None;
     InverseKinematicsPlugin.m_positionOnly := true;
     InverseKinematicsPlugin.m_debug := false |}.

(** The plain arm with a fifth joint, a gripper, behind the wrist. *)
Definition gripper : RobotModel := robot arm_joints [0; 1; 2; 3; 4]%nat.

Definition solver_gripper : InverseKinematicsPlugin.IKPlugin :=
  {| InverseKinematicsPlugin.robot_model_ := gripper;
     InverseKinematicsPlugin.tip_frames_ := ["effector"%string];
     InverseKinematicsPlugin.m_joints := [0; 1; 2; 3; 4]%nat;
     InverseKinematicsPlugin.m_pBaseJoint := Some 0%nat;
     InverseKinematicsPlugin.m_pShoulderJoint := Some 1%nat;
     InverseKinematicsPlugin.m_pElbowJoint := Some 2%nat;
     InverseKinematicsPlugin.m_pWristJoint := Some 3%nat;
     InverseKinematicsPlugin.m_positionOnly := true;
     InverseKinematicsPlugin.m_debug := false |}.

(** A request whose solution vector comes in with six entries. *)
Definition long_request (seed : list double) : Ik.IKRequest :=
  {| Ik.ik_poses := [pose_at far];
     Ik.ik_seed_state := seed;
     Ik.timeout := 1;
     Ik.consistency_limits := [];
     Ik.solution := [7; 7; 7; 7; 7; 7];
     Ik.solution_callback := None;
     Ik.error_code := {| val := 0 |} |}.

(** Controllers of a piston and of a wheel. *)
Definition device (path : string) (type : Hardware.ControllerType)
    (parent : string) (healthy : bool) : Hardware.controller :=
  {| Hardware.Controller.getPath := path;
     Hardware.Controller.getType := type;
     Hardware.Controller.getParentName := parent;
     Hardware.Controller.configure := healthy;
     Hardware.Controller.init := healthy |}.

Definition pump : Hardware.controller :=
  device "/robot/piston/pump" Hardware.motor "piston" true.
Definition valve : Hardware.controller :=
  device "/robot/piston/valve" Hardware.solenoid "piston" true.
Definition fan : Hardware.controller :=
  device "/robot/piston/fan" Hardware.motor "piston" true.
Definition gauge : Hardware.controller :=
  device "/robot/wheel/gauge" Hardware.encoder "wheel" true.
Definition broken : Hardware.controller :=
  device "/robot/wheel/drive" Hardware.motor "wheel" false.

(** A description that knows the piston only. *)
Definition description (jointName : string) : option Hardware.JointLimits :=
  if decide (jointName = "piston"%string)
  then Some {| Hardware.min_position := 0; Hardware.max_position := 0.125;
               Hardware.max_velocity := 2;
               Hardware.has_velocity_limits := true |}
  else None.

(** The hardware with pump, valve and fan on the piston, the piston being
    commanded half speed. *)
Definition plant : Hardware.hardware :=
  {| Hardware.m_controllers := [pump; valve; fan];
     Hardware.m_groups := {[ "piston"%string := [pump; valve; fan] ]};
     Hardware.m_limits := fun _ => Hardware.noLimits;
     Hardware.m_pos := fun _ => 3;
     Hardware.m_vel := fun _ => 3;
     Hardware.m_effort := fun _ => 3;
     Hardware.m_cmd := fun _ => 0.5 |}.

(** The same hardware after a description gave every joint a velocity
    limit. *)
Definition limited_plant : Hardware.hardware :=
  {| Hardware.m_controllers := [pump; valve; fan];
     Hardware.m_groups := {[ "piston"%string := [pump; valve; fan] ]};
     Hardware.m_limits := fun _ =>
       {| Hardware.min_position := 0; Hardware.max_position := 0.125;
          Hardware.max_velocity := 2; Hardware.has_velocity_limits := true |};
     Hardware.m_pos := fun _ => 3;
     Hardware.m_vel := fun _ => 3;
     Hardware.m_effort := fun _ => 3;
     Hardware.m_cmd := fun _ => 0.5 |}.

(** Parameter names of a robot with two arms. *)
Definition text (s : string) : list ascii := list_ascii_of_string s.

Definition arm_params : list (list ascii) :=
  [text "/robot/arms/arm10/shoulder"; text "/robot/arms/arm10/elbow";
   text "/robot/rate"; text "/robot/arms/arm2/shoulder"].

(** The array [armPath] after the arm of [/robot/arms/arm10/...] has
    gone through it. *)
Definition used_armPath : list ascii :=
  text "/robot/arms/arm10" ++ replicate 238 Robot.NUL.

(** A servo as constructed, at rest. *)
Definition servo : PwmServo.pwmServo := PwmServo.constructed 0.

(** The parameters of a servo wired to the channels 4 and 5. *)
Definition wiring : PwmServo.Params :=
  {| PwmServo.topic := None; PwmServo.lpwm := Some 4%Z;
     PwmServo.rpwm := Some 5%Z; PwmServo.minSpeed := None;
     PwmServo.maxSpeed := None |}.

(** Thresholds for the earlier solver: half a unit either way. *)
#[export] Instance thresholds : IkLegacy.Header :=
  {| IkLegacy.MIN_TARGET_HEIGHT := -0.5; IkLegacy.MAX_TARGET_HEIGHT := 0.5;
     IkLegacy.MIN_TARGET_OFFSET := -0.5; IkLegacy.MAX_TARGET_OFFSET := 0.5 |}.

(** Rigid transforms cut down to their translations, every rotation being
    the identity; an [asin] that knows no value; and the joints behind a
    joint read off the link it moves, in the row of links of the fixture
    robots. *)
#[export] Instance translations : IkLegacy.Outside :=
  {| IkLegacy.asin := fun _ => nan;
     IkLegacy.Transform := Vector3d;
     IkLegacy.ofAngleAxis := fun _ => along_x 0;
     IkLegacy.product := fun a b =>
       {| Eigen.x := Eigen.x a + Eigen.x b; Eigen.y := Eigen.y a + Eigen.y b;
          Eigen.z := Eigen.z a + Eigen.z b |};
     IkLegacy.inverse := fun a =>
       {| Eigen.x := - Eigen.x a; Eigen.y := - Eigen.y a;
          Eigen.z := - Eigen.z a |};
     IkLegacy.apply := fun a v =>
       {| Eigen.x := Eigen.x v + Eigen.x a; Eigen.y := Eigen.y v + Eigen.y a;
          Eigen.z := Eigen.z v + Eigen.z a |};
     IkLegacy.linkTransform := fun state link =>
       Eigen.translation (getGlobalLinkTransform state link);
     IkLegacy.getDescendantJointModels := fun joint =>
       match getChildLinkModel joint with
       | 1%nat => [1; 2; 3]%nat
       | 2%nat => [2; 3]%nat
       | 3%nat => [3%nat]
       | _ => []
       end |}.

(** What [initialize] of [src/ik.cpp] builds for a fixture robot; the empty
    plugin stands for a refusal. *)
Definition legacy_of (rm : RobotModel) : IkLegacy.IKPlugin :=
  default {| IkLegacy.robot_model_ := rm;
             IkLegacy.m_pPlanningGroup :=
               {| chains_ := []; getJointModels := [];
                  getLinkModel := fun _ => None |};
             IkLegacy.tip_frames_ := [];
             IkLegacy.m_joints := [];
             IkLegacy.m_pState := defaultState rm |}
    (IkLegacy.initialize rm "arm" "base" ["effector"%string] 0).

(** The stump: mount, shoulder and an elbow that moves the last link. *)
Definition stump_joints (j : JointPtr) : JointModel :=
  match j with
  | 2%nat => free 2 7 (-0.5) 0.5
  | _ => arm_joints j
  end.

Definition stump : RobotModel := robot stump_joints [0; 1; 2]%nat.

(** A target below and to the right of the arm. *)
Definition low_right : Vector3d :=
  {| Eigen.x := 1; Eigen.y := -1; Eigen.z := -1 |}.

(** The locals of the earlier solver for the plain arm and that target. *)
Definition legacy_locals : IkLegacy.Locals :=
  default {| IkLegacy.pMountJoint := 0%nat; IkLegacy.pShoulderJoint := 0%nat;
             IkLegacy.pElbowJoint := 0%nat;
             IkLegacy.targetReference := {| Eigen.translation := low_right |};
             IkLegacy.shoulderReference := {| Eigen.translation := low_right |};
             IkLegacy.upperArm := low_right; IkLegacy.forearm := low_right;
             IkLegacy.shoulderToEffector := low_right;
             IkLegacy.elbowToEffector := low_right |}
    (IkLegacy.locals (legacy_of arm) [pose_at low_right]).

End Bench.

(** ** IEEE binary64: order and NaN, through the [SpecFloat] specification *)

Module DoubleFacts.

Lemma SFcompare_antisym x y :
  SFcompare y x = option_map CompOpp (SFcompare x y).
Proof.
  destruct x as [sx|sx| |sx mx ex], y as [sy|sy| |sy my ey]; simpl;
    try reflexivity; try (destruct sx; reflexivity); try (destruct sy; reflexivity);
    try (destruct sx, sy; reflexivity).
  destruct sx, sy; simpl; try reflexivity;
    rewrite (Z.compare_antisym ex ey);
    change (Pos.compare_cont Eq my mx) with (Pos.compare my mx);
    change (Pos.compare_cont Eq mx my) with (Pos.compare mx my);
    rewrite (Pos.compare_antisym mx my);
    destruct (ex ?= ey)%Z; simpl; try reflexivity;
    destruct (mx ?= my)%positive; reflexivity.
Qed.

Lemma SFcompare_lt_le_trans x y z :
  SFcompare x y = Some Lt ->
  (SFcompare y z = Some Lt \/ SFcompare y z = Some Eq) ->
  SFcompare x z = Some Lt.
Proof.
  destruct x as [sx|sx| |sx mx ex], y as [sy|sy| |sy my ey], z as [sz|sz| |sz mz ez];
    simpl; intros Hxy [Hyz|Hyz]; try discriminate;
    repeat match goal with b : bool |- _ => destruct b end; simpl in *;
    try discriminate; try reflexivity;
    change (Pos.compare_cont Eq) with Pos.compare in *;
    repeat match goal with
    | H : context [(?a ?= ?b)%Z] |- _ => destruct (Z.compare_spec a b); simpl in H
    | H : context [(?a ?= ?b)%positive] |- _ => destruct (Pos.compare_spec a b); simpl in H
    end; try discriminate; subst;
    repeat match goal with
    | |- context [(?a ?= ?b)%Z] => destruct (Z.compare_spec a b)
    | |- context [(?a ?= ?b)%positive] => destruct (Pos.compare_spec a b)
    end; simpl; try reflexivity; try lia.
Qed.

Lemma SFcompare_refl x : x <> S754_nan -> SFcompare x x = Some Eq.
Proof.
  destruct x as [s|s| |s m e]; simpl; intros Hx; try congruence.
  - destruct s; reflexivity.
  - rewrite Z.compare_refl.
    change (Pos.compare_cont Eq m m) with (Pos.compare m m).
    rewrite Pos.compare_refl. destruct s; reflexivity.
Qed.

Lemma SFcompare_None x y :
  SFcompare x y = None <-> x = S754_nan \/ y = S754_nan.
Proof.
  destruct x as [sx|sx| |sx mx ex], y as [sy|sy| |sy my ey]; simpl;
    split; intros H; try discriminate; auto;
    destruct H as [H|H]; discriminate.
Qed.

(** [isnan] reads the specification's NaN. *)
Lemma isnan_spec x : isnan x = true <-> Prim2SF x = S754_nan.
Proof.
  unfold isnan, is_nan. rewrite FloatAxioms.eqb_spec. unfold SFeqb. split.
  - intros H. destruct (Prim2SF x) as [s|s| |s m e] eqn:E; auto;
      rewrite SFcompare_refl in H by congruence; discriminate.
  - intros ->. reflexivity.
Qed.

Lemma isnan_false_spec x : isnan x = false <-> Prim2SF x <> S754_nan.
Proof.
  rewrite <- isnan_spec. destruct (isnan x); split; congruence.
Qed.

Lemma ltb_not_nan x y : (x <? y) = true -> isnan x = false /\ isnan y = false.
Proof.
  rewrite ltb_spec, !isnan_false_spec. unfold SFltb.
  destruct (SFcompare _ _) eqn:E; [|discriminate]. intros _.
  split; intros Hn; assert (SFcompare (Prim2SF x) (Prim2SF y) = None)
    by (apply SFcompare_None; auto); congruence.
Qed.

Lemma leb_not_nan x y : (x <=? y) = true -> isnan x = false /\ isnan y = false.
Proof.
  rewrite leb_spec, !isnan_false_spec. unfold SFleb.
  destruct (SFcompare _ _) eqn:E; [|discriminate]. intros _.
  split; intros Hn; assert (SFcompare (Prim2SF x) (Prim2SF y) = None)
    by (apply SFcompare_None; auto); congruence.
Qed.

Lemma leb_refl x : isnan x = false -> (x <=? x) = true.
Proof.
  rewrite isnan_false_spec, leb_spec. unfold SFleb. intros H.
  now rewrite SFcompare_refl.
Qed.

(** On numbers the order is total: what is not below is at least. *)
Lemma ltb_false_leb x y :
  isnan x = false -> isnan y = false -> (x <? y) = false -> (y <=? x) = true.
Proof.
  rewrite !isnan_false_spec, ltb_spec, leb_spec. unfold SFltb, SFleb.
  intros Hx Hy. rewrite (SFcompare_antisym (Prim2SF x) (Prim2SF y)).
  destruct (SFcompare (Prim2SF x) (Prim2SF y)) as [[| |]|] eqn:E; simpl; try easy.
  apply SFcompare_None in E. tauto.
Qed.

Lemma leb_ltb_false x y : (x <=? y) = true -> (y <? x) = false.
Proof.
  rewrite ltb_spec, leb_spec. unfold SFltb, SFleb.
  rewrite (SFcompare_antisym (Prim2SF x) (Prim2SF y)).
  destruct (SFcompare (Prim2SF x) (Prim2SF y)) as [[| |]|]; simpl; easy.
Qed.

Lemma ltb_leb_trans x y z :
  (x <? y) = true -> (y <=? z) = true -> (x <? z) = true.
Proof.
  rewrite !ltb_spec, leb_spec. unfold SFltb, SFleb. intros Hxy Hyz.
  rewrite (SFcompare_lt_le_trans (Prim2SF x) (Prim2SF y) (Prim2SF z)); auto.
  - destruct (SFcompare (Prim2SF x) (Prim2SF y)) as [[| |]|]; easy.
  - destruct (SFcompare (Prim2SF y) (Prim2SF z)) as [[| |]|]; auto; easy.
Qed.

Lemma ltb_asym x y : (x <? y) = true -> (y <? x) = false.
Proof.
  rewrite !ltb_spec. unfold SFltb.
  rewrite (SFcompare_antisym (Prim2SF x) (Prim2SF y)).
  destruct (SFcompare (Prim2SF x) (Prim2SF y)) as [[| |]|]; simpl; easy.
Qed.

(** NaN is absorbing for the arithmetic the solver uses. *)
Lemma sub_nan_l x y : isnan x = true -> isnan (x - y) = true.
Proof.
  rewrite !isnan_spec, sub_spec. intros ->. reflexivity.
Qed.

(** IEEE multiplication commutes, bit for bit. *)
Lemma mul_comm x y : x * y = y * x.
Proof.
  apply Prim2SF_inj. rewrite !mul_spec. unfold SF64mul, SFmul.
  destruct (Prim2SF x) as [sx|sx| |sx mx ex], (Prim2SF y) as [sy|sy| |sy my ey];
    try reflexivity; rewrite ?(xorb_comm sx sy); try reflexivity.
  now rewrite (Pos.mul_comm mx my), (Z.add_comm ex ey).
Qed.

(** *** [std::clamp] *)

Lemma clamp_nan v lo hi : isnan v = true -> clamp v lo hi = v.
Proof.
  intros Hv. unfold clamp.
  destruct (v <? lo) eqn:E1.
  - apply ltb_not_nan in E1. destruct E1; congruence.
  - destruct (hi <? v) eqn:E2; [|reflexivity].
    apply ltb_not_nan in E2. destruct E2; congruence.
Qed.

Lemma clamp_within v lo hi :
  (lo <=? hi) = true -> isnan v = false -> within lo hi (clamp v lo hi) = true.
Proof.
  intros Hlh Hv. destruct (leb_not_nan _ _ Hlh) as [Hlo Hhi].
  unfold clamp, within.
  destruct (v <? lo) eqn:E1.
  - now rewrite leb_refl, Hlh.
  - destruct (hi <? v) eqn:E2.
    + now rewrite Hlh, leb_refl.
    + now rewrite !ltb_false_leb.
Qed.

(** With the limits in order, each limit lies within them. *)
Lemma within_upper lo hi : (lo <=? hi) = true -> within lo hi hi = true.
Proof.
  intros Hle. unfold within. rewrite Hle. simpl.
  apply leb_refl. now apply leb_not_nan in Hle.
Qed.

Lemma within_lower lo hi : (lo <=? hi) = true -> within lo hi lo = true.
Proof.
  intros Hle. unfold within. rewrite Hle, andb_true_r.
  apply leb_refl. now apply leb_not_nan in Hle.
Qed.

End DoubleFacts.

(** ** Facts about [indexOf] and [store] *)

Section VectorFacts.
Implicit Types (joints : list JointPtr) (states : list double).

Lemma indexOf_le j joints : indexOf j joints ≤ length joints.
Proof. induction joints as [|q rest IH]; simpl; [lia|]. case_decide; lia. Qed.

Lemma indexOf_lt j joints : j ∈ joints → indexOf j joints < length joints.
Proof.
  induction joints as [|q rest IH]; simpl; intros Hin.
  - by apply elem_of_nil in Hin.
  - case_decide; [lia|].
    apply elem_of_cons in Hin as [->|Hin]; [done|]. specialize (IH Hin). lia.
Qed.

Lemma indexOf_notin j joints : j ∉ joints → indexOf j joints = length joints.
Proof.
  induction joints as [|q rest IH]; simpl; intros Hin; [done|].
  apply not_elem_of_cons in Hin as [Hne Hin].
  case_decide; [congruence|]. by rewrite IH.
Qed.

Lemma indexOf_found j joints :
  indexOf j joints ≠ length joints → j ∈ joints.
Proof.
  intros Hne. destruct (decide (j ∈ joints)) as [|Hn]; [done|].
  by apply indexOf_notin in Hn.
Qed.

Lemma lookup_indexOf j joints :
  j ∈ joints → joints !! indexOf j joints = Some j.
Proof.
  induction joints as [|q rest IH]; simpl; intros Hin.
  - by apply elem_of_nil in Hin.
  - case_decide; [by subst|].
    apply elem_of_cons in Hin as [->|Hin]; [done|]. by apply IH.
Qed.

(** Distinct joints of the list sit at distinct positions. *)
Lemma indexOf_inj j k joints :
  j ∈ joints → indexOf j joints = indexOf k joints → j = k.
Proof.
  intros Hj Heq. pose proof (lookup_indexOf j joints Hj) as Hl.
  assert (k ∈ joints) as Hk.
  { apply indexOf_found. rewrite <- Heq. pose proof (indexOf_lt j joints Hj). lia. }
  pose proof (lookup_indexOf k joints Hk) as Hl'. congruence.
Qed.

Lemma store_Some states i v :
  i < length states → store states i v = Some (<[i := v]> states).
Proof. intros Hi. unfold store. by case_decide. Qed.

Lemma store_inv states i v states' :
  store states i v = Some states' →
  i < length states ∧ states' = <[i := v]> states.
Proof. unfold store. case_decide; naive_solver. Qed.

Lemma store_length states i v states' :
  store states i v = Some states' → length states' = length states.
Proof. intros [_ ->]%store_inv. by rewrite length_insert. Qed.

Lemma store_lookup_eq states i v states' :
  store states i v = Some states' → states' !! i = Some v.
Proof. intros [Hi ->]%store_inv. by apply list_lookup_insert_eq. Qed.

Lemma store_lookup_ne states i v states' k :
  store states i v = Some states' → i ≠ k → states' !! k = states !! k.
Proof. intros [Hi ->]%store_inv Hne. by apply list_lookup_insert_ne. Qed.

End VectorFacts.

(** ** The setters: totality, written values, frame *)

Module IkFacts.
Import Ik Notions DoubleFacts.

Section Setters.
Context {libm : Libm} {moveit : MoveIt}.
Variable rm : RobotModel.
Variable joints : list JointPtr.
Implicit Types (states : list double) (j s : JointPtr).

Lemma updateOtherMimics_total j ms reqs states :
  length states = length joints →
  ∃ states', updateOtherMimics rm joints j ms reqs states = Some states'
             ∧ length states' = length joints.
Proof.
  revert states. induction reqs as [|r reqs IH]; intros states Hlen; simpl.
  - eauto.
  - case_decide; [by apply IH|]. case_decide; [by apply IH|].
    pose proof (indexOf_le r joints).
    rewrite store_Some by lia. simpl. apply IH. by rewrite length_insert.
Qed.

Lemma updateOtherMimics_frame j ms reqs states states' i :
  updateOtherMimics rm joints j ms reqs states = Some states' →
  (∀ s, s ∈ reqs → s ≠ j → indexOf s joints ≠ i) →
  states' !! i = states !! i.
Proof.
  revert states. induction reqs as [|r reqs IH]; intros states; simpl.
  - by intros [= ->].
  - intros Hrun Hfr.
    assert (∀ s, s ∈ reqs → s ≠ j → indexOf s joints ≠ i) as Hfr'
      by (intros s Hs; apply Hfr; by right).
    case_decide; [by apply IH|]. case_decide; [by apply IH|].
    destruct (store _ _ _) as [st|] eqn:Est; simpl in Hrun; [|done].
    rewrite (IH _ Hrun Hfr'). eapply store_lookup_ne; [done|].
    apply Hfr; [by left|done].
Qed.

(** Every other mimic of the master that the plugin lists ends at the
    clamped affine image of the master state. *)
Lemma updateOtherMimics_value j ms reqs states states' s :
  updateOtherMimics rm joints j ms reqs states = Some states' →
  s ∈ reqs → s ≠ j → s ∈ joints →
  states' !! indexOf s joints = Some (mimicStateOf rm s ms).
Proof.
  revert states. induction reqs as [|r reqs IH]; intros states; simpl.
  - intros _ Hs. by apply elem_of_nil in Hs.
  - intros Hrun Hs Hne Hin.
    destruct (decide (s ∈ reqs)) as [Hrest|Hrest].
    { case_decide; [by eapply IH|]. case_decide; [by eapply IH|].
      destruct (store _ _ _) as [st|] eqn:Est; simpl in Hrun; [|done].
      by eapply IH. }
    apply elem_of_cons in Hs as [->|Hs]; [|done].
    case_decide; [done|].
    case_decide as Hend; [pose proof (indexOf_lt _ _ Hin); lia|].
    destruct (store _ _ _) as [st|] eqn:Est; simpl in Hrun; [|done].
    rewrite (updateOtherMimics_frame _ _ _ _ _ _ Hrun).
    + by eapply store_lookup_eq.
    + intros s' Hs' _ Heq. symmetry in Heq.
      apply indexOf_inj in Heq; [|done]. by subst.
Qed.

Lemma setJointState_nan j a states :
  isnan a = true → setJointState rm joints j a states = Some states.
Proof. intros Ha. unfold setJointState. by rewrite Ha. Qed.

Lemma setJointMaxState_inv j states states' :
  setJointMaxState rm joints j states = Some states' →
  states' = <[indexOf j joints :=
               max_position (getVariableBoundsMsg (jointModel rm j))]> states
  ∧ indexOf j joints < length states.
Proof. unfold setJointMaxState. intros [? ->]%store_inv. done. Qed.

Lemma setJointMinState_inv j states states' :
  setJointMinState rm joints j states = Some states' →
  states' = <[indexOf j joints :=
               min_position (getVariableBoundsMsg (jointModel rm j))]> states
  ∧ indexOf j joints < length states.
Proof. unfold setJointMinState. intros [? ->]%store_inv. done. Qed.

Lemma setJointMaxState_total j states :
  j ∈ joints → length states = length joints →
  setJointMaxState rm joints j states
  = Some (<[indexOf j joints :=
             max_position (getVariableBoundsMsg (jointModel rm j))]> states).
Proof.
  intros Hj Hlen. unfold setJointMaxState. apply store_Some.
  pose proof (indexOf_lt _ _ Hj). lia.
Qed.

Lemma setJointMinState_total j states :
  j ∈ joints → length states = length joints →
  setJointMinState rm joints j states
  = Some (<[indexOf j joints :=
             min_position (getVariableBoundsMsg (jointModel rm j))]> states).
Proof.
  intros Hj Hlen. unfold setJointMinState. apply store_Some.
  pose proof (indexOf_lt _ _ Hj). lia.
Qed.

Lemma getJointAxis_supported j :
  supported rm j → getJointAxis (jointModel rm j) = Some (getAxis (jointModel rm j)).
Proof. unfold supported, getJointAxis. intros [->| ->]; done. Qed.

(** [setJointState] returns when the joint and its master, if it has
    one, are listed joints and the vector has one slot per joint. *)
Lemma setJointState_total j a states :
  j ∈ joints → supported rm j →
  (∀ m, getMimic (jointModel rm j) = Some m → m ∈ joints) →
  length states = length joints →
  ∃ states', setJointState rm joints j a states = Some states'
             ∧ length states' = length joints.
Proof.
  intros Hj Hsup Hm Hlen. unfold setJointState.
  destruct (isnan a); [eauto|].
  rewrite (getJointAxis_supported j Hsup). simpl.
  pose proof (indexOf_lt _ _ Hj).
  rewrite store_Some by lia. simpl.
  destruct (getMimic (jointModel rm j)) as [m|] eqn:Emim.
  - pose proof (indexOf_lt _ _ (Hm m eq_refl)).
    rewrite store_Some by (rewrite length_insert; lia). simpl.
    apply updateOtherMimics_total. by rewrite !length_insert.
  - eexists; split; [done|]. by rewrite length_insert.
Qed.

(** On a joint that is no mimic, [setJointState] with a numeric angle is
    one write: the joint's slot takes the clamped joint state. *)
Lemma setJointState_free j a states :
  isnan a = false → j ∈ joints → supported rm j →
  getMimic (jointModel rm j) = None → length states = length joints →
  setJointState rm joints j a states
  = Some (<[indexOf j joints :=
             clamp (jointStateOf rm j a)
               (min_position (getVariableBoundsMsg (jointModel rm j)))
               (max_position (getVariableBoundsMsg (jointModel rm j)))]> states).
Proof.
  intros Ha Hj Hsup Hfree Hlen. unfold setJointState.
  rewrite Ha, (getJointAxis_supported j Hsup). simpl.
  pose proof (indexOf_lt _ _ Hj).
  rewrite store_Some by lia. simpl. by rewrite Hfree.
Qed.

(** [std::clamp] hands a NaN through: should MoveIt answer NaN for an
    angle that is a number, NaN is what the joint's slot receives. *)
Lemma setJointState_stores_nan j a states states' :
  isnan a = false → isnan (jointStateOf rm j a) = true →
  getMimic (jointModel rm j) = None →
  setJointState rm joints j a states = Some states' →
  ∃ v, states' !! indexOf j joints = Some v ∧ isnan v = true.
Proof.
  intros Ha Hnan Hfree. unfold setJointState. rewrite Ha.
  unfold getJointAxis.
  destruct (getType (jointModel rm j)); simpl; try done;
    (destruct (store _ _ _) as [s1|] eqn:E1; simpl; [|done];
     rewrite Hfree; intros [= <-];
     eexists; split; [by eapply store_lookup_eq|];
     by rewrite clamp_nan).
Qed.

(** Frame: a slot that belongs neither to the joint nor to its mimic
    family is left as it was. *)
Lemma setJointState_frame j a states states' i :
  setJointState rm joints j a states = Some states' →
  indexOf j joints ≠ i →
  (∀ w, w ∈ mimicFamily rm j → indexOf w joints ≠ i) →
  states' !! i = states !! i.
Proof.
  unfold setJointState, mimicFamily. destruct (isnan a); [by intros [= ->]|].
  destruct (getJointAxis _) as [ax|]; simpl; [|done].
  destruct (store _ _ _) as [s1|] eqn:E1; simpl; [|done].
  destruct (getMimic _) as [m|].
  - destruct (store s1 _ _) as [s2|] eqn:E2; simpl; [|done].
    intros Hrun Hj Hfam.
    rewrite (updateOtherMimics_frame _ _ _ _ _ _ Hrun).
    + rewrite (store_lookup_ne _ _ _ _ _ E2) by (apply Hfam; by left).
      by rewrite (store_lookup_ne _ _ _ _ _ E1).
    + intros s Hs _. apply Hfam. by right.
  - intros [= <-] Hj _. by rewrite (store_lookup_ne _ _ _ _ _ E1).
Qed.

(** [setJointState] on a mimic joint: it returns, the master slot takes the
    raw inverse image, every other listed mimic of the master takes the
    clamped affine image of the clamped master state, and the joint's own
    slot keeps its clamped state. *)
Lemma setJointState_mimic j m a states :
  j ∈ joints → supported rm j →
  getMimic (jointModel rm j) = Some m → m ∈ joints →
  length states = length joints → isnan a = false →
  ∃ states',
    setJointState rm joints j a states = Some states'
    ∧ (m ∉ getMimicRequests (jointModel rm m) →
       states' !! indexOf m joints = Some (masterStateRawOf rm j a))
    ∧ (∀ s, s ∈ getMimicRequests (jointModel rm m) → s ≠ j → s ∈ joints →
            states' !! indexOf s joints
            = Some (mimicStateOf rm s (masterStateOf rm j m a)))
    ∧ (j ≠ m →
       states' !! indexOf j joints
       = Some (clamp (jointStateOf rm j a)
                 (min_position (getVariableBoundsMsg (jointModel rm j)))
                 (max_position (getVariableBoundsMsg (jointModel rm j))))).
Proof.
  intros Hj Hsup Hmim Hm Hlen Ha. unfold setJointState.
  rewrite Ha, (getJointAxis_supported j Hsup). simpl.
  pose proof (indexOf_lt _ _ Hj) as Hij. pose proof (indexOf_lt _ _ Hm) as Him.
  rewrite store_Some by lia. simpl. rewrite Hmim.
  rewrite store_Some by (rewrite length_insert; lia). simpl.
  match goal with |- context [updateOtherMimics _ _ j ?ms ?reqs ?st] =>
    destruct (updateOtherMimics_total j ms reqs st) as (states' & Hrun & Hlen');
      [by rewrite !length_insert|] end.
  exists states'. split; [exact Hrun|]. split; [|split].
  - intros Hself. rewrite (updateOtherMimics_frame _ _ _ _ _ _ Hrun).
    + apply list_lookup_insert_eq. rewrite length_insert. lia.
    + intros s Hs _ Heq. symmetry in Heq.
      apply indexOf_inj in Heq; [|done]. by subst.
  - intros s Hs Hne Hin. by eapply updateOtherMimics_value.
  - intros Hne. rewrite (updateOtherMimics_frame _ _ _ _ _ _ Hrun).
    + rewrite list_lookup_insert_ne.
      * apply list_lookup_insert_eq. lia.
      * intros Heq. apply indexOf_inj in Heq; [|done]. by subst.
    + intros s Hs Hsj Heq. symmetry in Heq.
      apply indexOf_inj in Heq; [|done]. by subst.
Qed.

(** The affine image, written with the factor first. *)
Lemma mimicStateOf_factor_first s (ms : double) :
  mimicStateOf rm s ms
  = clamp (getMimicFactor (jointModel rm s) * ms + getMimicOffset (jointModel rm s))
      (min_position (getVariableBoundsMsg (jointModel rm s)))
      (max_position (getVariableBoundsMsg (jointModel rm s))).
Proof. unfold mimicStateOf. by rewrite (mul_comm ms). Qed.

End Setters.
End IkFacts.

(** ** [setJointState] of [inverseKinematicsPlugin.cpp] and of the earlier
    [ik.cpp] *)

Module VariantFacts.
Import Notions DoubleFacts IkFacts.

Section PluginSetter.
Context {kin : InverseKinematicsPlugin.KinematicState}.
Variable rm : RobotModel.
Variable joints : list JointPtr.
Implicit Types (states : list double) (j s : JointPtr).
Implicit Types kstate : InverseKinematicsPlugin.RobotStateObj.

Lemma ikp_updateMimics_total j ms reqs states kstate :
  length states = length joints →
  ∃ states' kstate',
    InverseKinematicsPlugin.updateMimics rm joints j ms reqs states kstate
    = Some (states', kstate')
    ∧ length states' = length joints.
Proof.
  revert states kstate.
  induction reqs as [|r reqs IH]; intros states kstate Hlen; simpl.
  - eauto.
  - case_decide; [by apply IH|]. case_decide; [by apply IH|].
    pose proof (indexOf_le r joints).
    rewrite store_Some by lia. simpl. apply IH. by rewrite length_insert.
Qed.

Lemma ikp_updateMimics_frame j ms reqs states kstate states' kstate' i :
  InverseKinematicsPlugin.updateMimics rm joints j ms reqs states kstate
  = Some (states', kstate') →
  (∀ s, s ∈ reqs → s ≠ j → indexOf s joints ≠ i) →
  states' !! i = states !! i.
Proof.
  revert states kstate.
  induction reqs as [|r reqs IH]; intros states kstate; simpl.
  - by intros [= -> _].
  - intros Hrun Hfr.
    assert (∀ s, s ∈ reqs → s ≠ j → indexOf s joints ≠ i) as Hfr'
      by (intros s Hs; apply Hfr; by right).
    case_decide; [by eapply IH|]. case_decide; [by eapply IH|].
    destruct (store _ _ _) as [st|] eqn:Est; simpl in Hrun; [|done].
    rewrite (IH _ _ Hrun Hfr'). eapply store_lookup_ne; [done|].
    apply Hfr; [by left|done].
Qed.

Lemma ikp_updateMimics_value j ms reqs states kstate states' kstate' s :
  InverseKinematicsPlugin.updateMimics rm joints j ms reqs states kstate
  = Some (states', kstate') →
  s ∈ reqs → s ≠ j → s ∈ joints →
  states' !! indexOf s joints = Some (mimicStateOf rm s ms).
Proof.
  revert states kstate.
  induction reqs as [|r reqs IH]; intros states kstate; simpl.
  - intros _ Hs. by apply elem_of_nil in Hs.
  - intros Hrun Hs Hne Hin.
    destruct (decide (s ∈ reqs)) as [Hrest|Hrest].
    { case_decide; [by eapply IH|]. case_decide; [by eapply IH|].
      destruct (store _ _ _) as [st|] eqn:Est; simpl in Hrun; [|done].
      by eapply IH. }
    apply elem_of_cons in Hs as [->|Hs]; [|done].
    case_decide; [done|].
    case_decide as Hend; [pose proof (indexOf_lt _ _ Hin); lia|].
    destruct (store _ _ _) as [st|] eqn:Est; simpl in Hrun; [|done].
    rewrite (ikp_updateMimics_frame _ _ _ _ _ _ _ _ Hrun).
    + by eapply store_lookup_eq.
    + intros s' Hs' _ Heq. symmetry in Heq.
      apply indexOf_inj in Heq; [|done]. by subst.
Qed.

Lemma ikp_setJointState_mimic j m a states kstate :
  j ∈ joints → supported rm j →
  getMimic (jointModel rm j) = Some m → m ∈ joints →
  length states = length joints →
  ∃ states' kstate',
    InverseKinematicsPlugin.setJointState rm joints j a states kstate
    = Some (states', kstate')
    ∧ (m ∉ getMimicRequests (jointModel rm m) →
       states' !! indexOf m joints = Some (ikpMasterStateOf rm j m a))
    ∧ (∀ s, s ∈ getMimicRequests (jointModel rm m) → s ≠ j → s ∈ joints →
            states' !! indexOf s joints
            = Some (mimicStateOf rm s (ikpMasterStateOf rm j m a)))
    ∧ (j ≠ m → states' !! indexOf j joints = Some (ikpJointStateOf rm j a)).
Proof.
  intros Hj Hsup Hmim Hm Hlen. unfold InverseKinematicsPlugin.setJointState.
  rewrite (getJointAxis_supported rm j Hsup). simpl.
  pose proof (indexOf_lt _ _ Hj) as Hij. pose proof (indexOf_lt _ _ Hm) as Him.
  rewrite store_Some by lia. simpl. rewrite Hmim.
  rewrite store_Some by (rewrite length_insert; lia). simpl.
  match goal with
  | |- context [InverseKinematicsPlugin.updateMimics _ _ j ?ms ?reqs ?st ?ks] =>
    destruct (ikp_updateMimics_total j ms reqs st ks)
      as (states' & kstate' & Hrun & Hlen'); [by rewrite !length_insert|] end.
  exists states', kstate'. split; [exact Hrun|]. split; [|split].
  - intros Hself. rewrite (ikp_updateMimics_frame _ _ _ _ _ _ _ _ Hrun).
    + apply list_lookup_insert_eq. rewrite length_insert. lia.
    + intros s Hs _ Heq. symmetry in Heq.
      apply indexOf_inj in Heq; [|done]. by subst.
  - intros s Hs Hne Hin. by eapply ikp_updateMimics_value.
  - intros Hne. rewrite (ikp_updateMimics_frame _ _ _ _ _ _ _ _ Hrun).
    + rewrite list_lookup_insert_ne.
      * apply list_lookup_insert_eq. lia.
      * intros Heq. apply indexOf_inj in Heq; [|done]. by subst.
    + intros s Hs Hsj Heq. symmetry in Heq.
      apply indexOf_inj in Heq; [|done]. by subst.
Qed.

(** A NaN angle selects the upper limit for the joint's own slot. *)
Lemma ikp_setJointState_nan_takes_upper_limit j a states kstate states' kstate' :
  isnan a = true → j ∈ joints → getMimic (jointModel rm j) = None →
  InverseKinematicsPlugin.setJointState rm joints j a states kstate
  = Some (states', kstate') →
  states' !! indexOf j joints
  = Some (max_position (getVariableBoundsMsg (jointModel rm j))).
Proof.
  intros Ha Hj Hfree. unfold InverseKinematicsPlugin.setJointState.
  destruct (Ik.getJointAxis _) as [ax|]; simpl; [|done].
  rewrite Ha, Hfree.
  destruct (store _ _ _) as [s1|] eqn:E1; simpl; [|done].
  intros [= <- _]. by eapply store_lookup_eq.
Qed.

(** What this [setJointState] writes for a joint that is no mimic lies
    within the joint's limits, whatever the angle. *)
Lemma ikp_setJointState_within_limits j a states kstate states' kstate' v :
  getMimic (jointModel rm j) = None →
  (min_position (getVariableBoundsMsg (jointModel rm j))
   <=? max_position (getVariableBoundsMsg (jointModel rm j))) = true →
  InverseKinematicsPlugin.setJointState rm joints j a states kstate
  = Some (states', kstate') →
  states' !! indexOf j joints = Some v →
  within (min_position (getVariableBoundsMsg (jointModel rm j)))
         (max_position (getVariableBoundsMsg (jointModel rm j))) v = true.
Proof.
  intros Hfree Hwf. unfold InverseKinematicsPlugin.setJointState.
  destruct (Ik.getJointAxis _) as [ax|]; simpl; [|done].
  rewrite Hfree.
  destruct (store _ _ _) as [s1|] eqn:E1; simpl; [|done].
  intros [= <- _] Hv. rewrite (store_lookup_eq _ _ _ _ E1) in Hv.
  injection Hv as <-. destruct (isnan a) eqn:Ea.
  - by apply within_upper.
  - by apply clamp_within.
Qed.

End PluginSetter.

Section LegacySetter.
Context {moveit : MoveIt}.
Variable rm : RobotModel.
Variable joints : list JointPtr.
Implicit Types (states : list double) (j m : JointPtr).

(** In the earlier [ik.cpp] a NaN angle leaves the vector as it was. *)
Lemma legacy_setJointState_nan j a states :
  isnan a = true → supported rm j →
  IkLegacy.setJointState rm joints j a states = Some states.
Proof.
  intros Ha Hsup. unfold IkLegacy.setJointState.
  rewrite (getJointAxis_supported rm j Hsup). simpl. by rewrite Ha.
Qed.

(** In the earlier [ik.cpp] the master slot takes the inverse affine image
    clamped to the master's limits. *)
Lemma legacy_setJointState_master j m a states :
  j ∈ joints → supported rm j →
  getMimic (jointModel rm j) = Some m → m ∈ joints →
  length states = length joints → isnan a = false →
  ∃ states',
    IkLegacy.setJointState rm joints j a states = Some states'
    ∧ states' !! indexOf m joints = Some (masterStateOf rm j m a).
Proof.
  intros Hj Hsup Hmim Hm Hlen Ha. unfold IkLegacy.setJointState.
  rewrite (getJointAxis_supported rm j Hsup). simpl. rewrite Ha.
  pose proof (indexOf_lt _ _ Hj) as Hij. pose proof (indexOf_lt _ _ Hm) as Him.
  rewrite store_Some by lia. simpl. rewrite Hmim.
  rewrite store_Some by (rewrite length_insert; lia).
  eexists. split; [done|].
  apply list_lookup_insert_eq. rewrite length_insert. lia.
Qed.

End LegacySetter.
End VariantFacts.

(** ** The plugin after [initialize], and request validation *)

Module PluginFacts.
Import Ik Notions DoubleFacts IkFacts.

Section Plugin.
Context {libm : Libm} {moveit : MoveIt} {header : Header}.

Lemma getJointFrom_Some rm type parent cands j :
  getJointFrom rm type parent cands = Some j →
  j ∈ cands ∧ getType (jointModel rm j) = type.
Proof.
  induction cands as [|c cands IH]; simpl; [done|].
  destruct parent as [par|].
  - destruct (bool_decide (getType (jointModel rm c) = type)) eqn:Et; simpl.
    + destruct (bool_decide (_ = getChildLinkModel _)); simpl.
      * intros [= ->]. apply bool_decide_eq_true in Et. split; [by left|done].
      * intros [Hin Ht]%IH. split; [by right|done].
    + intros [Hin Ht]%IH. split; [by right|done].
  - destruct (bool_decide (getType (jointModel rm c) = type)) eqn:Et; simpl.
    + intros [= ->]. apply bool_decide_eq_true in Et. split; [by left|done].
    + intros [Hin Ht]%IH. split; [by right|done].
Qed.

Lemma initialize_ready rm group_name base_frame tip_frames disc p :
  initialize rm group_name base_frame tip_frames disc = Some (Some p) →
  robot_model_ p = rm ∧ m_pState p = defaultState rm
  ∧ ∃ mt sh el wr, Ready p mt sh el wr.
Proof.
  unfold initialize.
  destruct (getJointModelGroup rm group_name) as [group|]; [|done].
  destruct (chains_ group) as [|chain [|? ?]]; [done| |done].
  case_decide; [done|].
  set (joints := filter _ (getJointModels group)).
  destruct (getJoint rm joints REVOLUTE None) as [mt|] eqn:Emt; [|].
  2:{ rewrite Emt. done. }
  destruct (getJoint rm joints REVOLUTE (Some mt)) as [sh|] eqn:Esh; [|done].
  destruct (getJoint rm joints REVOLUTE (Some sh)) as [el|] eqn:Eel; [|done].
  destruct (getJoint rm joints REVOLUTE (Some el)) as [wr|] eqn:Ewr; [|done].
  simpl. intros [= <-]. split; [done|]. split; [done|].
  exists mt, sh, el, wr.
  apply getJointFrom_Some in Emt as [? ?], Esh as [? ?], Eel as [? ?], Ewr as [? ?].
  split; simpl; try done.
  intros j Hj. subst joints. by apply list_elem_of_filter in Hj as [Hsup _].
Qed.

Lemma validateSeedState_spec p seed :
  validateSeedState p seed
  = Some (bool_decide (length seed = length (m_joints p))).
Proof.
  unfold validateSeedState. case_decide as Hlen.
  - by rewrite bool_decide_eq_false_2.
  - rewrite bool_decide_eq_true_2 by done.
    match goal with |- context [mapM ?f ?l] =>
      destruct (mapM_is_Some_2 f l) as [k ->]; [|done] end.
    apply Forall_forall. intros i Hi%elem_of_seq. simpl.
    destruct (lookup_lt_is_Some_2 (m_joints p) i) as [pj ->]; [lia|].
    destruct (lookup_lt_is_Some_2 seed i) as [v ->]; [lia|]. by eexists.
Qed.

Lemma validateTarget_true p poses :
  validateTarget p poses = true ↔
  length poses = 1%nat ∧ length (tip_frames_ p) = length poses.
Proof.
  unfold validateTarget. rewrite negb_true_iff, orb_false_iff.
  rewrite !bool_decide_eq_false. split; intros [H1 H2]; split;
    first [by apply dec_stable | naive_solver].
Qed.

(** The refusal path: the caller's vector is handed back untouched. *)
Lemma searchPositionIK_refuses p req :
  ¬ validRequest p req →
  searchPositionIK p req
  = Some {| returned := false; solution_out := solution req;
            error_code_out := {| val := NO_IK_SOLUTION |} |}.
Proof.
  intros Hbad. unfold searchPositionIK.
  rewrite validateSeedState_spec. simpl.
  destruct (bool_decide _) eqn:Eseed; simpl; [|done].
  destruct (validateTarget p (ik_poses req)) eqn:Etgt; simpl; [|done].
  apply bool_decide_eq_true in Eseed. apply validateTarget_true in Etgt.
  destruct Hbad. by split.
Qed.

Lemma locals_ready p mt sh el wr poses pose tip :
  Ready p mt sh el wr → m_pTipLink p = Some tip → poses = [pose] →
  locals p poses
  = Some (
      let rm := robot_model_ p in
      let shoulderWorld :=
        Eigen.translation
          (getGlobalLinkTransform (m_pState p) (childLink rm sh)) in
      {| targetWorld := position pose;
         shoulderWorld := shoulderWorld;
         targetLocal := Eigen.sub (position pose) shoulderWorld;
         shoulderToEffector :=
           getLinkLength (m_pState p) (childLink rm sh) tip;
         wristToEffector :=
           getLinkLength (m_pState p) (childLink rm wr) tip |}).
Proof.
  intros HR Htip ->. unfold locals. simpl.
  by rewrite (ready_shoulder _ _ _ _ _ HR), Htip, (ready_wrist _ _ _ _ _ HR).
Qed.

(** A valid request on an initialised plugin runs the three stages:
    mount, arm, callback. *)
Lemma searchPositionIK_valid p mt sh el wr req l :
  Ready p mt sh el wr → validRequest p req →
  locals p (ik_poses req) = Some l →
  searchPositionIK p req
  = (solution ← setJointState (robot_model_ p) (m_joints p) mt
                   (mountJointAngle l) (ik_seed_state req);
     solution ← solveArm p l sh solution;
     returnSolution req solution).
Proof.
  intros HR (Hseed & Hposes & Htips) Hl. unfold searchPositionIK.
  rewrite validateSeedState_spec. simpl.
  rewrite bool_decide_eq_true_2 by done.
  destruct (validateTarget p (ik_poses req)) eqn:Etgt.
  2:{ assert (validateTarget p (ik_poses req) = true) as Hc
        by (by apply validateTarget_true).
      congruence. }
  simpl. rewrite Hl. simpl.
  rewrite (ready_shoulder _ _ _ _ _ HR). simpl.
  by rewrite (ready_mount _ _ _ _ _ HR).
Qed.

End Plugin.
End PluginFacts.

(** ** A valid solve, stage by stage *)

Module SolveFacts.
Import Ik Notions DoubleFacts IkFacts PluginFacts.

Section Solve.
Context {libm : Libm} {moveit : MoveIt} {header : Header}.
Variables (p : IKPlugin) (mt sh el wr : JointPtr).
Hypothesis HR : Ready p mt sh el wr.

Local Abbreviation rm := (robot_model_ p).
Local Abbreviation joints := (m_joints p).
Local Abbreviation maxOf j := (max_position (getVariableBoundsMsg (jointModel rm j))).
Local Abbreviation minOf j := (min_position (getVariableBoundsMsg (jointModel rm j))).

(** Beyond the envelope both joints are held at their upper limits. *)
Lemma solveArm_beyond l sol :
  (reachableMaxNorm l <? targetNorm l) = true →
  length sol = length joints →
  solveArm p l sh sol
  = Some (<[indexOf el joints := maxOf el]> (<[indexOf sh joints := maxOf sh]> sol)).
Proof.
  intros Hcmp Hlen. unfold solveArm. rewrite Hcmp.
  rewrite setJointMaxState_total by (done || apply HR). simpl.
  rewrite (ready_elbow _ _ _ _ _ HR). simpl.
  rewrite setJointMaxState_total; [done|apply HR|by rewrite length_insert].
Qed.

(** Short of the envelope both joints are held at their lower limits. *)
Lemma solveArm_short l sol :
  (reachableMaxNorm l <? targetNorm l) = false →
  (targetNorm l <? reachableMinNorm l) = true →
  length sol = length joints →
  solveArm p l sh sol
  = Some (<[indexOf el joints := minOf el]> (<[indexOf sh joints := minOf sh]> sol)).
Proof.
  intros Hcmp Hcmp' Hlen. unfold solveArm. rewrite Hcmp, Hcmp'.
  rewrite setJointMinState_total by (done || apply HR). simpl.
  rewrite (ready_elbow _ _ _ _ _ HR). simpl.
  rewrite setJointMinState_total; [done|apply HR|by rewrite length_insert].
Qed.

(** Inside the envelope only the shoulder is set, from the triangle. *)
Lemma solveArm_inside l sol :
  (reachableMaxNorm l <? targetNorm l) = false →
  (targetNorm l <? reachableMinNorm l) = false →
  solveArm p l sh sol
  = setJointState rm joints sh (shoulderJointAngle p l) sol.
Proof. intros Hcmp Hcmp'. unfold solveArm. by rewrite Hcmp, Hcmp'. Qed.

(** The slots of two listed joints after the two limit writes. *)
Lemma two_writes_lookup (sol : list double) (vs ve : JointPtr → double) :
  length sol = length joints →
  let sol' := <[indexOf el joints := ve el]> (<[indexOf sh joints := vs sh]> sol) in
  sol' !! indexOf el joints = Some (ve el)
  ∧ (vs sh = ve sh → sol' !! indexOf sh joints = Some (vs sh)).
Proof.
  intros Hlen sol'. subst sol'.
  pose proof (indexOf_lt _ _ (ready_shoulder_in _ _ _ _ _ HR)) as Hsh.
  pose proof (indexOf_lt _ _ (ready_elbow_in _ _ _ _ _ HR)) as Hel.
  split.
  - apply list_lookup_insert_eq. rewrite length_insert. lia.
  - intros Hsame. destruct (decide (indexOf el joints = indexOf sh joints)) as [Heq|Hne].
    + apply indexOf_inj in Heq; [|apply HR]. subst el. rewrite Hsame.
      apply list_lookup_insert_eq. rewrite length_insert. lia.
    + rewrite list_lookup_insert_ne by done.
      apply list_lookup_insert_eq. lia.
Qed.

Lemma solveArm_total l sol :
  masterListed p sh → length sol = length joints →
  ∃ sol', solveArm p l sh sol = Some sol' ∧ length sol' = length joints.
Proof.
  intros Hmasters Hlen.
  destruct (reachableMaxNorm l <? targetNorm l) eqn:Hcmp.
  { rewrite solveArm_beyond by done. eexists; split; [done|].
    by rewrite !length_insert. }
  destruct (targetNorm l <? reachableMinNorm l) eqn:Hcmp'.
  { rewrite solveArm_short by done. eexists; split; [done|].
    by rewrite !length_insert. }
  rewrite solveArm_inside by done.
  apply setJointState_total; [apply HR| | |done].
  - apply (ready_supported _ _ _ _ _ HR), HR.
  - done.
Qed.

(** A valid request on an initialised plugin returns [true] with
    [SUCCESS] or what the callback made of it, after the mount write and
    the arm stage. *)
Lemma searchPositionIK_runs req :
  is_Some (m_pTipLink p) → masterListed p mt → masterListed p sh →
  validRequest p req →
  ∃ l sol1 sol2 ec,
    locals p (ik_poses req) = Some l
    ∧ setJointState rm joints mt (mountJointAngle l) (ik_seed_state req) = Some sol1
    ∧ length sol1 = length joints
    ∧ solveArm p l sh sol1 = Some sol2
    ∧ length sol2 = length joints
    ∧ searchPositionIK p req
      = Some {| returned := true; solution_out := sol2; error_code_out := ec |}.
Proof.
  intros [tip Htip] Hmt Hmasters Hvalid.
  pose proof Hvalid as (Hseed & Hposes & Htips).
  assert (∃ pose, ik_poses req = [pose]) as [pose Eposes].
  { destruct (ik_poses req) as [|pose [|? ?]]; try done. by exists pose. }
  pose proof (locals_ready p mt sh el wr _ pose tip HR Htip Eposes) as Hl.
  match type of Hl with _ = Some ?v => set (l := v) in * end.
  destruct (setJointState_total rm joints mt (mountJointAngle l) (ik_seed_state req))
    as (sol1 & Hsol1 & Hlen1); [apply HR| | |done|].
  { apply (ready_supported _ _ _ _ _ HR), HR. }
  { done. }
  destruct (solveArm_total l sol1 Hmasters Hlen1) as (sol2 & Hsol2 & Hlen2).
  exists l, sol1, sol2.
  exists (match solution_callback req with
          | Some callback => callback pose sol2 {| val := SUCCESS |}
          | None => {| val := SUCCESS |}
          end).
  split; [done|]. split; [done|]. split; [done|].
  split; [done|]. split; [done|].
  rewrite (searchPositionIK_valid p mt sh el wr req l HR Hvalid Hl).
  rewrite Hsol1. simpl. rewrite Hsol2. simpl.
  unfold returnSolution. rewrite Eposes. simpl.
  destruct (solution_callback req); simpl; reflexivity.
Qed.

(** Frame of the arm stage. *)
Lemma solveArm_frame l sol sol' i :
  solveArm p l sh sol = Some sol' →
  indexOf sh joints ≠ i → indexOf el joints ≠ i →
  (∀ w, w ∈ mimicFamily rm sh → indexOf w joints ≠ i) →
  sol' !! i = sol !! i.
Proof.
  intros Hrun Hsh Hel Hfam. unfold solveArm in Hrun.
  rewrite (ready_elbow _ _ _ _ _ HR) in Hrun. simpl in Hrun.
  destruct (reachableMaxNorm l <? targetNorm l).
  { destruct (setJointMaxState _ _ sh sol) as [s1|] eqn:E1; simpl in Hrun; [|done].
    apply setJointMaxState_inv in E1 as [-> _], Hrun as [-> _].
    by rewrite !list_lookup_insert_ne. }
  destruct (targetNorm l <? reachableMinNorm l).
  { destruct (setJointMinState _ _ sh sol) as [s1|] eqn:E1; simpl in Hrun; [|done].
    apply setJointMinState_inv in E1 as [-> _], Hrun as [-> _].
    by rewrite !list_lookup_insert_ne. }
  by eapply setJointState_frame.
Qed.

(** Frame of a whole solve: a slot of no written joint keeps the seed. *)
Lemma searchPositionIK_frame req res i :
  validRequest p req →
  searchPositionIK p req = Some res →
  (∀ w, w ∈ writtenJoints rm mt sh el → indexOf w joints ≠ i) →
  solution_out res !! i = ik_seed_state req !! i.
Proof.
  intros Hvalid Hres Hfr.
  destruct (locals p (ik_poses req)) as [l|] eqn:Hl.
  2:{ unfold searchPositionIK in Hres. rewrite validateSeedState_spec in Hres.
      simpl in Hres. destruct Hvalid as (Hs & Hp & Ht).
      rewrite bool_decide_eq_true_2 in Hres by done.
      assert (validateTarget p (ik_poses req) = true) as Hv
        by (by apply validateTarget_true).
      rewrite Hv, Hl in Hres. done. }
  rewrite (searchPositionIK_valid p mt sh el wr req l HR Hvalid Hl) in Hres.
  destruct (setJointState _ _ mt _ _) as [sol1|] eqn:E1; simpl in Hres; [|done].
  destruct (solveArm p l sh sol1) as [sol2|] eqn:E2; simpl in Hres; [|done].
  assert (solution_out res = sol2) as ->.
  { unfold returnSolution in Hres.
    destruct (solution_callback req); simpl in Hres;
      [destruct (head (ik_poses req)); simpl in Hres; [|done]|];
      by injection Hres as <-. }
  unfold writtenJoints in Hfr.
  rewrite (solveArm_frame l sol1 sol2 i E2).
  - apply (setJointState_frame _ _ _ _ _ _ _ E1).
    + apply Hfr. set_solver.
    + intros w Hw. apply Hfr. set_solver.
  - apply Hfr. set_solver.
  - apply Hfr. set_solver.
  - intros w Hw. apply Hfr. set_solver.
Qed.

(** *** Limits *)

Lemma withinLimits_insert (sol : list double) j v :
  withinLimits rm joints sol → j ∈ joints →
  within (minOf j) (maxOf j) v = true →
  withinLimits rm joints (<[indexOf j joints := v]> sol).
Proof.
  intros Hsol Hj Hv i j' v' Hj' Hv'.
  apply list_lookup_insert_Some in Hv' as [(<- & <- & _)|(Hne & Hv')].
  - rewrite (lookup_indexOf _ _ Hj) in Hj'. by injection Hj' as <-.
  - by eapply Hsol.
Qed.

(** Where MoveIt turns a number into a number, a joint that is no mimic
    is written inside its limits. *)
Lemma setJointState_withinLimits j a (sol sol' : list double) :
  (∀ j t, isnan (Eigen.angle t) = false →
          isnan (computeVariablePositions j t) = false) →
  getMimic (jointModel rm j) = None → j ∈ joints →
  (minOf j <=? maxOf j) = true →
  withinLimits rm joints sol →
  setJointState rm joints j a sol = Some sol' →
  withinLimits rm joints sol'.
Proof.
  intros Hnum Hfree Hj Hwf Hsol. unfold setJointState.
  destruct (isnan a) eqn:Ea; [by intros [= <-]|].
  destruct (getJointAxis _) as [ax|]; simpl; [|done].
  destruct (store _ _ _) as [s1|] eqn:E1; simpl; [|done].
  rewrite Hfree. intros [= <-].
  apply store_inv in E1 as [_ ->].
  apply withinLimits_insert; [done..|].
  apply clamp_within; [done|]. by apply Hnum.
Qed.

Lemma solveArm_withinLimits l (sol sol' : list double) :
  (∀ j t, isnan (Eigen.angle t) = false →
          isnan (computeVariablePositions j t) = false) →
  getMimic (jointModel rm sh) = None →
  (minOf sh <=? maxOf sh) = true → (minOf el <=? maxOf el) = true →
  withinLimits rm joints sol →
  solveArm p l sh sol = Some sol' →
  withinLimits rm joints sol'.
Proof.
  intros Hnum Hfree Hwsh Hwel Hsol Hrun. unfold solveArm in Hrun.
  rewrite (ready_elbow _ _ _ _ _ HR) in Hrun. simpl in Hrun.
  destruct (reachableMaxNorm l <? targetNorm l).
  { destruct (setJointMaxState _ _ sh sol) as [s1|] eqn:E1; simpl in Hrun; [|done].
    apply setJointMaxState_inv in E1 as [-> _], Hrun as [-> _].
    apply withinLimits_insert; [|apply HR|by apply within_upper].
    apply withinLimits_insert; [done|apply HR|by apply within_upper]. }
  destruct (targetNorm l <? reachableMinNorm l).
  { destruct (setJointMinState _ _ sh sol) as [s1|] eqn:E1; simpl in Hrun; [|done].
    apply setJointMinState_inv in E1 as [-> _], Hrun as [-> _].
    apply withinLimits_insert; [|apply HR|by apply within_lower].
    apply withinLimits_insert; [done|apply HR|by apply within_lower]. }
  eapply setJointState_withinLimits; [done|done|apply HR|done|done|done].
Qed.

End Solve.
End SolveFacts.

(** ** No setter resizes the vector *)

Module LengthFacts.
Import Ik Notions IkFacts.

Section Lengths.
Context {libm : Libm} {moveit : MoveIt} {header : Header}.

Lemma updateOtherMimics_length rm joints j ms reqs states states' :
  updateOtherMimics rm joints j ms reqs states = Some states' →
  length states' = length states.
Proof.
  revert states. induction reqs as [|r reqs IH]; intros states; simpl.
  { by intros [= <-]. }
  case_decide; [by apply IH|]. case_decide; [by apply IH|].
  destruct (store states _ _) as [s1|] eqn:Es1; [|done]. simpl.
  intros Hrun%IH. rewrite Hrun. by apply store_length in Es1.
Qed.

Lemma setJointState_length rm joints j a states states' :
  setJointState rm joints j a states = Some states' →
  length states' = length states.
Proof.
  unfold setJointState. destruct (isnan a); [by intros [= <-]|].
  destruct (getJointAxis _); [|done]. simpl.
  destruct (store states _ _) as [s1|] eqn:Es1; [|done]. simpl.
  apply store_length in Es1.
  destruct (getMimic _); [|intros [= <-]; done].
  destruct (store s1 _ _) as [s2|] eqn:Es2; [|done]. simpl.
  apply store_length in Es2.
  intros Hrun%updateOtherMimics_length. congruence.
Qed.

Lemma solveArm_length p l sh sol sol' :
  solveArm p l sh sol = Some sol' → length sol' = length sol.
Proof.
  unfold solveArm, setJointMaxState, setJointMinState.
  destruct (_ <? _).
  { destruct (store sol _ _) as [s1|] eqn:Es1; [|done]. simpl.
    destruct (m_pElbowJoint p); [|done]. simpl.
    intros Es2. apply store_length in Es1, Es2. congruence. }
  destruct (_ <? _).
  { destruct (store sol _ _) as [s1|] eqn:Es1; [|done]. simpl.
    destruct (m_pElbowJoint p); [|done]. simpl.
    intros Es2. apply store_length in Es1, Es2. congruence. }
  apply setJointState_length.
Qed.

End Lengths.
End LengthFacts.

(** ** NaN through the arithmetic of the solver *)

Module NanFacts.
Import DoubleFacts.

Lemma sub_nan_r x y : isnan y = true -> isnan (x - y) = true.
Proof.
  rewrite !isnan_spec, sub_spec. intros ->. now destruct (Prim2SF x).
Qed.

Lemma add_nan_l x y : isnan x = true -> isnan (x + y) = true.
Proof. rewrite !isnan_spec, add_spec. intros ->. reflexivity. Qed.

Lemma add_nan_r x y : isnan y = true -> isnan (x + y) = true.
Proof.
  rewrite !isnan_spec, add_spec. intros ->. now destruct (Prim2SF x).
Qed.

Lemma mul_nan_l x y : isnan x = true -> isnan (x * y) = true.
Proof. rewrite !isnan_spec, mul_spec. intros ->. reflexivity. Qed.

Lemma mul_nan_r x y : isnan y = true -> isnan (x * y) = true.
Proof.
  rewrite !isnan_spec, mul_spec. intros ->. now destruct (Prim2SF x).
Qed.

Lemma div_nan_l x y : isnan x = true -> isnan (x / y) = true.
Proof. rewrite !isnan_spec, div_spec. intros ->. reflexivity. Qed.

Lemma sqrt_nan x : isnan x = true -> isnan (sqrt x) = true.
Proof. rewrite !isnan_spec, sqrt_spec. intros ->. reflexivity. Qed.

(** No comparison with NaN holds. *)
Lemma ltb_nan_l x y : isnan x = true -> (x <? y) = false.
Proof.
  intros Hx. destruct (x <? y) eqn:E; [|reflexivity].
  apply ltb_not_nan in E. destruct E; congruence.
Qed.

Lemma ltb_nan_r x y : isnan y = true -> (x <? y) = false.
Proof.
  intros Hy. destruct (x <? y) eqn:E; [|reflexivity].
  apply ltb_not_nan in E. destruct E; congruence.
Qed.

(** The norm of a vector with a NaN among its first two coordinates. *)
Lemma norm_nan v :
  isnan (Eigen.x v) = true \/ isnan (Eigen.y v) = true ->
  isnan (Eigen.norm v) = true.
Proof.
  intros H. unfold Eigen.norm. apply sqrt_nan, add_nan_l.
  destruct H as [H|H].
  - now apply add_nan_l, mul_nan_l.
  - now apply add_nan_r, mul_nan_l.
Qed.

End NanFacts.

(** ** The earlier solver *)

Module LegacyFacts.
Import Notions DoubleFacts IkFacts PluginFacts.
Import IkLegacy.

Section Setter.
Context {moveit : MoveIt}.
Variable rm : RobotModel.
Variable joints : list JointPtr.

Lemma legacy_setJointState_frame j a (states states' : list double) :
  setJointState rm joints j a states = Some states' →
  length states' = length states
  ∧ ∀ i, i ≠ indexOf j joints →
         (∀ m, getMimic (jointModel rm j) = Some m → i ≠ indexOf m joints) →
         states' !! i = states !! i.
Proof.
  unfold setJointState.
  destruct (Ik.getJointAxis _) as [axis|]; [|done]. simpl.
  destruct (isnan a); [by intros [= <-]|].
  destruct (store states _ _) as [s1|] eqn:Es1; [|done]. simpl.
  destruct (getMimic (jointModel rm j)) as [m|].
  - intros Es2. split.
    + apply store_length in Es1, Es2. congruence.
    + intros i Hown Hmaster.
      rewrite (store_lookup_ne _ _ _ _ i Es2) by (specialize (Hmaster m eq_refl); done).
      by rewrite (store_lookup_ne _ _ _ _ i Es1).
  - intros [= <-]. split.
    + by apply store_length in Es1.
    + intros i Hown _. by rewrite (store_lookup_ne _ _ _ _ i Es1).
Qed.

Lemma legacy_setJointState_total j a (states : list double) :
  j ∈ joints → supported rm j →
  (∀ m, getMimic (jointModel rm j) = Some m → m ∈ joints) →
  length states = length joints →
  ∃ states', setJointState rm joints j a states = Some states'
             ∧ length states' = length joints.
Proof.
  intros Hin Hsup Hmaster Hlen. unfold setJointState.
  rewrite getJointAxis_supported by done. simpl.
  destruct (isnan a); [by exists states|].
  pose proof (indexOf_lt _ _ Hin) as Hj.
  rewrite store_Some by lia. simpl.
  destruct (getMimic (jointModel rm j)) as [m|] eqn:Em.
  - pose proof (indexOf_lt _ _ (Hmaster m eq_refl)) as Hm.
    rewrite store_Some by (rewrite length_insert; lia).
    eexists. split; [done|]. by rewrite !length_insert.
  - eexists. split; [done|]. by rewrite length_insert.
Qed.

End Setter.

Section Solver.
Context {libm : Libm} {moveit : MoveIt} {header : Header} {outside : Outside}.

Lemma legacy_validateSeedState_spec p seed :
  validateSeedState p seed
  = Some (bool_decide (length seed = length (m_joints p))).
Proof.
  unfold validateSeedState. case_decide as Hlen.
  - by rewrite bool_decide_eq_false_2.
  - rewrite bool_decide_eq_true_2 by done.
    match goal with |- context [mapM ?f ?l] =>
      destruct (mapM_is_Some_2 f l) as [k ->]; [|done] end.
    apply Forall_forall. intros i Hi%elem_of_seq. simpl.
    destruct (lookup_lt_is_Some_2 (m_joints p) i) as [pj ->]; [lia|].
    destruct (lookup_lt_is_Some_2 seed i) as [v ->]; [lia|]. by eexists.
Qed.

Lemma legacy_validateTarget_true p poses :
  validateTarget p poses = true ↔
  length poses = 1%nat ∧ length (tip_frames_ p) = length poses.
Proof.
  unfold validateTarget. rewrite negb_true_iff, orb_false_iff.
  rewrite !bool_decide_eq_false. split; intros [H1 H2]; split;
    first [by apply dec_stable | (intros Hn; by apply Hn)].
Qed.

Lemma legacy_initialized rm group_name base_frame tip_frames disc p :
  initialize rm group_name base_frame tip_frames disc = Some p →
  robot_model_ p = rm ∧ m_pState p = defaultState rm
  ∧ length (tip_frames_ p) = 1%nat
  ∧ ∀ j, j ∈ m_joints p → supported rm j.
Proof.
  unfold initialize.
  destruct (getJointModelGroup rm group_name) as [group|]; [|done].
  destruct (chains_ group) as [|chain [|? ?]]; [done| |done].
  case_decide; [done|]. intros [= <-]. simpl.
  repeat (split; [done|]).
  intros j Hj. by apply list_elem_of_filter in Hj as [Hsup _].
Qed.

(** The three joints of the locals are listed revolute joints. *)
Lemma legacy_locals_listed p poses l :
  locals p poses = Some l →
  pMountJoint l ∈ m_joints p ∧ pShoulderJoint l ∈ m_joints p
  ∧ pElbowJoint l ∈ m_joints p.
Proof.
  unfold locals. destruct (getTipLink p); [|done]. simpl.
  destruct (Ik.getTarget poses); [|done]. simpl.
  destruct (Ik.getJoint _ _ _ None) as [mt|] eqn:Emt.
  2:{ rewrite Emt. done. }
  destruct (Ik.getJoint _ _ _ (Some mt)) as [sh|] eqn:Esh; [|done]. simpl.
  destruct (Ik.getJoint _ _ _ (Some sh)) as [el|] eqn:Eel; [|done]. simpl.
  destruct (head _); [|done]. simpl. intros [= <-]. simpl.
  apply getJointFrom_Some in Emt as [? _], Esh as [? _], Eel as [? _]. done.
Qed.

End Solver.
End LegacyFacts.

(** ** The solver's contract *)

Module Contract.
Import Ik Notions DoubleFacts IkFacts VariantFacts PluginFacts SolveFacts.

Section Refusal.
Context {libm : Libm} {moveit : MoveIt} {header : Header}.

(** C5.  A call whose seed has another length than the joint list, or that
    brings other than one pose, or not as many poses as tip frames, returns
    [false] with [NO_IK_SOLUTION]; it faults nowhere, and the walk over the
    seed in [validateSeedState] stays inside both vectors for every seed. *)
Theorem C5_malformed_request_is_refused (p : IKPlugin) (req : IKRequest) :
  length (ik_seed_state req) ≠ length (m_joints p)
  ∨ length (ik_poses req) ≠ 1%nat
  ∨ length (tip_frames_ p) ≠ length (ik_poses req) →
  (∃ res, searchPositionIK p req = Some res
          ∧ returned res = false
          ∧ val (error_code_out res) = NO_IK_SOLUTION)
  ∧ (∀ seed, is_Some (validateSeedState p seed)).
Proof.
  intros Hbad. split.
  - rewrite searchPositionIK_refuses.
    + eexists. split; [reflexivity|]. done.
    + intros (Hs & Hp & Ht). destruct Hbad as [Hb|[Hb|Hb]]; done.
  - intros seed. rewrite validateSeedState_spec. by eexists.
Qed.

(** C9.  When [validateSeedState] or [validateTarget] rejects the request,
    the call returns before its first write: the solution handed back is the
    vector the caller passed in. *)
Theorem C9_refusal_leaves_solution_untouched (p : IKPlugin) (req : IKRequest) :
  validateSeedState p (ik_seed_state req) = Some false
  ∨ validateTarget p (ik_poses req) = false →
  ∃ res, searchPositionIK p req = Some res
         ∧ returned res = false
         ∧ solution_out res = solution req.
Proof.
  intros Hbad. rewrite searchPositionIK_refuses.
  - eexists. split; [reflexivity|]. done.
  - intros (Hs & Hp & Ht). destruct Hbad as [Hb|Hb].
    + rewrite validateSeedState_spec in Hb.
      rewrite bool_decide_eq_true_2 in Hb by done. discriminate.
    + assert (validateTarget p (ik_poses req) = true) as Hv
        by (by apply validateTarget_true).
      congruence.
Qed.

End Refusal.

Section Solving.
Context {libm : Libm} {moveit : MoveIt} {header : Header}.
Variables (rm : RobotModel) (group_name base_frame : string).
Variables (tip_frames : list string) (search_discretization : double).
Variable p : IKPlugin.
Hypothesis Hinit :
  initialize rm group_name base_frame tip_frames search_discretization
  = Some (Some p).

Local Abbreviation maxOf j := (max_position (getVariableBoundsMsg (jointModel rm j))).
Local Abbreviation minOf j := (min_position (getVariableBoundsMsg (jointModel rm j))).

(** C1, as the code has it.  The envelope is not computed from the arm:
    its bounds are the norms of the header constants [MAX] and [MIN] less
    [wristNorm], the distance from the wrist link to the tip link in the
    default pose.  On a valid request the call returns true; when the distance
    of the target from the shoulder origin exceeds
    [reachableMaxNorm = MAX.norm() - wristNorm], the shoulder and elbow slots
    of the returned vector hold exactly the [max_position] of the two joints;
    when it does not and is below [reachableMinNorm = MIN.norm() - wristNorm],
    they hold exactly the [min_position].  No distance is both below the lower
    and above the upper bound when the lower bound is at most the upper. *)
Theorem C1_target_outside_envelope_holds_limits
    (req : IKRequest) (pose : Pose) (tip : LinkPtr) :
  m_pTipLink p = Some tip → mastersListed p →
  ik_poses req = [pose] → validRequest p req →
  ∃ sh el wr res,
    m_pShoulderJoint p = Some sh ∧ m_pElbowJoint p = Some el
    ∧ m_pWristJoint p = Some wr
    ∧ searchPositionIK p req = Some res
    ∧ returned res = true
    ∧ let targetNorm :=
        Eigen.norm (Eigen.sub (position pose) (linkOrigin rm (childLink rm sh))) in
      let wristNorm :=
        Eigen.norm (Eigen.sub (linkOrigin rm tip)
                      (linkOrigin rm (childLink rm wr))) in
      let reachableMaxNorm := Eigen.norm MAX - wristNorm in
      let reachableMinNorm := Eigen.norm MIN - wristNorm in
      ((reachableMaxNorm <? targetNorm) = true →
       solution_out res !! indexOf sh (m_joints p) = Some (maxOf sh)
       ∧ solution_out res !! indexOf el (m_joints p) = Some (maxOf el))
      ∧ ((reachableMaxNorm <? targetNorm) = false →
         (targetNorm <? reachableMinNorm) = true →
         solution_out res !! indexOf sh (m_joints p) = Some (minOf sh)
         ∧ solution_out res !! indexOf el (m_joints p) = Some (minOf el))
      ∧ ((reachableMinNorm <=? reachableMaxNorm) = true →
         (targetNorm <? reachableMinNorm) = true →
         (reachableMaxNorm <? targetNorm) = false).
Proof.
  intros Htip Hmasters Hposes Hvalid.
  destruct (initialize_ready _ _ _ _ _ _ Hinit)
    as (Hrm & Hstate & mt & sh & el & wr & HR).
  destruct (searchPositionIK_runs p mt sh el wr HR req (ex_intro _ tip Htip)
              (Hmasters mt (ready_mount_in _ _ _ _ _ HR))
              (Hmasters sh (ready_shoulder_in _ _ _ _ _ HR)) Hvalid)
    as (l & sol1 & sol2 & ec & Hl & Hsol1 & Hlen1 & Hsol2 & Hlen2 & Hres).
  rewrite Hposes, (locals_ready p mt sh el wr _ pose tip HR Htip eq_refl) in Hl.
  injection Hl as <-.
  exists sh, el, wr. eexists.
  split; [apply HR|]. split; [apply HR|]. split; [apply HR|].
  split; [exact Hres|]. split; [done|].
  unfold linkOrigin. rewrite <- Hstate, <- Hrm. simpl.
  split; [|split].
  - intros Hcmp. rewrite (solveArm_beyond p mt sh el wr HR) in Hsol2 by done.
    injection Hsol2 as <-.
    destruct (two_writes_lookup p mt sh el wr HR sol1
                (λ j, max_position (getVariableBoundsMsg (jointModel (robot_model_ p) j)))
                (λ j, max_position (getVariableBoundsMsg (jointModel (robot_model_ p) j)))
                Hlen1) as [Hel Hsh].
    split; [by apply Hsh|exact Hel].
  - intros Hnot Hcmp.
    rewrite (solveArm_short p mt sh el wr HR) in Hsol2 by done.
    injection Hsol2 as <-.
    destruct (two_writes_lookup p mt sh el wr HR sol1
                (λ j, min_position (getVariableBoundsMsg (jointModel (robot_model_ p) j)))
                (λ j, min_position (getVariableBoundsMsg (jointModel (robot_model_ p) j)))
                Hlen1) as [Hel Hsh].
    split; [by apply Hsh|exact Hel].
  - intros Hann Hcmp. apply ltb_asym. by eapply ltb_leb_trans.
Qed.

(** C2, as the code has it.  On a valid request whose seed lies inside the
    joint limits, with limits in order, mount and shoulder no mimic joints
    and MoveIt turning numbers into numbers, every entry of the returned
    vector lies inside the limits of its joint: what the solver writes is
    clamped or a limit, and every other slot is the seed's. *)
Theorem C2_entries_within_limits_when_seed_is (req : IKRequest) :
  is_Some (m_pTipLink p) → validRequest p req →
  (∀ j, m_pMountJoint p = Some j ∨ m_pShoulderJoint p = Some j →
        getMimic (jointModel rm j) = None) →
  (∀ j, j ∈ m_joints p → (minOf j <=? maxOf j) = true) →
  (∀ j t, isnan (Eigen.angle t) = false →
          isnan (computeVariablePositions j t) = false) →
  withinLimits rm (m_joints p) (ik_seed_state req) →
  ∃ res, searchPositionIK p req = Some res
         ∧ returned res = true
         ∧ withinLimits rm (m_joints p) (solution_out res).
Proof.
  intros Htip Hvalid Hfree Hwf Hnum Hseed.
  destruct (initialize_ready _ _ _ _ _ _ Hinit) as (Hrm & _ & mt & sh & el & wr & HR).
  subst rm.
  assert (getMimic (jointModel (robot_model_ p) mt) = None) as Hmt
    by (apply Hfree; left; apply HR).
  assert (getMimic (jointModel (robot_model_ p) sh) = None) as Hsh
    by (apply Hfree; right; apply HR).
  destruct (searchPositionIK_runs p mt sh el wr HR req Htip)
    as (l & sol1 & sol2 & ec & Hl & Hsol1 & Hlen1 & Hsol2 & Hlen2 & Hres);
    [by intros m; rewrite Hmt|by intros m; rewrite Hsh|done|].
  eexists. split; [exact Hres|]. split; [done|]. simpl.
  eapply (solveArm_withinLimits p mt sh el wr HR); [done|done| | | |exact Hsol2].
  - apply Hwf, HR.
  - apply Hwf, HR.
  - eapply (setJointState_withinLimits p); [done|exact Hmt|apply HR| |done|exact Hsol1].
    apply Hwf, HR.
Qed.

(** C3.  On a valid request the angle handed to [setJointState] for the
    mount joint is [atan2(targetLocal.y, targetLocal.x)] minus the offset
    [atan2(shoulderToEffector.y, shoulderToEffector.x)], where [targetLocal]
    is the target less the shoulder origin and [shoulderToEffector] runs from
    the shoulder link to the tip link in the default (zero) pose.  When that
    angle is a number and the mount is no mimic joint and none of the joints
    the arm stage writes, the mount slot of the returned vector is the clamped
    joint value MoveIt derives from that angle. *)
Theorem C3_mount_angle_is_bearing_minus_offset
    (req : IKRequest) (pose : Pose) (tip : LinkPtr) :
  m_pTipLink p = Some tip → ik_poses req = [pose] → validRequest p req →
  ∃ l mt sh el,
    locals p (ik_poses req) = Some l
    ∧ m_pMountJoint p = Some mt ∧ m_pShoulderJoint p = Some sh
    ∧ m_pElbowJoint p = Some el
    ∧ targetLocal l
      = Eigen.sub (position pose)
          (Eigen.translation
             (getGlobalLinkTransform (defaultState rm) (childLink rm sh)))
    ∧ shoulderToEffector l
      = Eigen.sub
          (Eigen.translation (getGlobalLinkTransform (defaultState rm) tip))
          (Eigen.translation
             (getGlobalLinkTransform (defaultState rm) (childLink rm sh)))
    ∧ mountJointAngle l
      = atan2 (Eigen.y (targetLocal l)) (Eigen.x (targetLocal l))
        - atan2 (Eigen.y (shoulderToEffector l)) (Eigen.x (shoulderToEffector l))
    ∧ searchPositionIK p req
      = (solution ← setJointState rm (m_joints p) mt
                      (atan2 (Eigen.y (targetLocal l)) (Eigen.x (targetLocal l))
                       - atan2 (Eigen.y (shoulderToEffector l))
                               (Eigen.x (shoulderToEffector l)))
                      (ik_seed_state req);
         solution ← solveArm p l sh solution;
         returnSolution req solution)
    ∧ (isnan (mountJointAngle l) = false →
       getMimic (jointModel rm mt) = None →
       masterListed p sh →
       mt ∉ (sh :: mimicFamily rm sh) ++ [el] →
       ∃ res,
         searchPositionIK p req = Some res
         ∧ solution_out res !! indexOf mt (m_joints p)
           = Some (clamp
                     (computeVariablePositions (jointModel rm mt)
                        {| Eigen.angle := mountJointAngle l;
                           Eigen.axis := getAxis (jointModel rm mt) |})
                     (minOf mt) (maxOf mt))).
Proof.
  intros Htip Hposes Hvalid.
  destruct (initialize_ready _ _ _ _ _ _ Hinit)
    as (Hrm & Hstate & mt & sh & el & wr & HR).
  pose proof (locals_ready p mt sh el wr _ pose tip HR Htip Hposes) as Hl.
  eexists _, mt, sh, el. split; [exact Hl|].
  split; [apply HR|]. split; [apply HR|]. split; [apply HR|].
  rewrite <- Hstate, <- Hrm.
  split; [done|]. split; [done|]. split; [done|].
  split; [by rewrite (searchPositionIK_valid p mt sh el wr req _ HR Hvalid Hl)|].
  intros Hnum Hfree Hmaster Hapart.
  destruct (searchPositionIK_runs p mt sh el wr HR req)
    as (l' & sol1 & sol2 & ec & Hl' & Hsol1 & Hlen1 & Hsol2 & Hlen2 & Hres);
    [by exists tip|by intros m; rewrite Hfree|done|done|].
  rewrite Hl in Hl'. injection Hl' as <-.
  eexists. split; [exact Hres|]. simpl.
  rewrite setJointState_free in Hsol1;
    [|done|apply HR|apply (ready_supported _ _ _ _ _ HR), HR|done|apply Hvalid].
  injection Hsol1 as <-.
  rewrite (solveArm_frame p mt sh el wr HR _ _ _ _ Hsol2).
  - apply list_lookup_insert_eq.
    pose proof (indexOf_lt _ _ (ready_mount_in _ _ _ _ _ HR)).
    destruct Hvalid as (Hlen & _). lia.
  - intros Heq. apply indexOf_inj in Heq; [|apply HR]. subst.
    apply Hapart. set_solver.
  - intros Heq. apply indexOf_inj in Heq; [|apply HR]. subst.
    apply Hapart. set_solver.
  - intros w Hw Heq. symmetry in Heq.
    apply indexOf_inj in Heq; [|apply HR]. subst.
    apply Hapart. set_solver.
Qed.

(** C8, as the code has it.  On a valid request every slot that belongs to
    none of the written joints (mount and shoulder with their mimic
    families, elbow) is returned as the seed had it; the wrist slot is one of
    them whenever the wrist joint is none of the written joints. *)
Theorem C8_unwritten_slots_keep_the_seed (req : IKRequest) :
  is_Some (m_pTipLink p) → mastersListed p → validRequest p req →
  ∃ mt sh el wr res,
    m_pMountJoint p = Some mt ∧ m_pShoulderJoint p = Some sh
    ∧ m_pElbowJoint p = Some el ∧ m_pWristJoint p = Some wr
    ∧ searchPositionIK p req = Some res
    ∧ (∀ i, (∀ w, w ∈ writtenJoints rm mt sh el → indexOf w (m_joints p) ≠ i) →
            solution_out res !! i = ik_seed_state req !! i)
    ∧ (wr ∉ writtenJoints rm mt sh el →
       solution_out res !! indexOf wr (m_joints p)
       = ik_seed_state req !! indexOf wr (m_joints p)).
Proof.
  intros Htip Hmasters Hvalid.
  destruct (initialize_ready _ _ _ _ _ _ Hinit) as (Hrm & _ & mt & sh & el & wr & HR).
  destruct (searchPositionIK_runs p mt sh el wr HR req Htip
              (Hmasters mt (ready_mount_in _ _ _ _ _ HR))
              (Hmasters sh (ready_shoulder_in _ _ _ _ _ HR)) Hvalid)
    as (l & sol1 & sol2 & ec & Hl & Hsol1 & Hlen1 & Hsol2 & Hlen2 & Hres).
  exists mt, sh, el, wr. eexists. subst rm.
  split; [apply HR|]. split; [apply HR|]. split; [apply HR|]. split; [apply HR|].
  split; [exact Hres|].
  assert (∀ i, (∀ w, w ∈ writtenJoints (robot_model_ p) mt sh el →
                     indexOf w (m_joints p) ≠ i) →
               sol2 !! i = ik_seed_state req !! i) as Hframe.
  { intros i Hi.
    by apply (searchPositionIK_frame p mt sh el wr HR req _ i Hvalid Hres). }
  split; [exact Hframe|].
  intros Hwr. apply Hframe. intros w Hw Heq.
  symmetry in Heq. apply indexOf_inj in Heq; [|apply HR]. by subst w.
Qed.

End Solving.

Section Setters.
Context {libm : Libm} {moveit : MoveIt}.
Context {kin : InverseKinematicsPlugin.KinematicState}.
Variable rm : RobotModel.
Variable joints : list JointPtr.

Local Abbreviation maxOf j := (max_position (getVariableBoundsMsg (jointModel rm j))).
Local Abbreviation minOf j := (min_position (getVariableBoundsMsg (jointModel rm j))).
Local Abbreviation factorOf j := (getMimicFactor (jointModel rm j)).
Local Abbreviation offsetOf j := (getMimicOffset (jointModel rm j)).

(** C4, as the code has it.  [lawOfCosines] hands the quotient
    [(a*a + b*b - c*c) / (2*a*b)] to [acos] as it is; when the quotient lies
    outside [-1, 1], where [acos] answers NaN, the angle derived from it is
    NaN and [setJointState] returns without a write. *)
Theorem C4_lawOfCosines_is_unclamped_and_NaN_is_held
    (a b c : double) (j : JointPtr) (states : list double) :
  within (-1) 1 (lawOfCosinesArg a b c) = false →
  (∀ x, within (-1) 1 x = false → isnan (acos x) = true) →
  lawOfCosines a b c = acos ((a * a + b * b - c * c) / (2 * a * b))
  ∧ isnan (lawOfCosines a b c - M_PI / 2) = true
  ∧ Ik.setJointState rm joints j (lawOfCosines a b c - M_PI / 2) states
    = Some states.
Proof.
  intros Hout Hacos. split; [reflexivity|].
  assert (isnan (lawOfCosines a b c - M_PI / 2) = true) as Hnan.
  { apply sub_nan_l. unfold lawOfCosines. by apply Hacos. }
  split; [exact Hnan|]. by apply setJointState_nan.
Qed.

(** C6, as the code has it.  When [setJointState] is called on a mimic joint
    [j] of master [m], every other mimic [s] of [m] that the plugin lists ends
    at [clamp(factor * masterState + offset, slaveMin, slaveMax)] exactly,
    [masterState] being the master state clamped to the master's limits and
    factor and offset those of [s].  The joint [j] itself is passed over by
    the loop: its slot holds its own clamped state, not the affine image of
    the master state.  This holds in [inverseKinematicsPlugin.cpp] for every
    angle, NaN standing for the joint's upper limit, and in the
    law-of-cosines plugin for an angle that is a number; there a NaN angle
    returns before any write. *)
Theorem C6_other_mimics_follow_the_affine_law
    (j m : JointPtr) (a : double) (states : list double)
    (kstate : InverseKinematicsPlugin.RobotStateObj) :
  j ∈ joints → supported rm j →
  getMimic (jointModel rm j) = Some m → m ∈ joints →
  length states = length joints →
  (isnan a = true → Ik.setJointState rm joints j a states = Some states)
  ∧ (isnan a = false →
     let state :=
       computeVariablePositions (jointModel rm j)
         {| Eigen.angle := a; Eigen.axis := getAxis (jointModel rm j) |} in
     let masterState :=
       clamp ((state - offsetOf j) / factorOf j) (minOf m) (maxOf m) in
     ∃ states',
       Ik.setJointState rm joints j a states = Some states'
       ∧ (∀ s, s ∈ getMimicRequests (jointModel rm m) → s ≠ j → s ∈ joints →
               states' !! indexOf s joints
               = Some (clamp (factorOf s * masterState + offsetOf s)
                         (minOf s) (maxOf s)))
       ∧ (j ≠ m →
          states' !! indexOf j joints
          = Some (clamp state (minOf j) (maxOf j))))
  ∧ (let state := if isnan a then maxOf j else clamp a (minOf j) (maxOf j) in
     let masterState :=
       clamp ((state - offsetOf j) / factorOf j) (minOf m) (maxOf m) in
     ∃ states' kstate',
       InverseKinematicsPlugin.setJointState rm joints j a states kstate
       = Some (states', kstate')
       ∧ (∀ s, s ∈ getMimicRequests (jointModel rm m) → s ≠ j → s ∈ joints →
               states' !! indexOf s joints
               = Some (clamp (factorOf s * masterState + offsetOf s)
                         (minOf s) (maxOf s)))
       ∧ (j ≠ m → states' !! indexOf j joints = Some state)).
Proof.
  intros Hj Hsup Hmim Hm Hlen. split; [|split].
  - intros Ha. by apply setJointState_nan.
  - intros Ha.
    destruct (setJointState_mimic rm joints j m a states Hj Hsup Hmim Hm Hlen Ha)
      as (states' & Hrun & _ & Hsib & Hown).
    exists states'. split; [exact Hrun|]. split; [|exact Hown].
    intros s Hs Hne Hin. rewrite <- mimicStateOf_factor_first. by apply Hsib.
  - destruct (ikp_setJointState_mimic rm joints j m a states kstate
                Hj Hsup Hmim Hm Hlen)
      as (states' & kstate' & Hrun & _ & Hsib & Hown).
    exists states', kstate'. split; [exact Hrun|]. split; [|exact Hown].
    intros s Hs Hne Hin. rewrite <- mimicStateOf_factor_first. by apply Hsib.
Qed.

(** C10.  [setJointState] on a joint [j] that mimics a listed master [m]
    writes the master slot from the joint's state through the inverse affine
    relation [(state - offset) / factor] (as it is in the law-of-cosines
    plugin, clamped to the master's limits in [inverseKinematicsPlugin.cpp])
    and then sets every other listed mimic [s] of [m] to
    [clamp(masterState * factor + offset, limits of s)], [masterState] being
    the clamped master state. *)
Theorem C10_mimic_joint_drives_master_then_siblings
    (j m : JointPtr) (a : double) (states : list double)
    (kstate : InverseKinematicsPlugin.RobotStateObj) :
  j ∈ joints → supported rm j →
  getMimic (jointModel rm j) = Some m → m ∈ joints →
  m ∉ getMimicRequests (jointModel rm m) →
  length states = length joints →
  (isnan a = false →
   let state :=
     computeVariablePositions (jointModel rm j)
       {| Eigen.angle := a; Eigen.axis := getAxis (jointModel rm j) |} in
   let masterStateRaw := (state - offsetOf j) / factorOf j in
   let masterState := clamp masterStateRaw (minOf m) (maxOf m) in
   ∃ states',
     Ik.setJointState rm joints j a states = Some states'
     ∧ states' !! indexOf m joints = Some masterStateRaw
     ∧ ∀ s, s ∈ getMimicRequests (jointModel rm m) → s ≠ j → s ∈ joints →
            states' !! indexOf s joints
            = Some (clamp (masterState * factorOf s + offsetOf s)
                      (minOf s) (maxOf s)))
  ∧ (let state := if isnan a then maxOf j else clamp a (minOf j) (maxOf j) in
     let masterState :=
       clamp ((state - offsetOf j) / factorOf j) (minOf m) (maxOf m) in
     ∃ states' kstate',
       InverseKinematicsPlugin.setJointState rm joints j a states kstate
       = Some (states', kstate')
       ∧ states' !! indexOf m joints = Some masterState
       ∧ ∀ s, s ∈ getMimicRequests (jointModel rm m) → s ≠ j → s ∈ joints →
              states' !! indexOf s joints
              = Some (clamp (masterState * factorOf s + offsetOf s)
                        (minOf s) (maxOf s))).
Proof.
  intros Hj Hsup Hmim Hm Hself Hlen. split.
  - intros Ha.
    destruct (setJointState_mimic rm joints j m a states Hj Hsup Hmim Hm Hlen Ha)
      as (states' & Hrun & Hmaster & Hsib & _).
    exists states'. split; [exact Hrun|]. split; [by apply Hmaster|].
    intros s Hs Hne Hin. by apply Hsib.
  - destruct (ikp_setJointState_mimic rm joints j m a states kstate
                Hj Hsup Hmim Hm Hlen)
      as (states' & kstate' & Hrun & Hmaster & Hsib & _).
    exists states', kstate'. split; [exact Hrun|]. split; [by apply Hmaster|].
    intros s Hs Hne Hin. by apply Hsib.
Qed.

End Setters.
End Contract.

(** ** [initialize] and [getJoint] *)

Module Lifecycle.
Import Ik Notions DoubleFacts IkFacts PluginFacts.

Section Lifecycle.
Context {libm : Libm} {moveit : MoveIt} {header : Header}.
Variable rm : RobotModel.

Lemma getJointFrom_attached type parent cands :
  match getJointFrom rm type parent cands with
  | Some j => ∃ pre post, cands = pre ++ j :: post
                ∧ attached rm type parent j
                ∧ ∀ k, k ∈ pre → ¬ attached rm type parent k
  | None => ∀ k, k ∈ cands → ¬ attached rm type parent k
  end.
Proof.
  induction cands as [|c cands IH]; simpl.
  { intros k Hk. by apply elem_of_nil in Hk. }
  assert (Hdec :
    (match parent with
     | Some par =>
         bool_decide (getType (jointModel rm c) = type)
         && bool_decide (getParentLinkModel (jointModel rm c)
                         = getChildLinkModel (jointModel rm par))
     | None => bool_decide (getType (jointModel rm c) = type)
     end) = true ↔ attached rm type parent c).
  { unfold attached. destruct parent as [par|].
    - rewrite andb_true_iff, !bool_decide_eq_true. split.
      + intros [Ht Hl]. split; [done|]. by intros ? [= <-].
      + intros [Ht Hl]. split; [done|]. by apply Hl.
    - rewrite bool_decide_eq_true. split; [|by intros [? _]].
      intros Ht. split; [done|]. by intros ? [=]. }
  destruct (match parent with Some _ => _ | None => _ end) eqn:Efound.
  - exists [], cands. split; [done|]. split; [by apply Hdec|].
    intros k Hk. by apply elem_of_nil in Hk.
  - assert (¬ attached rm type parent c) as Hc.
    { intros Hc%Hdec. congruence. }
    destruct (getJointFrom rm type parent cands) as [j|].
    + destruct IH as (pre & post & -> & Hj & Hpre).
      exists (c :: pre), post. split; [done|]. split; [done|].
      intros k [->|Hk]%elem_of_cons; [done|by apply Hpre].
    + intros k [->|Hk]%elem_of_cons; [done|by apply IH].
Qed.

(** X1.  [getJoint] is a first-match search over [m_joints]: it answers
    null exactly when no listed joint passes the test, and a joint exactly
    when that joint passes it and no joint listed before it does. *)
Theorem getJoint_returns_the_first_match
    (joints : list JointPtr) (type : JointType) (parent : option JointPtr) :
  (getJoint rm joints type parent = None
   ↔ ∀ k, k ∈ joints → ¬ attached rm type parent k)
  ∧ ∀ j, getJoint rm joints type parent = Some j
         ↔ ∃ pre post, joints = pre ++ j :: post
             ∧ attached rm type parent j
             ∧ ∀ k, k ∈ pre → ¬ attached rm type parent k.
Proof.
  unfold getJoint.
  pose proof (getJointFrom_attached type parent joints) as Hspec.
  destruct (getJointFrom rm type parent joints) as [j0|].
  - destruct Hspec as (pre0 & post0 & Hsplit & Hj0 & Hpre0). split.
    + split; [done|]. intros Hnone. exfalso. apply (Hnone j0); [|done].
      rewrite Hsplit. apply elem_of_app. right. by left.
    + intros j. split.
      * intros [= <-]. by exists pre0, post0.
      * intros (pre & post & Hsplit' & Hj & Hpre). f_equal.
        (* two first matches of the same list coincide *)
        clear -Hsplit Hsplit' Hj0 Hpre0 Hj Hpre. subst joints.
        revert pre Hsplit' Hpre.
        induction pre0 as [|a pre0 IH]; intros [|b pre] Heq Hpre.
        -- by injection Heq.
        -- injection Heq as -> _. exfalso. apply (Hpre b); [by left|done].
        -- injection Heq as -> _. exfalso. apply (Hpre0 j); [by left|done].
        -- injection Heq as -> Heq. apply (IH ltac:(intros k Hk; apply Hpre0; by right) pre Heq).
           intros k Hk. apply Hpre. by right.
  - split.
    + done.
    + intros j. split; [done|].
      intros (pre & post & -> & Hj & _). exfalso. apply (Hspec j); [|done].
      apply elem_of_app. right. by left.
Qed.

(** X2.  [initialize] returns [false] exactly when the planning group is
    unknown, or it has other than one chain, or other than one tip frame is
    passed; in every other case it either returns [true] or runs into a null
    pointer. *)
Theorem initialize_refuses_exactly_bad_arguments
    (group_name base_frame : string) (tip_frames : list string)
    (search_discretization : double) :
  initialize rm group_name base_frame tip_frames search_discretization
  = Some None
  ↔ getJointModelGroup rm group_name = None
    ∨ ∃ group, getJointModelGroup rm group_name = Some group
               ∧ (length (chains_ group) ≠ 1%nat ∨ length tip_frames ≠ 1%nat).
Proof.
  unfold initialize.
  destruct (getJointModelGroup rm group_name) as [group|]; [|naive_solver].
  destruct (chains_ group) as [|chain [|chain' chains]] eqn:Echains.
  - split; [|done]. intros _. right. exists group. rewrite Echains. auto.
  - case_decide as Htips.
    + split; [|done]. intros _. right. exists group. auto.
    + set (joints := filter _ (getJointModels group)).
      split.
      * destruct (getJoint rm joints REVOLUTE (getJoint rm joints REVOLUTE None));
          [|done]. simpl.
        destruct (getJoint rm joints REVOLUTE (Some _)); [|done]. simpl.
        destruct (getJoint rm joints REVOLUTE (Some _)); done.
      * intros [|(group' & [= <-] & [Hc|Ht])]; [done| |done].
        rewrite Echains in Hc. done.
  - split; [|done]. intros _. right. exists group. rewrite Echains. simpl. auto.
Qed.

(** X3.  When [initialize] returns [true] the four member joints form a
    chain of revolute joints of the group: the mount is the first revolute
    joint listed, and shoulder, elbow and wrist are each attached to the child
    link of the joint before; [m_joints] holds the revolute and prismatic
    joints of the group in the group's order; the two arm vectors are the
    offsets between the child links in the default pose. *)
Theorem initialize_builds_the_arm_chain
    (group_name base_frame : string) (tip_frames : list string)
    (search_discretization : double) (p : IKPlugin) :
  initialize rm group_name base_frame tip_frames search_discretization
  = Some (Some p) →
  ∃ group mt sh el wr,
    getJointModelGroup rm group_name = Some group
    ∧ m_joints p
      = filter (λ j, getType (jointModel rm j) = REVOLUTE
                     ∨ getType (jointModel rm j) = PRISMATIC)
               (getJointModels group)
    ∧ m_pMountJoint p = Some mt ∧ m_pShoulderJoint p = Some sh
    ∧ m_pElbowJoint p = Some el ∧ m_pWristJoint p = Some wr
    ∧ getJoint rm (m_joints p) REVOLUTE None = Some mt
    ∧ attached rm REVOLUTE (Some mt) sh ∧ sh ∈ m_joints p
    ∧ attached rm REVOLUTE (Some sh) el ∧ el ∈ m_joints p
    ∧ attached rm REVOLUTE (Some el) wr ∧ wr ∈ m_joints p
    ∧ m_upperArm p
      = Eigen.sub (linkOrigin rm (childLink rm el))
                  (linkOrigin rm (childLink rm sh))
    ∧ m_forearm p
      = Eigen.sub (linkOrigin rm (childLink rm wr))
                  (linkOrigin rm (childLink rm el)).
Proof.
  unfold initialize.
  destruct (getJointModelGroup rm group_name) as [group|]; [|done].
  destruct (chains_ group) as [|chain [|? ?]]; [done| |done].
  case_decide; [done|].
  set (joints := filter _ (getJointModels group)).
  destruct (getJoint rm joints REVOLUTE None) as [mt|] eqn:Emt.
  2:{ rewrite Emt. done. }
  destruct (getJoint rm joints REVOLUTE (Some mt)) as [sh|] eqn:Esh; [|done].
  destruct (getJoint rm joints REVOLUTE (Some sh)) as [el|] eqn:Eel; [|done].
  destruct (getJoint rm joints REVOLUTE (Some el)) as [wr|] eqn:Ewr; [|done].
  simpl. intros [= <-]. simpl.
  exists group, mt, sh, el, wr.
  pose proof (getJointFrom_attached REVOLUTE (Some mt) joints) as Hsh.
  pose proof (getJointFrom_attached REVOLUTE (Some sh) joints) as Hel.
  pose proof (getJointFrom_attached REVOLUTE (Some el) joints) as Hwr.
  unfold getJoint in Esh, Eel, Ewr. rewrite Esh in Hsh. rewrite Eel in Hel.
  rewrite Ewr in Hwr.
  destruct Hsh as (? & ? & _ & ? & _), Hel as (? & ? & _ & ? & _),
    Hwr as (? & ? & _ & ? & _).
  apply getJointFrom_Some in Esh as [? _], Eel as [? _], Ewr as [? _].
  repeat (split; [done|]). done.
Qed.

(** X4.  A group that passes the argument checks but lists no revolute
    joint is not refused: [initialize] finds no shoulder joint and reads the
    child link through the null pointer. *)
Theorem initialize_faults_without_revolute_joints
    (group_name base_frame : string) (tip_frames : list string)
    (search_discretization : double) (group : JointModelGroup) :
  getJointModelGroup rm group_name = Some group →
  length (chains_ group) = 1%nat → length tip_frames = 1%nat →
  (∀ j, j ∈ getJointModels group → getType (jointModel rm j) ≠ REVOLUTE) →
  initialize rm group_name base_frame tip_frames search_discretization = None.
Proof.
  intros Hgroup Hchains Htips Hnone. unfold initialize. rewrite Hgroup.
  destruct (chains_ group) as [|chain [|? ?]]; [done| |done].
  case_decide; [done|].
  set (joints := filter _ (getJointModels group)).
  assert (∀ parent, getJoint rm joints REVOLUTE parent = None) as Hnull.
  { intros parent. unfold getJoint.
    destruct (getJointFrom rm REVOLUTE parent joints) as [k|] eqn:Ek; [|done].
    apply getJointFrom_Some in Ek as [Hk Ht]. subst joints.
    apply list_elem_of_filter in Hk as [_ Hk]. by destruct (Hnone k). }
  rewrite !Hnull. done.
Qed.

(** X5.  [initialize] does not test the tip link: when MoveIt knows no link
    by the stored tip frame, [m_pTipLink] stays null, [initialize] still
    returns [true], and every request that passes validation then reads the
    link transform through the null pointer. *)
Theorem null_tip_link_faults_every_valid_request
    (group_name base_frame : string) (tip_frames : list string)
    (search_discretization : double) (p : IKPlugin) (req : IKRequest) :
  initialize rm group_name base_frame tip_frames search_discretization
  = Some (Some p) →
  m_pTipLink p = None → validRequest p req →
  searchPositionIK p req = None.
Proof.
  intros Hinit Htip Hvalid.
  destruct (initialize_ready _ _ _ _ _ _ Hinit) as (_ & _ & mt & sh & el & wr & HR).
  destruct Hvalid as (Hseed & Hposes & Htips).
  unfold searchPositionIK. rewrite validateSeedState_spec. simpl.
  rewrite bool_decide_eq_true_2 by done. simpl.
  rewrite (proj2 (validateTarget_true p (ik_poses req))) by done. simpl.
  unfold locals. destruct (getTarget (ik_poses req)); [|done]. simpl.
  rewrite (ready_shoulder _ _ _ _ _ HR). simpl. rewrite Htip. done.
Qed.

End Lifecycle.
End Lifecycle.
(** ** The entry points of the solver *)

Module EntryPoints.
Import Ik Notions DoubleFacts IkFacts PluginFacts SolveFacts LengthFacts.

Section Lengths.
Context {libm : Libm} {moveit : MoveIt} {header : Header}.

(** X6.  A solve that returns [true] hands back exactly one entry per
    supported joint: the seed had that length, and no setter resizes the
    vector. *)
Theorem solution_has_one_entry_per_joint
    (p : IKPlugin) (req : IKRequest) (res : IKResult) :
  searchPositionIK p req = Some res → returned res = true →
  length (solution_out res) = length (m_joints p)
  ∧ length (ik_seed_state req) = length (m_joints p).
Proof.
  unfold searchPositionIK. rewrite validateSeedState_spec. simpl.
  case_bool_decide as Hseed; simpl; [|by intros [= <-]].
  destruct (validateTarget p (ik_poses req)); simpl; [|by intros [= <-]].
  destruct (locals p (ik_poses req)) as [l|]; [|done]. simpl.
  destruct (m_pShoulderJoint p) as [sh|]; [|done]. simpl.
  destruct (setJointStateVia _ _ _ _ _) as [s1|] eqn:Es1; [|done]. simpl.
  destruct (solveArm p l sh s1) as [s2|] eqn:Es2; [|done]. simpl.
  assert (length s1 = length (ik_seed_state req)) as Hs1.
  { unfold setJointStateVia in Es1. destruct (m_pMountJoint p).
    - by apply setJointState_length in Es1.
    - destruct (isnan _); [by injection Es1 as <-|done]. }
  apply solveArm_length in Es2.
  unfold returnSolution.
  destruct (solution_callback req); simpl.
  - destruct (head (ik_poses req)); [|done]. simpl. intros [= <-] _. simpl.
    split; [congruence|done].
  - intros [= <-] _. simpl. split; [congruence|done].
Qed.

End Lengths.

Section Initialized.
Context {libm : Libm} {moveit : MoveIt} {header : Header} {kb : KinematicsBase}.
Variables (rm : RobotModel) (group_name base_frame : string).
Variables (tip_frames : list string) (search_discretization : double).
Variable p : IKPlugin.
Hypothesis Hinit :
  initialize rm group_name base_frame tip_frames search_discretization
  = Some (Some p).

(** X7.  On an initialized plugin [getPositionIK] cannot be refused for its
    target: it always brings one pose to the one stored tip frame.  It returns
    [false] exactly when the seed has another length than [m_joints], then
    with [NO_IK_SOLUTION] and the solution vector as the caller passed it; in
    every other case it returns [true] with [SUCCESS], no callback being there
    to change the code, and one entry per joint. *)
Theorem getPositionIK_refuses_only_a_wrong_seed_length
    (ik_pose : Pose) (seed sol : list double) (ec : MoveItErrorCodes) :
  is_Some (m_pTipLink p) → mastersListed p →
  ∃ res,
    getPositionIK p ik_pose seed sol ec = Some res
    ∧ (returned res = false ↔ length seed ≠ length (m_joints p))
    ∧ (returned res = false →
       val (error_code_out res) = NO_IK_SOLUTION ∧ solution_out res = sol)
    ∧ (returned res = true →
       val (error_code_out res) = SUCCESS
       ∧ length (solution_out res) = length (m_joints p)).
Proof.
  intros Htip Hmasters.
  destruct (initialize_ready _ _ _ _ _ _ Hinit) as (_ & _ & mt & sh & el & wr & HR).
  unfold getPositionIK, searchPositionIK_pose. simpl.
  set (req := {| ik_poses := [ik_pose]; ik_seed_state := seed |}).
  destruct (decide (length seed = length (m_joints p))) as [Hlen|Hlen].
  - assert (validRequest p req) as Hvalid.
    { split; [done|]. split; [done|]. simpl. apply (ready_tips _ _ _ _ _ HR). }
    destruct (searchPositionIK_runs p mt sh el wr HR req Htip) as
      (l & s1 & s2 & ec' & Hl & Hs1 & Hlen1 & Hs2 & Hlen2 & Hrun); [..|done|].
    { apply Hmasters, HR. }
    { apply Hmasters, HR. }
    rewrite (searchPositionIK_valid p mt sh el wr req l HR Hvalid Hl) in Hrun |- *.
    rewrite Hs1. simpl. rewrite Hs2. simpl. unfold returnSolution. simpl.
    eexists. split; [done|]. simpl. split; [|split]; [split| |]; done.
  - rewrite searchPositionIK_refuses.
    2:{ intros [Hseed _]. done. }
    eexists. split; [done|]. simpl. split; [|split]; [split| |]; done.
Qed.

(** X8.  When a callback is installed the solver hands it the one pose and
    the finished solution together with the code [SUCCESS]; the code it
    leaves is the code the caller gets, and the call returns [true] whatever
    that code is. *)
Theorem callback_verdict_does_not_change_the_return
    (req : IKRequest)
    (callback : Pose → list double → MoveItErrorCodes → MoveItErrorCodes) :
  is_Some (m_pTipLink p) → mastersListed p → validRequest p req →
  solution_callback req = Some callback →
  ∃ res ik_pose,
    ik_poses req = [ik_pose]
    ∧ searchPositionIK p req = Some res
    ∧ returned res = true
    ∧ error_code_out res
      = callback ik_pose (solution_out res) {| val := SUCCESS |}.
Proof.
  intros Htip Hmasters Hvalid Hcb.
  destruct (initialize_ready _ _ _ _ _ _ Hinit) as (_ & _ & mt & sh & el & wr & HR).
  destruct (searchPositionIK_runs p mt sh el wr HR req Htip) as
    (l & s1 & s2 & ec' & Hl & Hs1 & Hlen1 & Hs2 & Hlen2 & Hrun); [..|done|].
  { apply Hmasters, HR. }
  { apply Hmasters, HR. }
  assert (∃ ik_pose, ik_poses req = [ik_pose]) as [ik_pose Hpose].
  { destruct Hvalid as (_ & Hone & _).
    destruct (ik_poses req) as [|q [|? ?]]; [done| |done]. by exists q. }
  rewrite (searchPositionIK_valid p mt sh el wr req l HR Hvalid Hl).
  rewrite Hs1. simpl. rewrite Hs2. simpl. unfold returnSolution.
  rewrite Hcb, Hpose. simpl.
  eexists _, ik_pose. split; [done|]. split; [done|]. simpl. done.
Qed.

End Initialized.
End EntryPoints.
(** ** Laws of the setters *)

Module SetterLaws.
Import Ik Notions DoubleFacts IkFacts VariantFacts LengthFacts LegacyFacts.

Section Laws.
Context {libm : Libm} {moveit : MoveIt}.
Context {kin : InverseKinematicsPlugin.KinematicState}.
Variable rm : RobotModel.
Variable joints : list JointPtr.

(** X9.  The setters locate a joint's slot with [find]: for a joint that is
    not in [m_joints] the index is [m_joints.size()], so on a vector of that
    size the write goes one past the end.  The two limit setters stay in range
    exactly for the listed joints, and [setJointState] with a number for a
    joint outside the list never does. *)
Theorem setters_stay_in_range_only_for_listed_joints
    (j : JointPtr) (states : list double) :
  length states = length joints →
  (is_Some (setJointMinState rm joints j states) ↔ j ∈ joints)
  ∧ (is_Some (setJointMaxState rm joints j states) ↔ j ∈ joints)
  ∧ (∀ a, isnan a = false → j ∉ joints →
          setJointState rm joints j a states = None).
Proof.
  intros Hlen.
  assert (∀ v, is_Some (store states (indexOf j joints) v) ↔ j ∈ joints) as Hstore.
  { intros v. unfold store. split.
    - case_decide as Hlt; [|by intros [? ?]]. intros _.
      apply indexOf_found. lia.
    - intros Hin%indexOf_lt. rewrite decide_True by lia. by eexists. }
  split; [apply Hstore|]. split; [apply Hstore|].
  intros a Ha Hout. unfold setJointState. rewrite Ha.
  destruct (getJointAxis _); [|done]. simpl.
  destruct (store states _ _) as [s1|] eqn:Es1; [|done].
  exfalso. apply Hout. eapply Hstore. by eexists.
Qed.

(** The loop over the mimic requests reads nothing from the slots it writes:
    started on another vector that agrees on every slot the loop leaves
    alone, it ends in the same vector. *)
Lemma updateOtherMimics_overwrites j ms reqs (s t s' : list double) :
  updateOtherMimics rm joints j ms reqs s = Some s' →
  length t = length s →
  (∀ i, (∀ r, r ∈ reqs → r ≠ j → r ∈ joints → indexOf r joints ≠ i) →
        t !! i = s !! i) →
  updateOtherMimics rm joints j ms reqs t = Some s'.
Proof.
  revert s t. induction reqs as [|r reqs IH]; intros s t; simpl.
  { intros [= <-] Hlen Hsame. f_equal. apply list_eq. intros i.
    apply Hsame. intros r Hr. by apply elem_of_nil in Hr. }
  case_decide as Hrj.
  { intros Hrun Hlen Hsame. apply (IH s t Hrun Hlen). intros i Hi.
    apply Hsame. intros r' [->|Hr']%elem_of_cons; [done|by apply Hi]. }
  case_decide as Hlisted.
  { intros Hrun Hlen Hsame. apply (IH s t Hrun Hlen). intros i Hi.
    apply Hsame. intros r' [->|Hr']%elem_of_cons; [|by apply Hi].
    intros _ Hin%indexOf_lt. lia. }
  destruct (store s _ _) as [s1|] eqn:Es1; [|done]. simpl.
  intros Hrun Hlen Hsame.
  destruct (store_inv _ _ _ _ Es1) as [Hlt ->].
  rewrite store_Some by lia. simpl.
  apply (IH _ _ Hrun).
  { by rewrite !length_insert. }
  intros i Hi.
  destruct (decide (indexOf r joints = i)) as [<-|Hne].
  - rewrite !list_lookup_insert_eq by lia. done.
  - rewrite !list_lookup_insert_ne by done. apply Hsame.
    intros r' [->|Hr']%elem_of_cons; [done|by apply Hi].
Qed.

(** Slots that no listed request other than the joint itself owns are left
    as they were. *)
Lemma updateOtherMimics_untouched j ms reqs (s s' : list double) i :
  updateOtherMimics rm joints j ms reqs s = Some s' →
  (∀ r, r ∈ reqs → r ≠ j → r ∈ joints → indexOf r joints ≠ i) →
  s' !! i = s !! i.
Proof.
  revert s. induction reqs as [|r reqs IH]; intros s; simpl.
  { by intros [= <-]. }
  case_decide as Hrj.
  { intros Hrun Hi. apply (IH s Hrun). intros r' Hr'. apply Hi. by right. }
  case_decide as Hlisted.
  { intros Hrun Hi. apply (IH s Hrun). intros r' Hr'. apply Hi. by right. }
  destruct (store s _ _) as [s1|] eqn:Es1; [|done]. simpl.
  intros Hrun Hi. rewrite (IH s1 Hrun).
  2:{ intros r' Hr'. apply Hi. by right. }
  apply (store_lookup_ne _ _ _ _ _ Es1).
  apply Hi; [by left|done|]. apply indexOf_found. done.
Qed.

(** X10.  [setJointState] is idempotent: every value it writes is computed
    from the angle and the joint model, none from the vector, so a second
    call with the same joint and angle leaves the vector as the first call
    left it. *)
Theorem setJointState_is_idempotent
    (j : JointPtr) (a : double) (states states' : list double) :
  setJointState rm joints j a states = Some states' →
  setJointState rm joints j a states' = Some states'.
Proof.
  unfold setJointState. destruct (isnan a); [by intros [= <-]|].
  destruct (getJointAxis _) as [axis|]; [|done]. simpl.
  destruct (store states _ _) as [s1|] eqn:Es1; [|done]. simpl.
  destruct (store_inv _ _ _ _ Es1) as [Hown ->].
  destruct (getMimic (jointModel rm j)) as [m|].
  2:{ intros [= <-]. rewrite store_Some by (by rewrite length_insert).
      simpl. by rewrite list_insert_insert_eq. }
  destruct (store _ (indexOf m joints) _) as [s2|] eqn:Es2; [|done]. simpl.
  destruct (store_inv _ _ _ _ Es2) as [Hmaster ->].
  rewrite length_insert in Hmaster.
  intros Hrun.
  pose proof (updateOtherMimics_length _ _ _ _ _ _ _ Hrun) as Hlen.
  rewrite !length_insert in Hlen.
  rewrite store_Some by lia. simpl.
  rewrite store_Some by (rewrite length_insert; lia). simpl.
  apply (updateOtherMimics_overwrites _ _ _ _ _ _ Hrun).
  { by rewrite !length_insert. }
  intros i Hi.
  destruct (decide (indexOf m joints = i)) as [<-|Hm].
  { rewrite !list_lookup_insert_eq by (rewrite length_insert; lia). done. }
  rewrite !(list_lookup_insert_ne _ (indexOf m joints)) by done.
  destruct (decide (indexOf j joints = i)) as [<-|Hj].
  { rewrite !list_lookup_insert_eq by lia. done. }
  rewrite !(list_lookup_insert_ne _ (indexOf j joints)) by done.
  rewrite (updateOtherMimics_untouched _ _ _ _ _ _ Hrun Hi).
  rewrite !list_lookup_insert_ne by done. done.
Qed.

(** X11.  [setJointState] of the earlier [src/ik.cpp] writes at most two
    slots, the joint's own and that of its mimic master: the other joints that
    mimic the same master are not brought along, and the vector keeps its
    size. *)
Theorem legacy_setJointState_writes_two_slots_at_most
    (j : JointPtr) (a : double) (states states' : list double) :
  IkLegacy.setJointState rm joints j a states = Some states' →
  length states' = length states
  ∧ ∀ i, i ≠ indexOf j joints →
         (∀ m, getMimic (jointModel rm j) = Some m → i ≠ indexOf m joints) →
         states' !! i = states !! i.
Proof.
  intros Hrun. split.
  - by destruct (legacy_setJointState_frame rm joints j a states states' Hrun).
  - intros i Hown Hmaster.
    destruct (legacy_setJointState_frame rm joints j a states states' Hrun)
      as [_ Hframe].
    by apply Hframe.
Qed.

(** X12.  [setJointState] of [inverseKinematicsPlugin.cpp] does not hold a
    joint on a NaN angle: it drives the joint to its upper limit.  For a joint
    without a master that is the only slot written, and the kinematic state is
    set to the same value. *)
Theorem plugin_setJointState_sends_NaN_to_the_upper_limit
    (j : JointPtr) (a : double) (states : list double)
    (kstate : InverseKinematicsPlugin.RobotStateObj) :
  isnan a = true → j ∈ joints → supported rm j →
  length states = length joints →
  (∀ m, getMimic (jointModel rm j) = Some m → m ∈ joints ∧ m ≠ j) →
  let upper := max_position (getVariableBoundsMsg (jointModel rm j)) in
  ∃ states' kstate',
    InverseKinematicsPlugin.setJointState rm joints j a states kstate
    = Some (states', kstate')
    ∧ states' !! indexOf j joints = Some upper
    ∧ (getMimic (jointModel rm j) = None →
       states' = <[indexOf j joints := upper]> states
       ∧ kstate'
         = InverseKinematicsPlugin.enforceBounds
             (InverseKinematicsPlugin.setJointPositions kstate j upper) j).
Proof.
  intros Ha Hin Hsup Hlen Hmaster upper.
  destruct (getMimic (jointModel rm j)) as [m|] eqn:Em.
  - destruct (Hmaster m eq_refl) as [Hm Hne].
    destruct (ikp_setJointState_mimic rm joints j m a states kstate
                Hin Hsup Em Hm Hlen) as (s' & k' & Hrun & _ & _ & Hown).
    exists s', k'. split; [done|]. split; [|done].
    rewrite Hown by done. unfold ikpJointStateOf. by rewrite Ha.
  - unfold InverseKinematicsPlugin.setJointState.
    rewrite getJointAxis_supported by done. simpl. rewrite Ha, Em.
    rewrite store_Some by (apply indexOf_lt in Hin; lia). simpl.
    eexists _, _. split; [done|]. split; [|done].
    apply list_lookup_insert_eq. apply indexOf_lt in Hin. lia.
Qed.

End Laws.
End SetterLaws.
(** ** The branch on the target distance *)

Module Envelope.
Import Ik Notions DoubleFacts NanFacts IkFacts PluginFacts SolveFacts.

Section Branches.
Context {libm : Libm} {moveit : MoveIt} {header : Header}.

(** The branch that solves the triangle is entered only when the
    target distance is neither above the upper nor below the lower reach, and
    then [clamp(targetNorm, reachableMinNorm, reachableMaxNorm)] is
    [targetNorm] itself: the clamp never changes the third side handed to
    [lawOfCosines], also when a distance is NaN. *)
Theorem triangle_branch_clamp_changes_nothing
    (p : IKPlugin) (l : Locals) (pShoulder : JointPtr) (sol : list double) :
  (reachableMaxNorm l <? targetNorm l) = false →
  (targetNorm l <? reachableMinNorm l) = false →
  clamp (targetNorm l) (reachableMinNorm l) (reachableMaxNorm l) = targetNorm l
  ∧ solveArm p l pShoulder sol
    = setJointState (robot_model_ p) (m_joints p) pShoulder
        (lawOfCosines (Eigen.norm (m_upperArm p)) (Eigen.norm (m_forearm p))
           (targetNorm l) - M_PI / 2)
        sol.
Proof.
  intros Hmax Hmin.
  assert (clamp (targetNorm l) (reachableMinNorm l) (reachableMaxNorm l)
          = targetNorm l) as Hclamp.
  { unfold clamp. by rewrite Hmin, Hmax. }
  split; [done|].
  unfold solveArm, shoulderJointAngle. by rewrite Hmax, Hmin, Hclamp.
Qed.

End Branches.

Section Initialized.
Context {libm : Libm} {moveit : MoveIt} {header : Header}.
Variables (rm : RobotModel) (group_name base_frame : string).
Variables (tip_frames : list string) (search_discretization : double).
Variable p : IKPlugin.
Hypothesis Hinit :
  initialize rm group_name base_frame tip_frames search_discretization
  = Some (Some p).

(** X13.  In the branch that solves the triangle the elbow angle is
    computed but not written: with the target inside the reach, the elbow
    slot of the returned vector is the seed's, unless the elbow is the mount
    or the shoulder or belongs to the mimic family of one of them. *)
Theorem triangle_branch_leaves_the_elbow_slot (req : IKRequest) :
  is_Some (m_pTipLink p) → mastersListed p → validRequest p req →
  ∃ l mt sh el res,
    locals p (ik_poses req) = Some l
    ∧ m_pMountJoint p = Some mt ∧ m_pShoulderJoint p = Some sh
    ∧ m_pElbowJoint p = Some el
    ∧ searchPositionIK p req = Some res
    ∧ ((reachableMaxNorm l <? targetNorm l) = false →
       (targetNorm l <? reachableMinNorm l) = false →
       el ∉ (mt :: mimicFamily rm mt) ++ (sh :: mimicFamily rm sh) →
       solution_out res !! indexOf el (m_joints p)
       = ik_seed_state req !! indexOf el (m_joints p)).
Proof.
  intros Htip Hmasters Hvalid.
  destruct (initialize_ready _ _ _ _ _ _ Hinit) as (Hrm & _ & mt & sh & el & wr & HR).
  destruct (searchPositionIK_runs p mt sh el wr HR req Htip) as
    (l & s1 & s2 & ec & Hl & Hs1 & Hlen1 & Hs2 & Hlen2 & Hrun); [..|done|].
  { apply Hmasters, HR. }
  { apply Hmasters, HR. }
  exists l, mt, sh, el. eexists. split; [done|].
  split; [apply HR|]. split; [apply HR|]. split; [apply HR|].
  split; [exact Hrun|]. simpl.
  intros Hmax Hmin Hout.
  assert (∀ w, w ∈ (mt :: mimicFamily rm mt) ++ (sh :: mimicFamily rm sh) →
               indexOf w (m_joints p) ≠ indexOf el (m_joints p)) as Hidx.
  { intros w Hw Heq. apply Hout.
    symmetry in Heq. apply indexOf_inj in Heq; [|apply HR]. by subst w. }
  rewrite (solveArm_inside p sh l s1 Hmax Hmin) in Hs2.
  rewrite (setJointState_frame _ _ _ _ _ _ _ Hs2).
  - rewrite (setJointState_frame _ _ _ _ _ _ _ Hs1); [done| |].
    + apply Hidx. apply elem_of_app. left. by left.
    + intros w Hw. apply Hidx. apply elem_of_app. left. right. by rewrite <- Hrm.
  - apply Hidx. apply elem_of_app. right. by left.
  - intros w Hw. apply Hidx. apply elem_of_app. right. right. by rewrite <- Hrm.
Qed.

(** X14.  A target whose x or y coordinate is NaN is not refused.  With a
    C library that answers NaN to NaN, the mount angle and the shoulder angle
    come out as NaN, [setJointState] returns twice without a write, and the
    call reports [SUCCESS] with the seed as the solution. *)
Theorem nan_target_is_reported_as_solved (req : IKRequest) (ik_pose : Pose) :
  is_Some (m_pTipLink p) → validRequest p req →
  ik_poses req = [ik_pose] → solution_callback req = None →
  isnan (Eigen.x (position ik_pose)) = true
  ∨ isnan (Eigen.y (position ik_pose)) = true →
  (∀ y x, isnan y = true ∨ isnan x = true → isnan (atan2 y x) = true) →
  (∀ x, isnan x = true → isnan (acos x) = true) →
  searchPositionIK p req
  = Some {| returned := true;
            solution_out := ik_seed_state req;
            error_code_out := {| val := SUCCESS |} |}.
Proof.
  intros [tip Htip] Hvalid Hpose Hcb Hnan Hatan2 Hacos.
  destruct (initialize_ready _ _ _ _ _ _ Hinit) as (Hrm & _ & mt & sh & el & wr & HR).
  pose proof (locals_ready p mt sh el wr (ik_poses req) ik_pose tip HR Htip Hpose)
    as Hl.
  simpl in Hl.
  rewrite (searchPositionIK_valid p mt sh el wr req _ HR Hvalid Hl).
  match type of Hl with _ = Some ?v => set (l := v) in * end.
  assert (isnan (Eigen.x (targetLocal l)) = true
          ∨ isnan (Eigen.y (targetLocal l)) = true) as Hlocal.
  { simpl. destruct Hnan as [H|H]; [left|right]; by apply sub_nan_l. }
  assert (isnan (mountJointAngle l) = true) as Hmount.
  { unfold mountJointAngle, getAngle. apply sub_nan_l, Hatan2.
    destruct Hlocal; auto. }
  assert (isnan (targetNorm l) = true) as Hnorm.
  { unfold targetNorm. by apply norm_nan. }
  rewrite setJointState_nan by done. simpl.
  rewrite (solveArm_inside p sh l).
  2:{ by apply ltb_nan_r. }
  2:{ by apply ltb_nan_l. }
  rewrite setJointState_nan.
  2:{ unfold shoulderJointAngle. apply sub_nan_l, Hacos.
      rewrite clamp_nan by done. unfold lawOfCosinesArg.
      by apply div_nan_l, sub_nan_r, mul_nan_l. }
  simpl. unfold returnSolution. rewrite Hcb. done.
Qed.

End Initialized.
End Envelope.
(** ** The earlier solver of [src/ik.cpp] *)

Module LegacySolve.
Import Notions DoubleFacts IkFacts PluginFacts LegacyFacts.
Import IkLegacy.

Section Initialized.
Context {libm : Libm} {moveit : MoveIt} {header : Header} {outside : Outside}.
Variables (rm : RobotModel) (group_name base_frame : string).
Variables (tip_frames : list string) (search_discretization : double).
Variable p : IKPlugin.
Hypothesis Hinit :
  initialize rm group_name base_frame tip_frames search_discretization = Some p.

Local Abbreviation joints := (m_joints p).
Local Abbreviation maxOf j := (max_position (getVariableBoundsMsg (jointModel rm j))).
Local Abbreviation minOf j := (min_position (getVariableBoundsMsg (jointModel rm j))).
Local Abbreviation slot j := (indexOf j (m_joints p)).

(** A limit setter or [setJointState] on a listed joint: what it leaves
    alone. *)
Lemma legacy_step_frame (step : list double → option (list double)) j
    (sol sol' : list double) :
  (step = Ik.setJointMinState rm joints j
   ∨ step = Ik.setJointMaxState rm joints j
   ∨ ∃ a, step = setJointState rm joints j a) →
  step sol = Some sol' →
  length sol' = length sol
  ∧ ∀ i, i ≠ slot j →
         (∀ m, getMimic (jointModel rm j) = Some m → i ≠ slot m) →
         sol' !! i = sol !! i.
Proof.
  intros [->|[->|[a ->]]] Hrun.
  - apply setJointMinState_inv in Hrun as [-> _]. split.
    + by rewrite length_insert.
    + intros i Hi _. by rewrite list_lookup_insert_ne.
  - apply setJointMaxState_inv in Hrun as [-> _]. split.
    + by rewrite length_insert.
    + intros i Hi _. by rewrite list_lookup_insert_ne.
  - eapply legacy_setJointState_frame. exact Hrun.
Qed.

Lemma legacy_step_total (step : list double → option (list double)) j
    (sol : list double) :
  (step = Ik.setJointMinState rm joints j
   ∨ step = Ik.setJointMaxState rm joints j
   ∨ ∃ a, step = setJointState rm joints j a) →
  j ∈ joints → supported rm j →
  (∀ m, getMimic (jointModel rm j) = Some m → m ∈ joints) →
  length sol = length joints →
  ∃ sol', step sol = Some sol' ∧ length sol' = length joints.
Proof.
  intros [->|[->|[a ->]]] Hin Hsup Hmaster Hlen.
  - rewrite setJointMinState_total by done. eexists. split; [done|].
    by rewrite length_insert.
  - rewrite setJointMaxState_total by done. eexists. split; [done|].
    by rewrite length_insert.
  - by apply legacy_setJointState_total.
Qed.

Lemma solveShoulder_is_a_step l target :
  let step := solveShoulder p l target in
  step = Ik.setJointMinState rm joints (pShoulderJoint l)
  ∨ step = Ik.setJointMaxState rm joints (pShoulderJoint l)
  ∨ ∃ a, step = setJointState rm joints (pShoulderJoint l) a.
Proof.
  destruct (legacy_initialized _ _ _ _ _ _ Hinit) as (Hrm & _).
  simpl. unfold solveShoulder. rewrite Hrm.
  destruct (_ <? _); [by left|]. destruct (_ <? _); [right; by left|].
  right. right. by eexists.
Qed.

Lemma solveElbow_is_a_step l target :
  let step := solveElbow p l target in
  step = Ik.setJointMinState rm joints (pElbowJoint l)
  ∨ step = Ik.setJointMaxState rm joints (pElbowJoint l)
  ∨ ∃ a, step = setJointState rm joints (pElbowJoint l) a.
Proof.
  destruct (legacy_initialized _ _ _ _ _ _ Hinit) as (Hrm & _).
  simpl. unfold solveElbow. rewrite Hrm.
  destruct (_ <? _); [by left|]. destruct (_ <? _); [right; by left|].
  right. right. by eexists.
Qed.

(** A request that passes validation, on a plugin that finds its joints:
    the three writes. *)
Lemma legacy_runs (req : Ik.IKRequest) (l : Locals) :
  length (Ik.ik_seed_state req) = length joints →
  length (Ik.ik_poses req) = 1%nat →
  locals p (Ik.ik_poses req) = Some l →
  (∀ j m, j ∈ [pMountJoint l; pShoulderJoint l; pElbowJoint l] →
          getMimic (jointModel rm j) = Some m → m ∈ joints) →
  ∃ axis sol1 sol2 sol3 res,
    Ik.getJointAxis (jointModel rm (pMountJoint l)) = Some axis
    ∧ setJointState rm joints (pMountJoint l) (mountJointAngle l)
        (Ik.ik_seed_state req) = Some sol1
    ∧ solveShoulder p l (targetLocal p l axis) sol1 = Some sol2
    ∧ solveElbow p l (targetLocal p l axis) sol2 = Some sol3
    ∧ searchPositionIK p req = Some res
    ∧ Ik.returned res = true ∧ Ik.solution_out res = sol3
    ∧ length sol3 = length joints.
Proof.
  intros Hseed Hposes Hl Hmasters.
  destruct (legacy_initialized _ _ _ _ _ _ Hinit) as (Hrm & _ & Htips & Hsup).
  destruct (legacy_locals_listed p _ l Hl) as (Hmt & Hsh & Hel).
  pose proof (getJointAxis_supported rm _ (Hsup _ Hmt)) as Haxis.
  destruct (legacy_setJointState_total rm joints (pMountJoint l)
              (mountJointAngle l) (Ik.ik_seed_state req))
    as (sol1 & Hs1 & Hlen1); [done|by apply Hsup| |done|].
  { intros m. apply Hmasters. by left. }
  set (target := targetLocal p l (getAxis (jointModel rm (pMountJoint l)))).
  destruct (legacy_step_total (solveShoulder p l target) (pShoulderJoint l) sol1)
    as (sol2 & Hs2 & Hlen2);
    [apply solveShoulder_is_a_step|done|by apply Hsup| |done|].
  { intros m. apply Hmasters. right. by left. }
  destruct (legacy_step_total (solveElbow p l target) (pElbowJoint l) sol2)
    as (sol3 & Hs3 & Hlen3);
    [apply solveElbow_is_a_step|done|by apply Hsup| |done|].
  { intros m. apply Hmasters. right. right. by left. }
  assert (∃ pose, Ik.ik_poses req = [pose]) as [pose Hpose].
  { destruct (Ik.ik_poses req) as [|q [|? ?]]; [done| |done]. by exists q. }
  assert (∃ res, Ik.returnSolution req sol3 = Some res
                 ∧ Ik.returned res = true ∧ Ik.solution_out res = sol3)
    as (res & Hres & Hret & Hout).
  { unfold Ik.returnSolution. rewrite Hpose.
    destruct (Ik.solution_callback req); simpl; by eexists. }
  exists (getAxis (jointModel rm (pMountJoint l))), sol1, sol2, sol3, res.
  split; [done|]. split; [done|]. split; [done|]. split; [done|].
  split; [|done].
  unfold searchPositionIK. rewrite legacy_validateSeedState_spec. simpl.
  rewrite bool_decide_eq_true_2 by done. simpl.
  rewrite (proj2 (legacy_validateTarget_true p (Ik.ik_poses req)))
    by (split; congruence).
  simpl. rewrite Hl. simpl. rewrite Hrm, Haxis. simpl. rewrite Hs1. simpl.
  fold target. rewrite Hs2. simpl. rewrite Hs3. simpl. done.
Qed.


(** How the three writes compose on slots outside the written ones. *)
Lemma legacy_frames (req : Ik.IKRequest) (l : Locals) axis sol1 sol2 sol3 i :
  setJointState rm joints (pMountJoint l) (mountJointAngle l)
    (Ik.ik_seed_state req) = Some sol1 →
  solveShoulder p l (targetLocal p l axis) sol1 = Some sol2 →
  solveElbow p l (targetLocal p l axis) sol2 = Some sol3 →
  (∀ j, j ∈ [pMountJoint l; pShoulderJoint l; pElbowJoint l] →
        i ≠ slot j
        ∧ ∀ m, getMimic (jointModel rm j) = Some m → i ≠ slot m) →
  sol3 !! i = Ik.ik_seed_state req !! i.
Proof.
  intros Hs1 Hs2 Hs3 Hout.
  destruct (legacy_step_frame _ _ _ _ (solveElbow_is_a_step l _) Hs3) as [_ ->].
  2:{ apply Hout. right. right. by left. }
  2:{ apply Hout. right. right. by left. }
  destruct (legacy_step_frame _ _ _ _ (solveShoulder_is_a_step l _) Hs2) as [_ ->].
  2:{ apply Hout. right. by left. }
  2:{ apply Hout. right. by left. }
  destruct (legacy_setJointState_frame rm joints _ _ _ _ Hs1) as [_ ->]; [done| |].
  - apply Hout. by left.
  - apply Hout. by left.
Qed.

(** X15.  The earlier solver of [src/ik.cpp] picks a joint limit by the
    target in the frame of the turned shoulder link, not by its distance:
    a request that passes validation returns true; the elbow slot of the
    result is the elbow's [min_position] when the target's y lies below
    [MIN_TARGET_OFFSET] and its [max_position] when y lies above
    [MAX_TARGET_OFFSET]; the shoulder slot is the shoulder's [min_position]
    when z lies below [MIN_TARGET_HEIGHT] and its [max_position] when z lies
    above [MAX_TARGET_HEIGHT], provided the elbow write that follows does not
    land on the shoulder slot.  The masters of the three joints are listed
    joints. *)
Theorem legacy_thresholds_pick_the_limits (req : Ik.IKRequest) (l : Locals) :
  length (Ik.ik_seed_state req) = length joints →
  length (Ik.ik_poses req) = 1%nat →
  locals p (Ik.ik_poses req) = Some l →
  (∀ j m, j ∈ [pMountJoint l; pShoulderJoint l; pElbowJoint l] →
          getMimic (jointModel rm j) = Some m → m ∈ joints) →
  ∃ axis res,
    Ik.getJointAxis (jointModel rm (pMountJoint l)) = Some axis
    ∧ searchPositionIK p req = Some res
    ∧ Ik.returned res = true
    ∧ ((Eigen.y (targetLocal p l axis) <? MIN_TARGET_OFFSET) = true →
       Ik.solution_out res !! slot (pElbowJoint l)
       = Some (minOf (pElbowJoint l)))
    ∧ ((Eigen.y (targetLocal p l axis) <? MIN_TARGET_OFFSET) = false →
       (MAX_TARGET_OFFSET <? Eigen.y (targetLocal p l axis)) = true →
       Ik.solution_out res !! slot (pElbowJoint l)
       = Some (maxOf (pElbowJoint l)))
    ∧ (pShoulderJoint l ≠ pElbowJoint l →
       getMimic (jointModel rm (pElbowJoint l)) ≠ Some (pShoulderJoint l) →
       ((Eigen.z (targetLocal p l axis) <? MIN_TARGET_HEIGHT) = true →
        Ik.solution_out res !! slot (pShoulderJoint l)
        = Some (minOf (pShoulderJoint l)))
       ∧ ((Eigen.z (targetLocal p l axis) <? MIN_TARGET_HEIGHT) = false →
          (MAX_TARGET_HEIGHT <? Eigen.z (targetLocal p l axis)) = true →
          Ik.solution_out res !! slot (pShoulderJoint l)
          = Some (maxOf (pShoulderJoint l)))).
Proof.
  intros Hseed Hposes Hl Hmasters.
  destruct (legacy_runs req l Hseed Hposes Hl Hmasters)
    as (axis & sol1 & sol2 & sol3 & res & Haxis & Hs1 & Hs2 & Hs3 & Hrun
        & Hret & Hout & Hlen3).
  destruct (legacy_initialized _ _ _ _ _ _ Hinit) as (Hrm & _).
  destruct (legacy_locals_listed p _ l Hl) as (Hmt & Hsh & Hel).
  destruct (legacy_step_frame _ _ _ _ (solveElbow_is_a_step l _) Hs3)
    as [Hlen32 Hframe].
  assert (length sol2 = length joints) as Hlen2 by congruence.
  destruct (legacy_step_frame _ _ _ _ (solveShoulder_is_a_step l _) Hs2)
    as [Hlen21 _].
  assert (length sol1 = length joints) as Hlen1 by congruence.
  pose proof (indexOf_lt _ _ Hel) as Hiel.
  pose proof (indexOf_lt _ _ Hsh) as Hish.
  exists axis, res. rewrite Hout.
  split; [done|]. split; [done|]. split; [done|].
  split; [|split].
  - intros Hlow. unfold solveElbow in Hs3. rewrite Hlow, Hrm in Hs3.
    apply setJointMinState_inv in Hs3 as [-> _].
    apply list_lookup_insert_eq. by first [done|lia].
  - intros Hlow Hhigh. unfold solveElbow in Hs3. rewrite Hlow, Hhigh, Hrm in Hs3.
    apply setJointMaxState_inv in Hs3 as [-> _].
    apply list_lookup_insert_eq. by first [done|lia].
  - intros Hne Hmimic.
    assert (sol3 !! slot (pShoulderJoint l) = sol2 !! slot (pShoulderJoint l))
      as ->.
    { apply Hframe.
      - intros Heq. apply indexOf_inj in Heq; done.
      - intros m Hm Heq. apply indexOf_inj in Heq; [|done]. congruence. }
    split.
    + intros Hlow. unfold solveShoulder in Hs2. rewrite Hlow, Hrm in Hs2.
      apply setJointMinState_inv in Hs2 as [-> _].
      apply list_lookup_insert_eq. by first [done|lia].
    + intros Hlow Hhigh. unfold solveShoulder in Hs2.
      rewrite Hlow, Hhigh, Hrm in Hs2.
      apply setJointMaxState_inv in Hs2 as [-> _].
      apply list_lookup_insert_eq. by first [done|lia].
Qed.

(** X16.  The earlier solver writes the slots of the mount, the shoulder
    and the elbow and of their masters, and nothing else: on a request that
    passes validation the result has one entry per listed joint and every
    other slot, the wrist's among them, holds the seed's value.  Joints that
    mimic a written joint are not brought along. *)
Theorem legacy_other_slots_keep_the_seed (req : Ik.IKRequest) (l : Locals) :
  length (Ik.ik_seed_state req) = length joints →
  length (Ik.ik_poses req) = 1%nat →
  locals p (Ik.ik_poses req) = Some l →
  (∀ j m, j ∈ [pMountJoint l; pShoulderJoint l; pElbowJoint l] →
          getMimic (jointModel rm j) = Some m → m ∈ joints) →
  ∃ res,
    searchPositionIK p req = Some res
    ∧ Ik.returned res = true
    ∧ length (Ik.solution_out res) = length joints
    ∧ ∀ i,
        (∀ j, j ∈ [pMountJoint l; pShoulderJoint l; pElbowJoint l] →
              i ≠ slot j
              ∧ ∀ m, getMimic (jointModel rm j) = Some m → i ≠ slot m) →
        Ik.solution_out res !! i = Ik.ik_seed_state req !! i.
Proof.
  intros Hseed Hposes Hl Hmasters.
  destruct (legacy_runs req l Hseed Hposes Hl Hmasters)
    as (axis & sol1 & sol2 & sol3 & res & Haxis & Hs1 & Hs2 & Hs3 & Hrun
        & Hret & Hout & Hlen3).
  exists res. rewrite Hout. split; [done|]. split; [done|]. split; [done|].
  intros i Hi. by eapply legacy_frames.
Qed.

(** X17.  The earlier solver reads
    [pElbowJoint->getDescendantJointModels().front()] without a check: on an
    arm whose chain of revolute joints ends before the elbow, or whose elbow
    has no joint behind it, every request that passes validation runs into
    a fault. *)
Theorem legacy_solver_needs_a_joint_behind_the_elbow (req : Ik.IKRequest) :
  length (Ik.ik_seed_state req) = length joints →
  length (Ik.ik_poses req) = 1%nat →
  (∀ pElbowJoint,
     Ik.getJoint rm joints REVOLUTE
       (Ik.getJoint rm joints REVOLUTE (Ik.getJoint rm joints REVOLUTE None))
     = Some pElbowJoint →
     getDescendantJointModels (jointModel rm pElbowJoint) = []) →
  searchPositionIK p req = None.
Proof.
  intros Hseed Hposes Hlast.
  destruct (legacy_initialized _ _ _ _ _ _ Hinit) as (Hrm & _ & Htips & Hsup).
  unfold searchPositionIK. rewrite legacy_validateSeedState_spec. simpl.
  rewrite bool_decide_eq_true_2 by done. simpl.
  rewrite (proj2 (legacy_validateTarget_true p (Ik.ik_poses req)))
    by (split; congruence).
  simpl. unfold locals. rewrite Hrm.
  destruct (getTipLink p); [|done]. simpl.
  destruct (Ik.getTarget _); [|done]. simpl.
  destruct (Ik.getJoint rm joints REVOLUTE
              (Ik.getJoint rm joints REVOLUTE None)) as [sh|] eqn:Esh;
    [|done]. simpl.
  destruct (Ik.getJoint rm joints REVOLUTE (Some sh)) as [el|] eqn:Eel;
    [|done]. simpl.
  by rewrite (Hlast el).
Qed.

End Initialized.
End LegacySolve.
(** ** The solver entry of [inverseKinematicsPlugin.cpp] *)

Module PluginSolve.
Import Notions DoubleFacts IkFacts VariantFacts PluginFacts.
Import InverseKinematicsPlugin.

(** Finds a joint in a list written out. *)
Ltac member := repeat first [left | right].

Section Plugin.
Context {kin : KinematicState} {queries : KinematicQueries} {solver : Solver}.

Lemma plugin_validateSeedState_spec p seed :
  validateSeedState p seed
  = Some (bool_decide (length seed = length (m_joints p))).
Proof.
  unfold validateSeedState. case_decide as Hlen.
  - by rewrite bool_decide_eq_false_2.
  - rewrite bool_decide_eq_true_2 by done.
    match goal with |- context [mapM ?f ?l] =>
      destruct (mapM_is_Some_2 f l) as [k ->]; [|done] end.
    apply Forall_forall. intros i Hi%elem_of_seq. simpl.
    destruct (lookup_lt_is_Some_2 (m_joints p) i) as [pj ->]; [lia|].
    destruct (lookup_lt_is_Some_2 seed i) as [v ->]; [lia|]. by eexists.
Qed.

Lemma plugin_validateTarget_true p poses :
  validateTarget p poses = true ↔
  length poses = 1%nat ∧ length (tip_frames_ p) = length poses.
Proof.
  unfold validateTarget. rewrite negb_true_iff, orb_false_iff.
  rewrite !bool_decide_eq_false. split; intros [H1 H2]; split;
    first [by apply dec_stable | naive_solver].
Qed.

(** A joint without a master: one slot and the kinematic state change. *)
Lemma plugin_setJointState_free rm joints j a states kstate :
  j ∈ joints → supported rm j → getMimic (jointModel rm j) = None →
  length states = length joints →
  setJointState rm joints j a states kstate
  = Some (<[indexOf j joints := ikpJointStateOf rm j a]> states,
          enforceBounds
            (setJointPositions kstate j (ikpJointStateOf rm j a)) j).
Proof.
  intros Hin Hsup Hfree Hlen. unfold setJointState.
  rewrite getJointAxis_supported by done. simpl. rewrite Hfree.
  rewrite store_Some by (apply indexOf_lt in Hin; lia). done.
Qed.

Lemma ikpJointStateOf_within rm j a :
  (min_position (getVariableBoundsMsg (jointModel rm j))
   <=? max_position (getVariableBoundsMsg (jointModel rm j))) = true →
  within (min_position (getVariableBoundsMsg (jointModel rm j)))
         (max_position (getVariableBoundsMsg (jointModel rm j)))
         (ikpJointStateOf rm j a) = true.
Proof.
  intros Hord. unfold ikpJointStateOf. destruct (isnan a) eqn:Ha.
  - by apply within_upper.
  - by apply clamp_within.
Qed.


Section Initialized.
Variables (rm : RobotModel) (group_name base_frame : string).
Variables (tip_frames : list string) (search_discretization : double).
Variables (positionOnlyParam debugParam : option bool).
Variables (p : IKPlugin) (kstate0 : RobotStateObj).
Hypothesis Hinit :
  initialize rm group_name base_frame tip_frames search_discretization
    positionOnlyParam debugParam
  = Some (p, kstate0).

Lemma plugin_initialized :
  robot_model_ p = rm
  ∧ length (tip_frames_ p) = 1%nat
  ∧ (∀ j, j ∈ m_joints p → supported rm j)
  ∧ (∀ parent j, Ik.getJoint rm (m_joints p) REVOLUTE parent = Some j →
                 j ∈ m_joints p)
  ∧ m_pBaseJoint p = Ik.getJoint rm (m_joints p) REVOLUTE None
  ∧ m_pShoulderJoint p = Ik.getJoint rm (m_joints p) REVOLUTE (m_pBaseJoint p)
  ∧ m_pElbowJoint p = Ik.getJoint rm (m_joints p) REVOLUTE (m_pShoulderJoint p)
  ∧ m_pWristJoint p = Ik.getJoint rm (m_joints p) REVOLUTE (m_pElbowJoint p).
Proof.
  revert Hinit. unfold initialize.
  destruct (getJointModelGroup rm group_name) as [group|]; [|done].
  destruct (chains_ group) as [|chain [|? ?]]; [done| |done].
  case_decide; [done|]. intros [= <- _]. simpl.
  repeat (split; [done|]). split.
  - intros j Hj. by apply list_elem_of_filter in Hj as [Hsup _].
  - split; [|done]. intros parent j Hj.
    by apply getJointFrom_Some in Hj as [? _].
Qed.

(** X19.  [initialize] of this plugin never reads through the joints it
    looks up, so a group without a revolute joint is accepted with a null
    base joint; every request that passes validation then faults in
    [getOrigin]. *)
Theorem plugin_without_base_joint_faults_every_valid_request
    (kstate : RobotStateObj) (req : Ik.IKRequest) :
  m_pBaseJoint p = None →
  length (Ik.ik_seed_state req) = length (m_joints p) →
  length (Ik.ik_poses req) = 1%nat →
  searchPositionIK p kstate req = None.
Proof.
  intros Hbase Hseed Hposes.
  destruct plugin_initialized as (_ & Htips & _).
  unfold searchPositionIK. rewrite plugin_validateSeedState_spec. simpl.
  rewrite bool_decide_eq_true_2 by done. simpl.
  rewrite (proj2 (plugin_validateTarget_true p (Ik.ik_poses req))) by (split; congruence).
  simpl. unfold getOrigin. rewrite Hbase. done.
Qed.

Variables (b sh el wr : JointPtr).
Hypothesis Hbase : m_pBaseJoint p = Some b.
Hypothesis Hshoulder : m_pShoulderJoint p = Some sh.
Hypothesis Helbow : m_pElbowJoint p = Some el.
Hypothesis Hwrist : m_pWristJoint p = Some wr.
Hypothesis Hfree :
  ∀ j, j ∈ [b; sh; el; wr] → getMimic (jointModel rm j) = None.

Local Abbreviation joints := (m_joints p).
Local Abbreviation maxOf j := (max_position (getVariableBoundsMsg (jointModel rm j))).
Local Abbreviation minOf j := (min_position (getVariableBoundsMsg (jointModel rm j))).

Lemma plugin_arm_listed j : j ∈ [b; sh; el; wr] → j ∈ joints ∧ supported rm j.
Proof.
  destruct plugin_initialized as (_ & _ & Hsup & Hin & Eb & Es & Ee & Ew).
  intros Hj.
  assert (j ∈ joints) as Hlisted.
  { repeat (apply elem_of_cons in Hj as [->|Hj]).
    - apply (Hin None). congruence.
    - apply (Hin (m_pBaseJoint p)). congruence.
    - apply (Hin (m_pShoulderJoint p)). congruence.
    - apply (Hin (m_pElbowJoint p)). congruence.
    - by apply elem_of_nil in Hj. }
  split; [done|by apply Hsup].
Qed.

(** The four writes of a solve on an arm without mimic joints. *)
Lemma plugin_solve_runs kstate req :
  length (Ik.ik_seed_state req) = length joints →
  length (Ik.ik_poses req) = 1%nat →
  ∃ a1 a2 a3 a4 res kstate',
    searchPositionIK p kstate req = Some (res, kstate')
    ∧ Ik.returned res = true
    ∧ Ik.solution_out res
      = <[indexOf wr joints := ikpJointStateOf rm wr a4]>
          (<[indexOf el joints := ikpJointStateOf rm el a3]>
             (<[indexOf sh joints := ikpJointStateOf rm sh a2]>
                (<[indexOf b joints := ikpJointStateOf rm b a1]>
                   (resize (length joints) 0 (Ik.solution req))))).
Proof.
  intros Hseed Hposes.
  destruct plugin_initialized as (Hrm & Htips & _).
  assert (∃ pose, Ik.ik_poses req = [pose]) as [pose Hpose].
  { destruct (Ik.ik_poses req) as [|q [|? ?]]; [done| |done]. by exists q. }
  unfold searchPositionIK. rewrite plugin_validateSeedState_spec. simpl.
  rewrite bool_decide_eq_true_2 by done. simpl.
  rewrite (proj2 (plugin_validateTarget_true p (Ik.ik_poses req))) by (split; congruence).
  simpl. unfold getOrigin. rewrite Hbase. simpl.
  set (origin := Eigen.translation _).
  set (angles := if m_positionOnly p then _ else _).
  assert (∃ A, angles = Some A) as [A ->].
  { subst angles. unfold getGoalPosition, getGoal. rewrite Hpose. simpl.
    destruct (m_positionOnly p); by eexists. }
  simpl. unfold setJointStateVia. rewrite Hshoulder, Helbow, Hwrist, Hrm. simpl.
  destruct (plugin_arm_listed b) as [? ?]; [member|].
  destruct (plugin_arm_listed sh) as [? ?]; [member|].
  destruct (plugin_arm_listed el) as [? ?]; [member|].
  destruct (plugin_arm_listed wr) as [? ?]; [member|].
  rewrite plugin_setJointState_free; [|done|done|apply Hfree; member|].
  2:{ by rewrite length_resize. }
  simpl.
  rewrite plugin_setJointState_free; [|done|done|apply Hfree; member|].
  2:{ by rewrite length_insert, length_resize. }
  simpl.
  rewrite plugin_setJointState_free; [|done|done|apply Hfree; member|].
  2:{ by rewrite !length_insert, length_resize. }
  simpl.
  rewrite plugin_setJointState_free; [|done|done|apply Hfree; member|].
  2:{ by rewrite !length_insert, length_resize. }
  simpl.
  exists (coeff A BASE), (coeff A SHOULDER), (coeff A ELBOW), (coeff A WRIST).
  destruct (Ik.solution_callback req) as [cb|]; simpl.
  - rewrite Hpose. simpl. eexists _, _. split; [done|]. split; done.
  - eexists _, _. split; [done|]. split; done.
Qed.

(** X20.  On an arm whose four joints are no mimic joints and have their
    limits in order, a request that passes validation is answered [true], and
    the four arm slots of the solution lie within the limits of their joints
    whatever angles the solver produced, NaN included: a number is clamped and
    NaN becomes the upper limit. *)
Theorem plugin_arm_slots_end_within_limits
    (kstate : RobotStateObj) (req : Ik.IKRequest) :
  (∀ j, j ∈ [b; sh; el; wr] → (minOf j <=? maxOf j) = true) →
  length (Ik.ik_seed_state req) = length joints →
  length (Ik.ik_poses req) = 1%nat →
  ∃ res kstate',
    searchPositionIK p kstate req = Some (res, kstate')
    ∧ Ik.returned res = true
    ∧ length (Ik.solution_out res) = length joints
    ∧ ∀ j, j ∈ [b; sh; el; wr] →
        ∃ v, Ik.solution_out res !! indexOf j joints = Some v
             ∧ within (minOf j) (maxOf j) v = true.
Proof.
  intros Hord Hseed Hposes.
  destruct (plugin_solve_runs kstate req Hseed Hposes) as
    (a1 & a2 & a3 & a4 & res & k' & Hrun & Hret & Hsol).
  exists res, k'. split; [done|]. split; [done|].
  split. { by rewrite Hsol, !length_insert, length_resize. }
  intros j Hj. rewrite Hsol.
  destruct (plugin_arm_listed j Hj) as [Hlisted _].
  pose proof (indexOf_lt _ _ Hlisted) as Hlt.
  assert (∀ k a, k ∈ [b; sh; el; wr] → indexOf k joints = indexOf j joints →
                 within (minOf j) (maxOf j) (ikpJointStateOf rm k a) = true)
    as Hsame.
  { intros k a Hk Heq. destruct (plugin_arm_listed k Hk) as [Hkl _].
    apply indexOf_inj in Heq; [|done]. subst k.
    apply ikpJointStateOf_within, Hord, Hj. }
  destruct (decide (indexOf wr joints = indexOf j joints)) as [E4|N4].
  { rewrite E4, list_lookup_insert_eq by (by rewrite !length_insert, length_resize).
    eexists. split; [done|]. apply Hsame; [member|done]. }
  rewrite list_lookup_insert_ne by done.
  destruct (decide (indexOf el joints = indexOf j joints)) as [E3|N3].
  { rewrite E3, list_lookup_insert_eq by (by rewrite !length_insert, length_resize).
    eexists. split; [done|]. apply Hsame; [member|done]. }
  rewrite list_lookup_insert_ne by done.
  destruct (decide (indexOf sh joints = indexOf j joints)) as [E2|N2].
  { rewrite E2, list_lookup_insert_eq by (by rewrite !length_insert, length_resize).
    eexists. split; [done|]. apply Hsame; [member|done]. }
  rewrite list_lookup_insert_ne by done.
  destruct (decide (indexOf b joints = indexOf j joints)) as [E1|N1].
  { rewrite E1, list_lookup_insert_eq by (by rewrite length_resize).
    eexists. split; [done|]. apply Hsame; [member|done]. }
  exfalso. repeat (apply elem_of_cons in Hj as [->|Hj]); try done.
  by apply elem_of_nil in Hj.
Qed.

(** X21.  This solver does not start from the seed.  On the same arm, every
    slot that belongs to none of the four arm joints is returned as the
    caller's solution vector held it on entry, or as [0.0] where that vector
    was shorter than the joint list. *)
Theorem plugin_other_slots_come_from_the_callers_vector
    (kstate : RobotStateObj) (req : Ik.IKRequest) :
  length (Ik.ik_seed_state req) = length joints →
  length (Ik.ik_poses req) = 1%nat →
  ∃ res kstate',
    searchPositionIK p kstate req = Some (res, kstate')
    ∧ ∀ i, i < length joints →
           (∀ j, j ∈ [b; sh; el; wr] → indexOf j joints ≠ i) →
           (i < length (Ik.solution req) →
            Ik.solution_out res !! i = Ik.solution req !! i)
           ∧ (length (Ik.solution req) ≤ i →
              Ik.solution_out res !! i = Some 0).
Proof.
  intros Hseed Hposes.
  destruct (plugin_solve_runs kstate req Hseed Hposes) as
    (a1 & a2 & a3 & a4 & res & k' & Hrun & Hret & Hsol).
  exists res, k'. split; [done|].
  intros i Hi Hout. rewrite Hsol.
  rewrite !list_lookup_insert_ne by (apply Hout; member).
  split.
  - intros Hin. by rewrite lookup_resize by first [done|lia].
  - intros Hpast. by rewrite lookup_resize_new by first [done|lia].
Qed.

End Initialized.
End Plugin.
End PluginSolve.
(** ** The hardware interface node *)

Module HardwareFacts.
Import DoubleFacts NanFacts Hardware.

Lemma push_back_lookup groups name (c : controller) k :
  default [] (push_back groups name c !! k)
  = default [] (groups !! k) ++ (if decide (name = k) then [c] else []).
Proof.
  unfold push_back. case_decide as Hk.
  - subst k. by rewrite lookup_insert_eq.
  - rewrite lookup_insert_ne by done. by rewrite app_nil_r.
Qed.

Lemma groupControllers_ok (loaded : list controller) groups :
  (∀ c, c ∈ loaded → Controller.configure c = true) →
  ∃ groups',
    groupControllers loaded groups = (true, groups')
    ∧ ∀ name,
        default [] (groups' !! name)
        = default [] (groups !! name)
          ++ filter (λ c, Controller.getParentName c = name) loaded.
Proof.
  revert groups. induction loaded as [|c loaded IH]; intros groups Hok; simpl.
  { exists groups. split; [done|]. intros name. by rewrite app_nil_r. }
  rewrite (Hok c) by (by left). simpl.
  destruct (IH (push_back groups (Controller.getParentName c) c)) as
    (groups' & Hrun & Hgroups).
  { intros c' Hc'. apply Hok. by right. }
  exists groups'. split; [done|]. intros name.
  rewrite Hgroups, push_back_lookup, filter_cons.
  case_decide.
  - by rewrite <- app_assoc.
  - by rewrite app_nil_r.
Qed.

Lemma groupControllers_stops (pre : list controller) (c : controller)
    (post : list controller) groups :
  (∀ c', c' ∈ pre → Controller.configure c' = true) →
  Controller.configure c = false →
  groupControllers (pre ++ c :: post) groups
  = (false, (groupControllers pre groups).2).
Proof.
  revert groups. induction pre as [|a pre IH]; intros groups Hpre Hc; simpl.
  { by rewrite Hc. }
  rewrite (Hpre a) by (by left). simpl. apply IH; [|done].
  intros c' Hc'. apply Hpre. by right.
Qed.

(** X22.  [hardware::configure] gives up at the first controller whose
    [configure] fails, and not cleanly: it returns [false] with the
    controllers before that one already sorted into their groups and
    [m_controllers] replaced; the limits are as before. *)
Theorem configure_fails_with_the_groups_half_built
    (hw : hardware) (pre post : list controller) (c : controller)
    (description : option (string → option JointLimits)) :
  (∀ c', c' ∈ pre → Controller.configure c' = true) →
  Controller.configure c = false →
  ∃ hw',
    configure hw (pre ++ c :: post) description = (false, hw')
    ∧ m_controllers hw' = pre ++ c :: post
    ∧ m_limits hw' = m_limits hw
    ∧ ∀ name,
        default [] (m_groups hw' !! name)
        = default [] (m_groups hw !! name)
          ++ filter (λ c', Controller.getParentName c' = name) pre.
Proof.
  intros Hpre Hc. unfold configure.
  rewrite (groupControllers_stops pre c post (m_groups hw) Hpre Hc).
  destruct (groupControllers_ok pre (m_groups hw) Hpre) as (groups' & Hrun & Hgroups).
  rewrite Hrun. simpl. eexists. split; [done|]. split; [done|]. split; [done|].
  exact Hgroups.
Qed.

Lemma loadLimits_spec urdf (loaded : list controller) limits name :
  loadLimits urdf loaded limits name
  = if existsb (λ c, (ofType solenoid c || ofType motor c)
                     && bool_decide (Controller.getParentName c = name)) loaded
    then default noLimits (urdf name) else limits name.
Proof.
  revert limits. induction loaded as [|c loaded IH]; intros limits; simpl; [done|].
  destruct (ofType solenoid c || ofType motor c) eqn:Etype; simpl.
  - rewrite IH. case_bool_decide as Hname; simpl.
    + subst name. destruct (existsb _ loaded); [done|].
      by rewrite fn_lookup_insert.
    + destruct (existsb _ loaded); [done|]. by rewrite fn_lookup_insert_ne.
  - by rewrite IH.
Qed.

(** X23.  When every controller answers [true] to [configure], so does
    [hardware::configure], and it has sorted the controllers into the groups
    of their parent names: each group holds what it held before, followed by
    the loaded controllers of that parent in the order in which they were
    loaded.  With a robot description at hand, the limits of a joint are those
    of the description exactly when a solenoid or a motor has that joint for
    parent, the zeros of a default-constructed [JointLimits] where the
    description gives none; every other name, and every name when there is no
    description, keeps the limits it had. *)
Theorem configure_groups_controllers_by_parent
    (hw : hardware) (loaded : list controller)
    (description : option (string → option JointLimits)) :
  (∀ c, c ∈ loaded → Controller.configure c = true) →
  ∃ hw',
    configure hw loaded description = (true, hw')
    ∧ m_controllers hw' = loaded
    ∧ (∀ name,
         default [] (m_groups hw' !! name)
         = default [] (m_groups hw !! name)
           ++ filter (λ c, Controller.getParentName c = name) loaded)
    ∧ (∀ name,
         m_limits hw' name
         = match description with
           | Some urdf =>
               if existsb (λ c, (ofType solenoid c || ofType motor c)
                                && bool_decide (Controller.getParentName c = name))
                          loaded
               then default noLimits (urdf name)
               else m_limits hw name
           | None => m_limits hw name
           end).
Proof.
  intros Hok. unfold configure.
  destruct (groupControllers_ok loaded (m_groups hw) Hok) as (groups' & -> & Hgroups).
  simpl. eexists. split; [done|]. split; [done|]. split; [exact Hgroups|].
  intros name. simpl. destruct description as [urdf|]; [|done].
  apply loadLimits_spec.
Qed.

Lemma inOrder_elem_of (groups : gmap string (list controller)) name cs :
  (name, cs) ∈ inOrder groups ↔ groups !! name = Some cs.
Proof.
  unfold inOrder. rewrite merge_sort_Permutation. apply elem_of_map_to_list.
Qed.

Lemma inOrder_keys (groups : gmap string (list controller)) name :
  name ∈ (inOrder groups).*1 ↔ is_Some (groups !! name).
Proof.
  rewrite list_elem_of_fmap. split.
  - intros ([k cs] & -> & Hin). apply inOrder_elem_of in Hin. by exists cs.
  - intros [cs Hcs]. exists (name, cs). split; [done|].
    by apply inOrder_elem_of.
Qed.

Lemma inOrder_NoDup (groups : gmap string (list controller)) :
  NoDup (inOrder groups).*1.
Proof.
  unfold inOrder. rewrite merge_sort_Permutation. apply NoDup_fst_map_to_list.
Qed.

Local Abbreviation zeroed hw name :=
  (m_pos hw name = 0 ∧ m_vel hw name = 0
   ∧ m_effort hw name = 0 ∧ m_cmd hw name = 0).

Local Abbreviation kept hw' hw name :=
  (m_pos hw' name = m_pos hw name ∧ m_vel hw' name = m_vel hw name
   ∧ m_effort hw' name = m_effort hw name ∧ m_cmd hw' name = m_cmd hw name).

(** The loop over the groups: what it leaves when it runs through and when
    the saturation handle throws. *)
Lemma registerGroups_spec (gs : list (string * list controller)) hw :
  let r := registerGroups hw gs in
  m_groups r.2 = m_groups hw ∧ m_limits r.2 = m_limits hw
  ∧ (r.1 = true ↔
     ∀ name, name ∈ gs.*1 → has_velocity_limits (m_limits hw name) = true)
  ∧ (r.1 = true → ∀ name, name ∈ gs.*1 → zeroed r.2 name)
  ∧ (r.1 = false →
     ∃ name, name ∈ gs.*1
             ∧ has_velocity_limits (m_limits hw name) = false
             ∧ zeroed r.2 name)
  ∧ (∀ name, name ∉ gs.*1 → kept r.2 hw name).
Proof.
  revert hw. induction gs as [|[k cs] gs IH]; intros hw; simpl.
  { split; [done|]. split; [done|]. split.
    { split; [|done]. intros _ name Hin. by apply elem_of_nil in Hin. }
    split; [intros _ name Hin; by apply elem_of_nil in Hin|].
    split; [done|]. done. }
  destruct (has_velocity_limits (m_limits hw k)) eqn:Ek; simpl.
  - destruct (IH (zeroGroup hw (k, cs)))
      as (Hg & Hl & Hiff & Hzero & Hthrow & Hkept).
    simpl in *. split; [done|]. split; [done|]. split; [|split; [|split]].
    + rewrite Hiff. split.
      * intros Hall name [->|Hin]%elem_of_cons; [done|by apply Hall].
      * intros Hall name Hin. apply Hall. by right.
    + intros Hok name Hin.
      destruct (decide (name ∈ gs.*1)) as [Hlater|Hlater]; [by apply Hzero|].
      apply elem_of_cons in Hin as [->|Hin]; [|done].
      destruct (Hkept k Hlater) as (-> & -> & -> & ->).
      by rewrite !fn_lookup_insert.
    + intros Hbad. destruct (Hthrow Hbad) as (name & Hin & Hno & Hz).
      exists name. split; [by right|]. done.
    + intros name [Hne Hlater]%not_elem_of_cons.
      destruct (Hkept name Hlater) as (-> & -> & -> & ->).
      by rewrite !fn_lookup_insert_ne.
  - split; [done|]. split; [done|]. split; [|split; [|split]].
    + split; [done|]. intros Hall. rewrite Hall in Ek; [done|by left].
    + done.
    + intros _. exists k. split; [by left|]. split; [done|].
      by rewrite !fn_lookup_insert.
    + intros name [Hne _]%not_elem_of_cons.
      by rewrite !fn_lookup_insert_ne.
Qed.

(** X24.  [hardware::init] first initializes every controller and returns
    [false], with nothing changed, when one of them fails.  Otherwise it walks
    the groups, setting position, velocity, effort and command of a group to
    [0.0] and then constructing the group's [VelocityJointSaturationHandle]
    from [m_limits]: it returns [true], with the four values of every group at
    [0.0], exactly when the limits of every group have velocity limits;
    otherwise the constructor throws out of [init] at a group whose limits
    have none, the values of that group being zeroed already.  Either way the
    groups, the limits and the values of every name that is no group are
    untouched. *)
Theorem init_zeroes_the_groups_or_throws (hw : hardware) :
  (forallb Controller.init (m_controllers hw) = false →
   init hw = (returns false, hw))
  ∧ (forallb Controller.init (m_controllers hw) = true →
     ∃ outcome hw',
       init hw = (outcome, hw')
       ∧ m_groups hw' = m_groups hw ∧ m_limits hw' = m_limits hw
       ∧ (outcome = returns true ∨ outcome = throws)
       ∧ (outcome = returns true ↔
          ∀ name, is_Some (m_groups hw !! name) →
                  has_velocity_limits (m_limits hw name) = true)
       ∧ (outcome = returns true →
          ∀ name, is_Some (m_groups hw !! name) →
                  m_pos hw' name = 0 ∧ m_vel hw' name = 0
                  ∧ m_effort hw' name = 0 ∧ m_cmd hw' name = 0)
       ∧ (outcome = throws →
          ∃ name, is_Some (m_groups hw !! name)
                  ∧ has_velocity_limits (m_limits hw name) = false
                  ∧ m_pos hw' name = 0 ∧ m_vel hw' name = 0
                  ∧ m_effort hw' name = 0 ∧ m_cmd hw' name = 0)
       ∧ (∀ name, m_groups hw !! name = None →
                  m_pos hw' name = m_pos hw name ∧ m_vel hw' name = m_vel hw name
                  ∧ m_effort hw' name = m_effort hw name
                  ∧ m_cmd hw' name = m_cmd hw name)).
Proof.
  unfold init. split; intros ->; simpl; [done|].
  destruct (registerGroups_spec (inOrder (m_groups hw)) hw)
    as (Hg & Hl & Hiff & Hzero & Hthrow & Hkept).
  destruct (registerGroups hw (inOrder (m_groups hw))) as [registered hw'].
  simpl in *. eexists _, hw'. split; [done|]. split; [done|]. split; [done|].
  split; [destruct registered; [by left|by right]|].
  split; [|split; [|split]].
  - destruct registered.
    + split; [|done]. intros _ name Hname.
      by apply (proj1 Hiff), inOrder_keys.
    + split; [done|]. intros Hall.
      assert (false = true) as Habs; [|done].
      apply Hiff. intros name Hname. by apply Hall, inOrder_keys.
  - destruct registered; [|done]. intros _ name Hname.
    by apply Hzero, inOrder_keys.
  - destruct registered; [done|]. intros _.
    destruct (Hthrow eq_refl) as (name & Hin & Hno & Hz).
    exists name. split; [by apply inOrder_keys|]. done.
  - intros name Hnone. apply Hkept. rewrite inOrder_keys, Hnone.
    by intros [? ?].
Qed.

(** The commands one group leaves: a positive command is taken to zero by
    the first solenoid of the group, any other command stays. *)
Lemma writeGroup_cmd name (cs : list controller) cmd :
  (writeGroup name cs cmd).1
  = if existsb (ofType solenoid) cs && (0 <? cmd name)
    then <[name := 0]> cmd else cmd.
Proof.
  revert cmd. induction cs as [|c cs IH]; intros cmd; simpl; [done|].
  destruct (ofType solenoid c) eqn:Esol; simpl.
  - destruct (0 <? cmd name) eqn:Epos; simpl.
    + specialize (IH (<[name := 0]> cmd)).
      destruct (writeGroup name cs (<[name := 0]> cmd)) as [cmd' acts].
      simpl in *. rewrite IH, fn_lookup_insert.
      replace (0 <? 0) with false by reflexivity.
      by rewrite andb_false_r.
    + specialize (IH cmd).
      destruct (ofType motor c);
        destruct (writeGroup name cs cmd) as [cmd' acts]; simpl in *;
        by rewrite IH, Epos, andb_false_r.
  - specialize (IH cmd).
    destruct (ofType motor c);
      destruct (writeGroup name cs cmd) as [cmd' acts]; simpl in *; done.
Qed.

Lemma writeGroups_cmd (gs : list (string * list controller)) cmd name :
  NoDup gs.*1 →
  ((writeGroups gs cmd).1 name = cmd name ∨ (writeGroups gs cmd).1 name = 0)
  ∧ (∀ cs, (name, cs) ∈ gs →
       (writeGroups gs cmd).1 name
       = if existsb (ofType solenoid) cs && (0 <? cmd name)
         then 0 else cmd name)
  ∧ (name ∉ gs.*1 → (writeGroups gs cmd).1 name = cmd name).
Proof.
  revert cmd. induction gs as [|[k cs] gs IH]; intros cmd Hnodup; simpl.
  { split; [by left|]. split; [|done]. intros cs Hin. by apply elem_of_nil in Hin. }
  apply NoDup_cons in Hnodup as [Hk Hnodup].
  pose proof (writeGroup_cmd k cs cmd) as Hgroup.
  destruct (writeGroup k cs cmd) as [cmd1 acts1]. simpl in Hgroup.
  specialize (IH cmd1 Hnodup).
  destruct (writeGroups gs cmd1) as [cmd2 acts2]. simpl in *.
  destruct IH as (Heither & Hin & Hout).
  assert (k ≠ name → cmd1 name = cmd name) as Hother.
  { intros Hne. rewrite Hgroup.
    destruct (_ && _); [by rewrite fn_lookup_insert_ne|done]. }
  split; [|split].
  - destruct (decide (k = name)) as [->|Hne].
    + rewrite (Hout Hk), Hgroup.
      destruct (_ && _); [right; by rewrite fn_lookup_insert|by left].
    + rewrite <- (Hother Hne). exact Heither.
  - intros cs' [[= -> ->]|Hlater]%elem_of_cons.
    + rewrite (Hout Hk), Hgroup.
      destruct (_ && _); [by rewrite fn_lookup_insert|done].
    + assert (k ≠ name) as Hne.
      { intros ->. apply Hk. apply list_elem_of_fmap. by exists (name, cs'). }
      rewrite (Hin cs' Hlater), (Hother Hne). done.
  - intros [Hne Hlater]%not_elem_of_cons.
    rewrite (Hout Hlater). apply Hother. done.
Qed.

(** X25.  [hardware::write] consumes the command of a solenoid: after it, a
    group that holds a solenoid has no positive command left, since a
    positive command is set to [0.0] when the solenoid is triggered.  The
    command of a group without a solenoid, a command that is not positive,
    and the value of any name that is no group are left as they were. *)
Theorem write_takes_a_positive_solenoid_command_to_zero
    (hw : hardware) (name : string) :
  let solenoids := existsb (ofType solenoid) (default [] (m_groups hw !! name)) in
  m_cmd (write hw).1 name
  = (if solenoids && (0 <? m_cmd hw name) then 0 else m_cmd hw name)
  ∧ (solenoids = true → (0 <? m_cmd (write hw).1 name) = false).
Proof.
  intros solenoids.
  assert (m_cmd (write hw).1 name
          = if solenoids && (0 <? m_cmd hw name) then 0 else m_cmd hw name) as Hcmd.
  { unfold write.
    destruct (writeGroups_cmd (inOrder (m_groups hw)) (m_cmd hw) name)
      as (_ & Hin & Hout); [apply inOrder_NoDup|].
    destruct (writeGroups _ _) as [cmd acts]. simpl in *.
    subst solenoids.
    destruct (m_groups hw !! name) as [cs|] eqn:Egroup; simpl.
    - apply Hin. by apply inOrder_elem_of.
    - apply Hout. rewrite inOrder_keys, Egroup. by intros [? ?]. }
  split; [done|].
  intros Hsol. rewrite Hcmd, Hsol. simpl.
  destruct (0 <? m_cmd hw name) eqn:Epos; done.
Qed.

(** X26.  What [write] asks of the devices of one group.  Without a
    positive command no solenoid is triggered and every motor is commanded the
    group's command.  With a positive command the first solenoid of the group
    is triggered, and it alone; the motors listed before it are commanded the
    command, the motors listed after it are commanded [0.0]. *)
Theorem write_triggers_the_first_solenoid_only
    (name : string) (cmd : string → double) (cs : list controller) :
  ((0 <? cmd name) = false →
   (writeGroup name cs cmd).2
   = (λ c, command c (cmd name)) <$> filter (λ c, ofType motor c = true) cs)
  ∧ ((0 <? cmd name) = true →
     ∀ pre sol post,
       cs = pre ++ sol :: post →
       existsb (ofType solenoid) pre = false → ofType solenoid sol = true →
       (writeGroup name cs cmd).2
       = ((λ c, command c (cmd name))
            <$> filter (λ c, ofType motor c = true) pre)
         ++ trigger sol
         :: ((λ c, command c 0) <$> filter (λ c, ofType motor c = true) post)).
Proof.
  assert (∀ (cs' : list controller) cmd',
            (0 <? cmd' name) = false →
            (writeGroup name cs' cmd').2
            = (λ c, command c (cmd' name))
                <$> filter (λ c, ofType motor c = true) cs') as Hidle.
  { intros cs' cmd' Hnp. induction cs' as [|c cs' IH]; simpl; [done|].
    rewrite Hnp, andb_false_r.
    destruct (ofType motor c) eqn:Em.
    - rewrite filter_cons_True by done.
      destruct (writeGroup name cs' cmd') as [c1 a1]. simpl in *.
      by rewrite IH.
    - rewrite filter_cons_False by (by rewrite Em). exact IH. }
  split; [apply Hidle|].
  intros Hpos pre sol post -> Hpre Hsol.
  induction pre as [|c pre IH]; simpl.
  - rewrite Hsol, Hpos. simpl.
    pose proof (Hidle post (<[name := 0]> cmd)) as Hpost.
    rewrite fn_lookup_insert in Hpost. specialize (Hpost eq_refl).
    destruct (writeGroup name post _) as [c1 a1]. simpl in *. by rewrite Hpost.
  - simpl in Hpre. apply orb_false_iff in Hpre as [Hc Hpre].
    rewrite Hc. simpl.
    destruct (ofType motor c) eqn:Em.
    + rewrite filter_cons_True by done. specialize (IH Hpre).
      destruct (writeGroup name (pre ++ sol :: post) cmd) as [c1 a1].
      simpl in *. by rewrite IH.
    + rewrite filter_cons_False by (by rewrite Em). by apply IH.
Qed.

End HardwareFacts.
(** ** The path functions of the robot controller *)

Module RobotFacts.
Import Robot.
Local Open Scope nat_scope.

Lemma strrchr_None s c : strrchr s c = None ↔ c ∉ s.
Proof.
  induction s as [|a s IH]; simpl.
  { split; [intros _ Hin; by apply elem_of_nil in Hin|done]. }
  destruct (strrchr s c) as [i|].
  - split; [done|]. intros Hnot. exfalso.
    assert (c ∉ s) as Hs by (intros Hs; apply Hnot; by right).
    apply IH in Hs. done.
  - case_decide as Hac.
    + split; [done|]. intros Hnot. exfalso. apply Hnot. subst. by left.
    + split; [|done]. intros _ [->|Hin]%elem_of_cons; [done|].
      by apply (proj1 IH).
Qed.

Lemma strrchr_Some s c i :
  strrchr s c = Some i →
  s = take i s ++ c :: drop (S i) s ∧ c ∉ drop (S i) s.
Proof.
  revert i. induction s as [|a s IH]; intros i; simpl; [done|].
  destruct (strrchr s c) as [k|] eqn:Ek.
  - intros [= <-]. destruct (IH k eq_refl) as [Hsplit Hlast]. simpl.
    split; [by rewrite <- Hsplit|done].
  - case_decide as Hac; [|done]. intros [= <-]. simpl. rewrite drop_0.
    split; [by subst|]. by apply strrchr_None.
Qed.

Lemma first_split_unique (B B' A A' : list ascii) c :
  c ∉ B → c ∉ B' → B ++ c :: A = B' ++ c :: A' → B = B' ∧ A = A'.
Proof.
  revert B'. induction B as [|b B IH]; intros [|b' B'] HB HB'; simpl.
  - by intros [= ->].
  - intros [= -> _]. exfalso. apply HB'. by left.
  - intros [= -> _]. exfalso. apply HB. by left.
  - intros [= -> Heq]. apply not_elem_of_cons in HB as [_ HB].
    apply not_elem_of_cons in HB' as [_ HB'].
    destruct (IH B' HB HB' Heq) as [-> ->]. done.
Qed.

Lemma last_split_unique (A A' B B' : list ascii) c :
  c ∉ B → c ∉ B' → A ++ c :: B = A' ++ c :: B' → B = B'.
Proof.
  intros HB HB' Heq. apply (f_equal reverse) in Heq.
  rewrite !reverse_app, !reverse_cons, <- !app_assoc in Heq. simpl in Heq.
  apply first_split_unique in Heq as [Heq _]; [|by rewrite elem_of_reverse..].
  by apply (inj reverse).
Qed.

(** X27.  [getControllerName] answers the part of the path that follows its
    last slash, and the whole path when it has none: the name holds no slash,
    the path is the name put behind some directory part and a slash, and a
    name without a slash put behind any directory part is found again. *)
Theorem getControllerName_is_what_follows_the_last_slash (path : list ascii) :
  (slash ∉ getControllerName path)
  ∧ (slash ∉ path → getControllerName path = path)
  ∧ (slash ∈ path → ∃ dir, path = dir ++ slash :: getControllerName path)
  ∧ (∀ dir name, slash ∉ name → path = dir ++ slash :: name →
                 getControllerName path = name).
Proof.
  unfold getControllerName.
  destruct (strrchr path slash) as [i|] eqn:Ei.
  - destruct (strrchr_Some _ _ _ Ei) as [Hsplit Hlast].
    split; [done|]. split.
    { intros Hnot. apply strrchr_None in Hnot. congruence. }
    split.
    { intros _. by exists (take i path). }
    intros dir name Hname Hpath.
    rewrite Hsplit in Hpath.
    by apply last_split_unique in Hpath.
  - apply strrchr_None in Ei. split; [done|]. split; [done|]. split; [done|].
    intros dir name _ ->. exfalso. apply Ei. apply elem_of_app. right. by left.
Qed.

Lemma strchr_None s c : c ∉ s → strchr s c = None.
Proof.
  induction s as [|a s IH]; simpl; [done|].
  intros [Hne Hs]%not_elem_of_cons. rewrite decide_False by done.
  by rewrite IH.
Qed.

Lemma strchr_first s c t : c ∉ s → strchr (s ++ c :: t) c = Some (length s).
Proof.
  induction s as [|a s IH]; simpl.
  { intros _. by rewrite decide_True. }
  intros [Hne Hs]%not_elem_of_cons. rewrite decide_False by done.
  by rewrite IH.
Qed.

Lemma strstr_None h n :
  strstr h n = None ↔ ∀ j, ¬ n `prefix_of` drop j h.
Proof.
  induction h as [|a h IH]; simpl.
  - case_decide as Hp.
    + split; [done|]. intros Hno. by destruct (Hno 0%nat).
    + split; [|done]. intros _ j. by destruct j.
  - case_decide as Hp.
    + split; [done|]. intros Hno. by destruct (Hno 0%nat).
    + rewrite fmap_None, IH. split.
      * intros Hno [|j]; [done|]. apply Hno.
      * intros Hno j. apply (Hno (S j)).
Qed.

Lemma strstr_Some h n i :
  n `prefix_of` drop i h → i ≤ length h →
  (∀ j, j < i → ¬ n `prefix_of` drop j h) →
  strstr h n = Some i.
Proof.
  revert h. induction i as [|i IH]; intros h Hat Hlen Hfirst.
  - rewrite drop_0 in Hat. destruct h; simpl; by rewrite decide_True.
  - destruct h as [|a h]; [simpl in Hlen; lia|]. simpl.
    rewrite decide_False by (apply (Hfirst 0%nat); lia).
    rewrite (IH h); [done|done|simpl in Hlen; lia|].
    intros j Hj. apply (Hfirst (S j)). lia.
Qed.

Lemma c_str_app s t : NUL ∉ s → c_str (s ++ t) = (s ++.) <$> c_str t.
Proof.
  induction s as [|a s IH]; simpl.
  { intros _. by destruct (c_str t). }
  intros [Hne Hs]%not_elem_of_cons. rewrite decide_False by done.
  rewrite IH by done. by destruct (c_str t).
Qed.

(** X28.  [getControllerPath] answers the null pointer exactly when the
    path holds no [/type/] for the component type asked for (a type short
    enough for the 64 bytes of [componentTypePath]); the array
    [componentPath] is then left alone. *)
Theorem getControllerPath_is_null_without_the_type_node
    (path componentType componentPath : list ascii) :
  length componentType + 3 ≤ 64 →
  (getControllerPath path componentType componentPath = Some None
   ↔ ∀ j, ¬ (slash :: componentType ++ [slash]) `prefix_of` drop j path).
Proof.
  intros Hfits. unfold getControllerPath.
  rewrite decide_False by (simpl; rewrite length_app; simpl; lia).
  rewrite <- strstr_None.
  destruct (strstr path _) as [typeNode|]; [|done].
  split; [|done]. unfold strncpy. by case_decide.
Qed.

(** X29.  When the path holds [/type/name], [getControllerPath] copies the
    path up to the end of that name into [componentPath] with [strncpy] and
    adds no terminator: the bytes of the array behind the copy stay.  The
    string handed back is therefore the copied part followed by whatever the
    array held from there to its first terminator. *)
Theorem getControllerPath_copies_without_a_terminator
    (pre componentType name rest componentPath : list ascii) :
  let typeNode := slash :: componentType ++ [slash] in
  let path := pre ++ typeNode ++ name ++ rest in
  let copied := pre ++ typeNode ++ name in
  length componentType + 3 ≤ 64 →
  (∀ j, j < length pre → ¬ typeNode `prefix_of` drop j path) →
  slash ∉ name → rest = [] ∨ head rest = Some slash →
  length copied ≤ length componentPath →
  getControllerPath path componentType componentPath
  = Some (Some (copied ++ drop (length copied) componentPath))
  ∧ (NUL ∉ path →
     c_str (copied ++ drop (length copied) componentPath)
     = (copied ++.) <$> c_str (drop (length copied) componentPath)).
Proof.
  intros typeNode path copied Hfits Hfirst Hname Hrest Hroom.
  split.
  - unfold getControllerPath. fold typeNode.
    rewrite decide_False by (subst typeNode; simpl; rewrite length_app; simpl; lia).
    rewrite (strstr_Some path typeNode (length pre)); [|..|done].
    2:{ subst path. rewrite drop_app_length. by apply prefix_app_r. }
    2:{ subst path. rewrite length_app. lia. }
    assert (drop (length pre + length typeNode) path = name ++ rest) as Hdrop.
    { subst path. rewrite <- drop_drop, drop_app_length.
      by rewrite drop_app_length. }
    rewrite Hdrop.
    assert ((match strchr (name ++ rest) slash with
             | Some next => length pre + length typeNode + next
             | None => length pre + length typeNode + length (name ++ rest)
             end)%nat = length copied) as ->.
    { subst copied.
      destruct Hrest as [->|Hhead].
      - rewrite app_nil_r, strchr_None by done. rewrite !length_app. lia.
      - destruct rest as [|r rest]; [done|]. injection Hhead as ->.
        rewrite strchr_first by done. rewrite !length_app. lia. }
    unfold strncpy. rewrite decide_True by done. simpl. do 2 f_equal.
    subst path copied. f_equal.
    rewrite !app_assoc. rewrite take_app_length'; [done|].
    by rewrite !length_app.
  - intros Hnul. apply c_str_app. intros Hin. apply Hnul.
    subst path copied. rewrite !app_assoc. apply elem_of_app. left.
    by rewrite <- !app_assoc.
Qed.

Lemma scanParam_keeps_arms_distinct scan param scan' :
  scanParam scan param = Some scan' →
  NoDup (m_arms scan) → (∀ path, path ∈ m_arms scan → path ∈ unique scan) →
  NoDup (m_arms scan') ∧ (∀ path, path ∈ m_arms scan' → path ∈ unique scan').
Proof.
  unfold scanParam.
  destruct (getControllerPath _ _ _) as [[array|]|]; simpl;
    [|by intros [= <-]|done].
  destruct (c_str array) as [path|]; [|done]. simpl.
  case_decide as Hseen; intros [= <-] Hnodup Hsub; simpl; [done|].
  split.
  - apply NoDup_app. split; [done|]. split; [|apply NoDup_singleton].
    intros q Hq Hq'. apply list_elem_of_singleton in Hq' as ->.
    by apply Hseen, Hsub.
  - intros q [Hq|Hq]%elem_of_app.
    + apply elem_of_union. right. by apply Hsub.
    + apply list_elem_of_singleton in Hq as ->.
      apply elem_of_union. left. by apply elem_of_singleton.
Qed.

(** X30.  [deserializeArms] makes no arm twice for one path: on a robot
    without arms, the paths handed to the [arm] constructor are pairwise
    different, whatever the parameter names are and in whatever order they
    come. *)
Theorem deserializeArms_makes_one_arm_per_path
    (params made : list (list ascii)) :
  deserializeArms [] params = Some made → NoDup made.
Proof.
  unfold deserializeArms.
  destruct (scanParams _ params) as [scan|] eqn:Escan; [|done].
  simpl. intros [= <-].
  assert (∀ start scan,
            scanParams start params = Some scan →
            NoDup (m_arms start) →
            (∀ path, path ∈ m_arms start → path ∈ unique start) →
            NoDup (m_arms scan)) as Hloop.
  { clear. induction params as [|param params IH]; intros start scan; simpl.
    - by intros [= <-].
    - destruct (scanParam start param) as [next|] eqn:Enext; [|done]. simpl.
      intros Hrun Hnodup Hsub.
      destruct (scanParam_keeps_arms_distinct _ _ _ Enext Hnodup Hsub).
      by apply (IH next scan). }
  apply (Hloop _ _ Escan); simpl.
  - apply NoDup_nil_2.
  - intros path Hin. by apply elem_of_nil in Hin.
Qed.

End RobotFacts.
(** ** The PWM servo controller *)

Module PwmServoFacts.
Import PwmServo.

Lemma to_uint8_range v n : to_uint8 v = Some n → (0 ≤ n ≤ 255)%Z.
Proof.
  unfold to_uint8. destruct (Prim2SF v) as [s|s| |s m e]; try done.
  - by intros [= <-].
  - case_decide; [|done]. by intros [= <-].
Qed.

(** [setVelocity] never asks for both directions at once: of the two
    duty cycles of the message one is zero.  A velocity that is zero or more
    goes to the RPWM channel and leaves LPWM at zero, any other goes to LPWM
    and leaves RPWM at zero; the duty cycle sent is a byte, and the velocity is
    remembered as given. *)
Theorem setVelocity_drives_one_channel_at_a_time
    (DUTY_CYCLE : double) (servo servo' : pwmServo) (velocity : double)
    (msg : Pwm) (done : bool) :
  setVelocity DUTY_CYCLE servo velocity = Some (msg, servo', done) →
  (dutyCycle1 msg = 0 ∨ dutyCycle2 msg = 0)%Z
  ∧ ((0 <=? velocity) = true → dutyCycle2 msg = 0%Z)
  ∧ ((0 <=? velocity) = false → dutyCycle1 msg = 0%Z)
  ∧ (0 ≤ dutyCycle1 msg ≤ 255)%Z ∧ (0 ≤ dutyCycle2 msg ≤ 255)%Z
  ∧ channel1 msg = m_rpwm servo ∧ channel2 msg = m_lpwm servo
  ∧ m_velocity servo' = velocity ∧ done = true.
Proof.
  unfold setVelocity.
  destruct (to_uint8 _) as [dutyCycle|] eqn:Eduty; [|done]. simpl.
  apply to_uint8_range in Eduty. intros [= <- <- <-]. simpl.
  destruct (0 <=? velocity); simpl; repeat split; auto; lia.
Qed.

(** [deserialize] never sets [m_rpwm]: the value read for the [rpwm]
    parameter is stored into [m_lpwm].  After it the right channel is what it
    was (channel 1 on a servo just constructed), and the left channel is the
    [rpwm] parameter when there is one, whatever the [lpwm] parameter says. *)
Theorem deserialize_stores_rpwm_into_m_lpwm (servo : pwmServo) (params : Params) :
  m_rpwm (deserialize servo params) = m_rpwm servo
  ∧ (∀ velocity, m_rpwm (deserialize (constructed velocity) params) = 1%Z)
  ∧ (∀ channel, rpwm params = Some channel →
                m_lpwm (deserialize servo params) = channel)
  ∧ (rpwm params = None →
     m_lpwm (deserialize servo params) = default (m_lpwm servo) (lpwm params)).
Proof.
  unfold deserialize. simpl. split; [done|]. split; [done|].
  split; [by intros channel ->|by intros ->].
Qed.

End PwmServoFacts.
(** ** The contract on concrete robots *)

Module Examples.
Import Ik Notions DoubleFacts IkFacts VariantFacts PluginFacts SolveFacts.
Import Fixture Contract.

(** Splits [j ∈ [a; b; ...]] into one goal per listed joint. *)
Ltac listed H :=
  repeat (apply elem_of_cons in H as [->|H]);
  [..|by apply elem_of_nil in H].

(** Refutes [k ∈ [a; b; ...]] for a joint [k] that differs from each. *)
Ltac unlisted H :=
  repeat (let E := fresh in apply elem_of_cons in H as [E|H]; [discriminate E|]);
  by apply elem_of_nil in H.

(** [initialize] accepts the plain arm. *)
Lemma arm_initialized :
  initialize arm "arm" "base" ["effector"%string] 0 = Some (Some (plugin_of arm)).
Proof. reflexivity. Qed.

(** The plain arm has no mimic joint, so no master is missing. *)
Lemma arm_masters : mastersListed (plugin_of arm).
Proof.
  intros j Hj m Hm. change (m_joints (plugin_of arm)) with [0; 1; 2; 3]%nat in Hj.
  listed Hj; discriminate Hm.
Qed.

(** One pose, one tip frame, and a seed of four entries. *)
Lemma arm_valid seed :
  length seed = 4%nat → validRequest (plugin_of arm) (request far seed).
Proof. intros Hlen. repeat split. exact Hlen. Qed.

(** What the solver returns for the far target on the plain arm. *)
Example arm_far_solution :
  searchPositionIK (plugin_of arm) (request far seed4)
  = Some {| returned := true;
            solution_out := [0; 1; 0.5; 0.0625];
            error_code_out := {| val := SUCCESS |} |}.
Proof. vm_compute. reflexivity. Qed.

(** And for the near target: both joints at their lower limits. *)
Example arm_near_solution :
  searchPositionIK (plugin_of arm)
    {| ik_poses := [pose_at near]; ik_seed_state := seed4; timeout := 1;
       consistency_limits := []; solution := []; solution_callback := None;
       error_code := {| val := 0 |} |}
  = Some {| returned := true;
            solution_out := [0; -1; -0.5; 0.0625];
            error_code_out := {| val := SUCCESS |} |}.
Proof. vm_compute. reflexivity. Qed.

(** C1 fails on the plain arm under the header [wide]: upper arm and
    forearm are half a unit each and the wrist sits a quarter short of the
    tip, so the claim puts the upper bound at [0.5 + 0.5 - 0.25]; the code
    puts it at [MAX.norm() - 0.25 = 2.75].  A target two units out exceeds the
    claim's bound and not the code's: the triangle branch runs, [acos] of
    [-7] is NaN, and shoulder and elbow come back as the seed has them, not at
    their upper limits 1 and 0.5. *)
Lemma C1_counterexample :
  validRequest (plugin_of arm) (request (along_x 2) seed4)
  ∧ m_upperArm (plugin_of arm) = along_x 0.5
  ∧ m_forearm (plugin_of arm) = along_x 0.5
  ∧ locals (plugin_of arm) (ik_poses (request (along_x 2) seed4))
    = Some {| targetWorld := along_x 2; shoulderWorld := along_x 0;
              targetLocal := along_x 2; shoulderToEffector := along_x 1.25;
              wristToEffector := along_x 0.25 |}
  ∧ (Eigen.norm (along_x 0.5) + Eigen.norm (along_x 0.5)
     - Eigen.norm (along_x 0.25) <? Eigen.norm (along_x 2)) = true
  ∧ @searchPositionIK table_libm revolute_moveit wide (plugin_of arm)
      (request (along_x 2) seed4)
    = Some {| returned := true;
              solution_out := [0; 0.25; 0.375; 0.0625];
              error_code_out := {| val := SUCCESS |} |}
  ∧ max_position (getVariableBoundsMsg (jointModel arm 1)) = 1
  ∧ max_position (getVariableBoundsMsg (jointModel arm 2)) = 0.5.
Proof. repeat split; vm_compute; reflexivity. Qed.

(** C1 as amended, on the plain arm under the header [envelope]: the wrist
    sits a quarter short of the tip, so the bounds are [0.5 - 0.25] and
    [1.25 - 0.25].  A target at 1.125 lies beyond the upper bound though
    inside [MAX.norm()], and both joints go to their upper limits; a target
    at 0.125 lies below the lower bound, and both go to their lower limits. *)
Lemma C1_witness :
  (∃ res,
     searchPositionIK (plugin_of arm) (request (along_x 1.125) seed4) = Some res
     ∧ solution_out res !! 1%nat = Some 1
     ∧ solution_out res !! 2%nat = Some 0.5)
  ∧ (∃ res,
       searchPositionIK (plugin_of arm) (request near seed4) = Some res
       ∧ solution_out res !! 1%nat = Some (-1)
       ∧ solution_out res !! 2%nat = Some (-0.5)).
Proof.
  split.
  - destruct (C1_target_outside_envelope_holds_limits
                arm "arm" "base" ["effector"%string] 0 (plugin_of arm)
                arm_initialized (request (along_x 1.125) seed4)
                (pose_at (along_x 1.125)) 5%nat eq_refl arm_masters eq_refl)
      as (sh & el & wr & res & Hsh & Hel & Hwr & Hrun & _ & Hmax & _);
      [by repeat split|].
    injection Hsh as <-. injection Hel as <-. injection Hwr as <-.
    destruct Hmax as [Hshoulder Helbow]; [vm_compute; reflexivity|].
    exists res. split; [exact Hrun|]. split; [exact Hshoulder|exact Helbow].
  - destruct (C1_target_outside_envelope_holds_limits
                arm "arm" "base" ["effector"%string] 0 (plugin_of arm)
                arm_initialized (request near seed4)
                (pose_at near) 5%nat eq_refl arm_masters eq_refl)
      as (sh & el & wr & res & Hsh & Hel & Hwr & Hrun & _ & _ & Hmin & _);
      [by repeat split|].
    injection Hsh as <-. injection Hel as <-. injection Hwr as <-.
    destruct Hmin as [Hshoulder Helbow];
      [vm_compute; reflexivity|vm_compute; reflexivity|].
    exists res. split; [exact Hrun|]. split; [exact Hshoulder|exact Helbow].
Defined.

(** C2 fails on the plain arm: the request is valid, the wrist joint sits
    at slot 3 with limits [-0.25, 0.25], and the returned wrist entry is the
    seed's 9. *)
Lemma C2_counterexample :
  validRequest (plugin_of arm) (request far wild_seed)
  ∧ searchPositionIK (plugin_of arm) (request far wild_seed)
    = Some {| returned := true;
              solution_out := [0; 1; 0.5; 9];
              error_code_out := {| val := SUCCESS |} |}
  ∧ m_pWristJoint (plugin_of arm) = Some 3%nat
  ∧ m_joints (plugin_of arm) !! 3%nat = Some 3%nat
  ∧ within (min_position (getVariableBoundsMsg (jointModel arm 3)))
           (max_position (getVariableBoundsMsg (jointModel arm 3))) 9 = false.
Proof.
  split; [by apply arm_valid|].
  split; [vm_compute; reflexivity|]. repeat split.
Qed.

(** C2 as amended, on the plain arm with a seed inside the limits. *)
Lemma C2_witness :
  ∃ res, searchPositionIK (plugin_of arm) (request far seed4) = Some res
         ∧ returned res = true
         ∧ withinLimits arm (m_joints (plugin_of arm)) (solution_out res).
Proof.
  apply (C2_entries_within_limits_when_seed_is
           arm "arm" "base" ["effector"%string] 0 (plugin_of arm)
           arm_initialized (request far seed4)).
  - by exists 5%nat.
  - by apply arm_valid.
  - intros j [Hj|Hj]; vm_compute in Hj; injection Hj as <-; reflexivity.
  - intros j Hj. change (m_joints (plugin_of arm)) with [0; 1; 2; 3]%nat in Hj.
    listed Hj; vm_compute; reflexivity.
  - intros j t Ht. exact Ht.
  - intros i j v Hj Hv.
    change (m_joints (plugin_of arm)) with [0; 1; 2; 3]%nat in Hj.
    destruct i as [|[|[|[|i]]]]; simpl in Hj, Hv; try discriminate;
      injection Hj as <-; injection Hv as <-; vm_compute; reflexivity.
Defined.

(** C3 on the plain arm. *)
Lemma C3_witness :
  ∃ l, locals (plugin_of arm) (ik_poses (request far seed4)) = Some l
       ∧ mountJointAngle l
         = atan2 (Eigen.y (targetLocal l)) (Eigen.x (targetLocal l))
           - atan2 (Eigen.y (shoulderToEffector l))
                   (Eigen.x (shoulderToEffector l)).
Proof.
  destruct (C3_mount_angle_is_bearing_minus_offset
              arm "arm" "base" ["effector"%string] 0 (plugin_of arm)
              arm_initialized (request far seed4) (pose_at far) 5%nat)
    as (l & mt & sh & el & H1 & _ & _ & _ & _ & _ & H6 & _).
  - reflexivity.
  - reflexivity.
  - by apply arm_valid.
  - exists l. split; assumption.
Defined.

(** C4 fails for the sides 1, 1 and 3, which make no triangle: the quotient
    handed to [acos] is -3.5, outside [-1, 1], and the result is NaN. *)
Lemma C4_counterexample :
  lawOfCosinesArg 1 1 3 = -3.5
  ∧ within (-1) 1 (lawOfCosinesArg 1 1 3) = false
  ∧ lawOfCosines 1 1 3 = acos (-3.5)
  ∧ isnan (lawOfCosines 1 1 3) = true.
Proof. repeat split. Qed.

(** C4 as amended, for the sides 1, 1 and 3 and the shoulder of the plain
    arm. *)
Lemma C4_witness :
  lawOfCosines 1 1 3 = acos ((1 * 1 + 1 * 1 - 3 * 3) / (2 * 1 * 1))
  ∧ isnan (lawOfCosines 1 1 3 - M_PI / 2) = true
  ∧ Ik.setJointState arm [0; 1; 2; 3]%nat 1
      (lawOfCosines 1 1 3 - M_PI / 2) seed4 = Some seed4.
Proof.
  apply (C4_lawOfCosines_is_unclamped_and_NaN_is_held
           arm [0; 1; 2; 3]%nat 1 1 3 1%nat seed4).
  - reflexivity.
  - intros x Hx. simpl. unfold table_acos. by rewrite Hx.
Defined.

(** C5 on the plain arm with the short seed. *)
Lemma C5_witness :
  ∃ res, searchPositionIK (plugin_of arm) short_request = Some res
         ∧ returned res = false
         ∧ val (error_code_out res) = NO_IK_SOLUTION.
Proof.
  apply (C5_malformed_request_is_refused (plugin_of arm) short_request).
  left. vm_compute. lia.
Defined.

(** C9 on the plain arm with the short seed: the caller's empty vector comes
    back. *)
Lemma C9_witness :
  ∃ res, searchPositionIK (plugin_of arm) short_request = Some res
         ∧ returned res = false
         ∧ solution_out res = solution short_request.
Proof.
  apply (C9_refusal_leaves_solution_untouched (plugin_of arm) short_request).
  left. reflexivity.
Defined.

(** C6 fails on the pair: setting the mimic (joint 1) to 5 clamps its master
    (joint 0) to 1, inside the master's limits, and leaves 5 in the mimic's
    slot, where the affine law asks for [clamp(1 * 1 + 0, 0, 10) = 1]. *)
Lemma C6_counterexample :
  getMimic (jointModel pair 1) = Some 0%nat
  ∧ InverseKinematicsPlugin.setJointState pair [0; 1]%nat 1 5 [0; 0] fresh
    = Some ([1; 5], [(0%nat, 1)])
  ∧ within (min_position (getVariableBoundsMsg (jointModel pair 0)))
           (max_position (getVariableBoundsMsg (jointModel pair 0))) 1 = true
  ∧ clamp (getMimicFactor (jointModel pair 1) * 1
           + getMimicOffset (jointModel pair 1))
      (min_position (getVariableBoundsMsg (jointModel pair 1)))
      (max_position (getVariableBoundsMsg (jointModel pair 1))) = 1
  ∧ (5 =? 1) = false.
Proof. repeat split. Qed.

(** The coupled arm: the mount (joint 0) mimics the listed actuator (joint
    4), whose other mimic is the wrist (joint 3). *)
Lemma coupled_setter_facts :
  (0%nat ∈ [0; 1; 2; 3; 4]%nat ∧ supported coupled 0%nat)
  ∧ (getMimic (jointModel coupled 0) = Some 4%nat
     ∧ 4%nat ∈ [0; 1; 2; 3; 4]%nat)
  ∧ (4%nat ∉ getMimicRequests (jointModel coupled 4))
  ∧ (3%nat ∈ getMimicRequests (jointModel coupled 4)
     ∧ 3%nat ∈ [0; 1; 2; 3; 4]%nat).
Proof.
  split; [split; [repeat constructor|by left]|].
  split; [split; [done|repeat constructor]|].
  split; [|split; simpl; repeat constructor].
  simpl. intros Hin. unlisted Hin.
Qed.

(** C6 as amended, on the coupled arm: setting the mount to 1.5 clamps the
    actuator state to 1, writes the wrist as [clamp(1 * 1 + 0.125)] within
    [-0.25, 0.25], and leaves the mount at its own 1.5, where the affine
    image of the master state would be 1; so in both plugins. *)
Lemma C6_witness :
  (∃ states',
     Ik.setJointState coupled [0; 1; 2; 3; 4]%nat 0 1.5 seed5 = Some states'
     ∧ states' !! 3%nat = Some 0.25
     ∧ states' !! 0%nat = Some 1.5)
  ∧ (∃ states' kstate',
       InverseKinematicsPlugin.setJointState coupled [0; 1; 2; 3; 4]%nat 0 1.5
         seed5 fresh
       = Some (states', kstate')
       ∧ states' !! 3%nat = Some 0.25
       ∧ states' !! 0%nat = Some 1.5).
Proof.
  destruct coupled_setter_facts as ((Hj & Hsup) & (Hmim & Hm) & Hself & Hs & Hin).
  destruct (C6_other_mimics_follow_the_affine_law
              coupled [0; 1; 2; 3; 4]%nat 0%nat 4%nat 1.5 seed5 fresh
              Hj Hsup Hmim Hm eq_refl) as (_ & Hik & Hikp).
  split.
  - destruct (Hik eq_refl) as (states' & Hrun & Hsib & Hown).
    exists states'. split; [exact Hrun|]. split.
    + etransitivity; [apply (Hsib 3%nat Hs ltac:(discriminate) Hin)|].
      vm_compute. reflexivity.
    + etransitivity; [apply Hown; discriminate|]. vm_compute. reflexivity.
  - destruct Hikp as (states' & kstate' & Hrun & Hsib & Hown).
    exists states', kstate'. split; [exact Hrun|]. split.
    + etransitivity; [apply (Hsib 3%nat Hs ltac:(discriminate) Hin)|].
      vm_compute. reflexivity.
    + etransitivity; [apply Hown; discriminate|]. vm_compute. reflexivity.
Defined.

(** C10 on the coupled arm: setting the mount writes the actuator slot. *)
Lemma C10_witness :
  ∃ states',
    Ik.setJointState coupled [0; 1; 2; 3; 4]%nat 0 0 seed5 = Some states'
    ∧ states' !! indexOf 4%nat [0; 1; 2; 3; 4]%nat
      = Some ((computeVariablePositions (jointModel coupled 0)
                 {| Eigen.angle := 0; Eigen.axis := getAxis (jointModel coupled 0) |}
               - getMimicOffset (jointModel coupled 0))
              / getMimicFactor (jointModel coupled 0)).
Proof.
  destruct coupled_setter_facts as ((Hj & Hsup) & (Hmim & Hm) & Hself & Hs & Hin).
  destruct (C10_mimic_joint_drives_master_then_siblings
              coupled [0; 1; 2; 3; 4]%nat 0%nat 4%nat 0 seed5 fresh
              Hj Hsup Hmim Hm Hself eq_refl) as [Hik _].
  destruct (Hik eq_refl) as (states' & Hrun & Hmaster & _).
  exists states'. split; assumption.
Defined.

(** C7 on the geared arm.  The far target drives the shoulder (joint 1, a
    mimic of the actuator, joint 4) to its upper limit through
    [setJointMaxState]: the actuator slot keeps the seed's 0.75, although the
    shoulder at 1 puts the actuator at 0.5.  [setJointState] on the same
    joint does write the actuator slot. *)
Lemma C7_limit_hold_skips_mimic_propagation :
  getMimic (jointModel geared 1) = Some 4%nat
  ∧ m_pShoulderJoint (plugin_of geared) = Some 1%nat
  ∧ validRequest (plugin_of geared) (request far seed5)
  ∧ searchPositionIK (plugin_of geared) (request far seed5)
    = Some {| returned := true;
              solution_out := [0; 1; 0.5; 0; 0.75];
              error_code_out := {| val := SUCCESS |} |}
  ∧ (1 - getMimicOffset (jointModel geared 1))
    / getMimicFactor (jointModel geared 1) = 0.5
  ∧ Ik.setJointState geared (m_joints (plugin_of geared)) 1 0 seed5
    = Some [0.125; 0; 0.375; 0; 0].
Proof.
  split; [reflexivity|]. split; [reflexivity|]. split; [by repeat split|].
  split; [vm_compute; reflexivity|]. split; vm_compute; reflexivity.
Qed.

(** C8 fails on the coupled arm: the wrist (joint 3) mimics the same actuator
    as the mount, so setting the mount rewrites the wrist slot, 0 in the seed
    and 0.125 in the returned vector. *)
Lemma C8_counterexample :
  validRequest (plugin_of coupled) (request far seed5)
  ∧ m_pWristJoint (plugin_of coupled) = Some 3%nat
  ∧ seed5 !! 3%nat = Some 0
  ∧ searchPositionIK (plugin_of coupled) (request far seed5)
    = Some {| returned := true;
              solution_out := [0; 1; 0.5; 0.125; 0];
              error_code_out := {| val := SUCCESS |} |}
  ∧ (0.125 =? 0) = false.
Proof.
  split; [by repeat split|]. split; [reflexivity|]. split; [reflexivity|].
  split; [vm_compute; reflexivity|reflexivity].
Qed.

(** C8 as amended, on the plain arm, where the wrist is no written joint. *)
Lemma C8_witness :
  ∃ res, searchPositionIK (plugin_of arm) (request far seed4) = Some res
         ∧ solution_out res !! 3%nat = seed4 !! 3%nat.
Proof.
  destruct (C8_unwritten_slots_keep_the_seed
              arm "arm" "base" ["effector"%string] 0 (plugin_of arm)
              arm_initialized (request far seed4))
    as (mt & sh & el & wr & res & Hmt & Hsh & Hel & Hwr & Hres & _ & Hwrist).
  - by exists 5%nat.
  - exact arm_masters.
  - by apply arm_valid.
  - vm_compute in Hmt, Hsh, Hel, Hwr.
    injection Hmt as <-. injection Hsh as <-. injection Hel as <-.
    injection Hwr as <-.
    exists res. split; [exact Hres|]. apply Hwrist.
    unfold writtenJoints, mimicFamily. simpl. intros Hin. unlisted Hin.
Defined.

End Examples.

(** ** The further properties on concrete robots and devices *)

Module Checks.
Import Ik Notions DoubleFacts NanFacts IkFacts VariantFacts PluginFacts SolveFacts.
Import Fixture Bench Examples.
Import Lifecycle EntryPoints SetterLaws Envelope.

(** The elbow of the plain arm is the first joint on the child link of the
    shoulder. *)
Lemma getJoint_returns_the_first_match_witness :
  getJoint arm [0; 1; 2; 3]%nat REVOLUTE (Some 1%nat) = Some 2%nat
  ∧ getJoint arm [0; 1; 2; 3]%nat PRISMATIC None = None.
Proof.
  destruct (getJoint_returns_the_first_match arm [0; 1; 2; 3]%nat REVOLUTE
              (Some 1%nat)) as [_ Hsome].
  destruct (getJoint_returns_the_first_match arm [0; 1; 2; 3]%nat PRISMATIC
              None) as [Hnone _].
  split.
  - apply Hsome. exists [0; 1]%nat, [3%nat]. split; [reflexivity|]. split.
    + split; [reflexivity|]. by intros par [= <-].
    + intros k Hk [_ Hlink]. specialize (Hlink 1%nat eq_refl).
      listed Hk; discriminate Hlink.
  - apply Hnone. intros k Hk [Htype _]. listed Hk; discriminate Htype.
Defined.

(** The plain arm has no group [leg], and its group [arm] is not to be had
    with two tip frames. *)
Lemma initialize_refuses_exactly_bad_arguments_witness :
  initialize arm "leg" "base" ["effector"%string] 0 = Some None
  ∧ initialize arm "arm" "base" ["effector"; "effector"]%string 0 = Some None.
Proof.
  split.
  - apply (initialize_refuses_exactly_bad_arguments arm "leg" "base"
             ["effector"%string] 0).
    left. reflexivity.
  - apply (initialize_refuses_exactly_bad_arguments arm "arm" "base"
             ["effector"; "effector"]%string 0).
    right. eexists. split; [reflexivity|]. right. discriminate.
Defined.

(** [initialize] on the plain arm finds the joints 0 to 3 in a chain. *)
Lemma initialize_builds_the_arm_chain_witness :
  ∃ mt sh el wr,
    m_pMountJoint (plugin_of arm) = Some mt
    ∧ m_pShoulderJoint (plugin_of arm) = Some sh
    ∧ m_pElbowJoint (plugin_of arm) = Some el
    ∧ m_pWristJoint (plugin_of arm) = Some wr
    ∧ attached arm REVOLUTE (Some mt) sh
    ∧ attached arm REVOLUTE (Some sh) el
    ∧ attached arm REVOLUTE (Some el) wr.
Proof.
  destruct (initialize_builds_the_arm_chain
              arm "arm" "base" ["effector"%string] 0 (plugin_of arm)
              arm_initialized)
    as (group & mt & sh & el & wr & _ & _ & H1 & H2 & H3 & H4 & _
        & H5 & _ & H6 & _ & H7 & _).
  exists mt, sh, el, wr. repeat (split; [assumption|]). assumption.
Defined.

(** The rail has one chain and is given one tip frame, and no joint of it
    is revolute: [initialize] faults. *)
Lemma initialize_faults_without_revolute_joints_witness :
  initialize rail "arm" "base" ["effector"%string] 0 = None.
Proof.
  eapply (initialize_faults_without_revolute_joints rail "arm" "base"
            ["effector"%string] 0).
  - reflexivity.
  - reflexivity.
  - reflexivity.
  - intros j Hj. simpl in Hj. listed Hj. discriminate.
Defined.

(** The group of [tipless] ends its chain at a link it does not know:
    [initialize] returns [true], and the far target then faults. *)
Lemma null_tip_link_faults_every_valid_request_witness :
  (∃ p, initialize tipless "arm" "base" ["effector"%string] 0 = Some (Some p)
        ∧ m_pTipLink p = None)
  ∧ searchPositionIK (plugin_of tipless) (request far seed4) = None.
Proof.
  split.
  - exists (plugin_of tipless). split; reflexivity.
  - apply (null_tip_link_faults_every_valid_request
             tipless "arm" "base" ["effector"%string] 0 (plugin_of tipless)
             (request far seed4)).
    + reflexivity.
    + reflexivity.
    + repeat split.
Defined.

(** The far target on the plain arm: four joints, four entries. *)
Lemma solution_has_one_entry_per_joint_witness :
  length [0; 1; 0.5; 0.0625] = length (m_joints (plugin_of arm))
  ∧ length seed4 = length (m_joints (plugin_of arm)).
Proof.
  apply (solution_has_one_entry_per_joint (plugin_of arm) (request far seed4)
           {| returned := true; solution_out := [0; 1; 0.5; 0.0625];
              error_code_out := {| val := SUCCESS |} |}).
  - exact arm_far_solution.
  - reflexivity.
Defined.

(** [getPositionIK] on the plain arm, with a seed of four entries. *)
Lemma getPositionIK_refuses_only_a_wrong_seed_length_witness :
  ∃ res,
    getPositionIK (plugin_of arm) (pose_at far) seed4 [] {| val := 0 |}
    = Some res
    ∧ (returned res = false ↔ length seed4 ≠ length (m_joints (plugin_of arm)))
    ∧ (returned res = true → val (error_code_out res) = SUCCESS).
Proof.
  destruct (getPositionIK_refuses_only_a_wrong_seed_length
              arm "arm" "base" ["effector"%string] 0 (plugin_of arm)
              arm_initialized (pose_at far) seed4 [] {| val := 0 |})
    as (res & H1 & H2 & _ & H4).
  - by exists 5%nat.
  - exact arm_masters.
  - exists res. split; [assumption|]. split; [assumption|].
    intros Hret. by destruct (H4 Hret).
Defined.

(** The callback [veto] turns the solution down, and the call still
    returns [true]. *)
Lemma callback_verdict_does_not_change_the_return_witness :
  ∃ res,
    searchPositionIK (plugin_of arm) (vetoed far seed4) = Some res
    ∧ returned res = true
    ∧ val (error_code_out res) = NO_IK_SOLUTION.
Proof.
  destruct (callback_verdict_does_not_change_the_return
              arm "arm" "base" ["effector"%string] 0 (plugin_of arm)
              arm_initialized (vetoed far seed4) veto)
    as (res & ik_pose & _ & H2 & H3 & H4).
  - by exists 5%nat.
  - exact arm_masters.
  - repeat split.
  - reflexivity.
  - exists res. split; [assumption|]. split; [assumption|]. by rewrite H4.
Defined.

(** Joint 4 is not among the four joints of the plain arm. *)
Lemma setters_stay_in_range_only_for_listed_joints_witness :
  ¬ is_Some (setJointMaxState arm [0; 1; 2; 3]%nat 4%nat seed4)
  ∧ is_Some (setJointMaxState arm [0; 1; 2; 3]%nat 2%nat seed4)
  ∧ setJointState arm [0; 1; 2; 3]%nat 4%nat 0.5 seed4 = None.
Proof.
  destruct (setters_stay_in_range_only_for_listed_joints
              arm [0; 1; 2; 3]%nat 4%nat seed4 eq_refl) as (_ & Hmax & Hset).
  destruct (setters_stay_in_range_only_for_listed_joints
              arm [0; 1; 2; 3]%nat 2%nat seed4 eq_refl) as (_ & Hmax' & _).
  split; [|split].
  - intros Hsome. apply Hmax in Hsome. unlisted Hsome.
  - apply Hmax'. repeat constructor.
  - apply Hset; [reflexivity|]. intros Hin. unlisted Hin.
Defined.

(** On the coupled arm the mount drives the actuator and the wrist; a
    second call changes nothing. *)
Lemma setJointState_is_idempotent_witness :
  setJointState coupled [0; 1; 2; 3; 4]%nat 0%nat 0.5 seed5
  = Some [0.5; 0.25; 0.375; 0.25; 0.5]
  ∧ setJointState coupled [0; 1; 2; 3; 4]%nat 0%nat 0.5
      [0.5; 0.25; 0.375; 0.25; 0.5]
    = Some [0.5; 0.25; 0.375; 0.25; 0.5].
Proof.
  assert (setJointState coupled [0; 1; 2; 3; 4]%nat 0%nat 0.5 seed5
          = Some [0.5; 0.25; 0.375; 0.25; 0.5]) as Hfirst
    by (vm_compute; reflexivity).
  split; [exact Hfirst|].
  exact (setJointState_is_idempotent coupled [0; 1; 2; 3; 4]%nat 0%nat 0.5
           seed5 _ Hfirst).
Defined.

(** The earlier solver on the coupled arm: the wrist, a mimic of the same
    actuator as the mount, keeps its entry. *)
Lemma legacy_setJointState_writes_two_slots_at_most_witness :
  IkLegacy.setJointState coupled [0; 1; 2; 3; 4]%nat 0%nat 0.5 seed5
  = Some [0.5; 0.25; 0.375; 0; 0.5]
  ∧ ([0.5; 0.25; 0.375; 0; 0.5] : list double) !! 3%nat = seed5 !! 3%nat.
Proof.
  assert (IkLegacy.setJointState coupled [0; 1; 2; 3; 4]%nat 0%nat 0.5 seed5
          = Some [0.5; 0.25; 0.375; 0; 0.5]) as Hrun
    by (vm_compute; reflexivity).
  split; [exact Hrun|].
  destruct (legacy_setJointState_writes_two_slots_at_most
              coupled [0; 1; 2; 3; 4]%nat 0%nat 0.5 seed5 _ Hrun) as [_ Hframe].
  apply Hframe.
  - discriminate.
  - intros m Hm. injection Hm as <-. discriminate.
Defined.

(** The shoulder of the plain arm, upper limit 1, on a NaN angle. *)
Lemma plugin_setJointState_sends_NaN_to_the_upper_limit_witness :
  ∃ states' kstate',
    InverseKinematicsPlugin.setJointState arm [0; 1; 2; 3]%nat 1%nat nan
      seed4 fresh
    = Some (states', kstate')
    ∧ states' !! 1%nat = Some 1
    ∧ states' = [0.125; 1; 0.375; 0.0625]
    ∧ kstate' = [(1%nat, 1)].
Proof.
  destruct (plugin_setJointState_sends_NaN_to_the_upper_limit
              arm [0; 1; 2; 3]%nat 1%nat nan seed4 fresh)
    as (states' & kstate' & H1 & H2 & H3).
  - reflexivity.
  - repeat constructor.
  - by left.
  - reflexivity.
  - intros m Hm. discriminate Hm.
  - exists states', kstate'. split; [assumption|]. split; [assumption|].
    destruct (H3 eq_refl) as [-> ->]. split; reflexivity.
Defined.

(** Half a unit out lies inside the reach of a quarter to one unit. *)
Lemma triangle_branch_clamp_changes_nothing_witness :
  clamp (targetNorm (locals_for inside)) (reachableMinNorm (locals_for inside))
    (reachableMaxNorm (locals_for inside))
  = targetNorm (locals_for inside)
  ∧ targetNorm (locals_for inside) = 0.5
  ∧ reachableMinNorm (locals_for inside) = 0.25
  ∧ reachableMaxNorm (locals_for inside) = 1.
Proof.
  destruct (triangle_branch_clamp_changes_nothing (plugin_of arm)
              (locals_for inside) 1%nat seed4) as [Hclamp _].
  - vm_compute. reflexivity.
  - vm_compute. reflexivity.
  - split; [exact Hclamp|]. repeat split; vm_compute; reflexivity.
Defined.

(** The elbow of the plain arm, slot 2, for the target inside the reach. *)
Lemma triangle_branch_leaves_the_elbow_slot_witness :
  ∃ res,
    searchPositionIK (plugin_of arm) (request inside seed4) = Some res
    ∧ solution_out res !! 2%nat = Some 0.375.
Proof.
  destruct (triangle_branch_leaves_the_elbow_slot
              arm "arm" "base" ["effector"%string] 0 (plugin_of arm)
              arm_initialized (request inside seed4))
    as (l & mt & sh & el & res & Hl & Hmt & Hsh & Hel & Hrun & Hkeep).
  - by exists 5%nat.
  - exact arm_masters.
  - by apply arm_valid.
  - exists res. split; [exact Hrun|].
    vm_compute in Hl, Hmt, Hsh, Hel.
    injection Hl as <-. injection Hmt as <-. injection Hsh as <-.
    injection Hel as <-.
    apply Hkeep.
    + vm_compute. reflexivity.
    + vm_compute. reflexivity.
    + intros Hin. unlisted Hin.
Defined.

(** The table of <math.h> values answers NaN to NaN. *)
Lemma table_atan2_nan y x :
  isnan y = true ∨ isnan x = true → isnan (table_atan2 y x) = true.
Proof.
  intros H. unfold table_atan2.
  destruct ((y =? 0) && (0 <? x)) eqn:E; [|reflexivity].
  apply andb_true_iff in E as [Ey Ex]. apply ltb_not_nan in Ex as [_ Hx].
  destruct H as [Hy|Hx']; [|congruence].
  exfalso. apply isnan_spec in Hy.
  rewrite FloatAxioms.eqb_spec, Hy in Ey. discriminate Ey.
Qed.

Lemma table_acos_nan x : isnan x = true → isnan (table_acos x) = true.
Proof.
  intros Hx. unfold table_acos, within.
  destruct (-1 <=? x) eqn:E; [|reflexivity].
  apply leb_not_nan in E as [_ E]. congruence.
Qed.

(** A target with NaN for its x coordinate on the plain arm. *)
Lemma nan_target_is_reported_as_solved_witness :
  searchPositionIK (plugin_of arm) (request nowhere seed4)
  = Some {| returned := true; solution_out := seed4;
            error_code_out := {| val := SUCCESS |} |}.
Proof.
  apply (nan_target_is_reported_as_solved
           arm "arm" "base" ["effector"%string] 0 (plugin_of arm)
           arm_initialized (request nowhere seed4) (pose_at nowhere)).
  - by exists 5%nat.
  - by apply arm_valid.
  - reflexivity.
  - reflexivity.
  - left. reflexivity.
  - exact table_atan2_nan.
  - exact table_acos_nan.
Defined.

End Checks.

Module MoreChecks.
Import Notions DoubleFacts IkFacts VariantFacts.
Import Fixture Bench Examples.
Import PluginSolve HardwareFacts RobotFacts PwmServoFacts LegacySolve.

Lemma solver_arm_initialized :
  solver_plugin arm = Some (solver_arm, fresh).
Proof. reflexivity. Qed.

Lemma solver_rail_initialized :
  solver_plugin rail = Some (solver_rail, fresh).
Proof. reflexivity. Qed.


(** The rail is accepted with a null base joint, and a request with a seed
    of one entry for its one joint faults. *)
Lemma plugin_without_base_joint_faults_every_valid_request_witness :
  InverseKinematicsPlugin.m_pBaseJoint solver_rail = None
  ∧ InverseKinematicsPlugin.searchPositionIK solver_rail fresh
      (request far [0.125])
    = None.
Proof.
  split; [reflexivity|].
  apply (plugin_without_base_joint_faults_every_valid_request
           rail "arm" "base" ["effector"%string] 0 None None
           solver_rail fresh solver_rail_initialized fresh
           (request far [0.125])); reflexivity.
Defined.

(** The stub solver answers NaN, 5, 0.25 and -9: the arm ends at the upper
    limit 2, the upper limit 1, at 0.25 and at the lower limit -0.25. *)
Lemma plugin_arm_slots_end_within_limits_witness :
  ∃ res kstate',
    InverseKinematicsPlugin.searchPositionIK solver_arm fresh
      (long_request seed4)
    = Some (res, kstate')
    ∧ Ik.returned res = true
    ∧ Ik.solution_out res = [2; 1; 0.25; -0.25]
    ∧ ∀ j, j ∈ [0; 1; 2; 3]%nat →
        ∃ v, Ik.solution_out res !! indexOf j [0; 1; 2; 3]%nat = Some v
             ∧ within (min_position (getVariableBoundsMsg (jointModel arm j)))
                      (max_position (getVariableBoundsMsg (jointModel arm j)))
                      v = true.
Proof.
  destruct (plugin_arm_slots_end_within_limits
              arm "arm" "base" ["effector"%string] 0 None None
              solver_arm fresh solver_arm_initialized 0%nat 1%nat 2%nat 3%nat
              eq_refl eq_refl eq_refl eq_refl)
    with (kstate := fresh) (req := long_request seed4)
    as (res & kstate' & Hrun & Hret & _ & Hwithin).
  - intros j Hj. listed Hj; reflexivity.
  - intros j Hj. listed Hj; vm_compute; reflexivity.
  - reflexivity.
  - reflexivity.
  - exists res, kstate'. split; [exact Hrun|]. split; [exact Hret|].
    split; [|exact Hwithin].
    vm_compute in Hrun. by injection Hrun as <- _.
Defined.

Lemma solver_gripper_initialized :
  solver_plugin gripper = Some (solver_gripper, fresh).
Proof. reflexivity. Qed.

(** The gripper, slot 4, is none of the four arm joints: it comes back as
    the 7 of the caller's vector, and as [0.0] when that vector was empty;
    the seed's 0.75 is not seen again. *)
Lemma plugin_other_slots_come_from_the_callers_vector_witness :
  (∃ res kstate',
     InverseKinematicsPlugin.searchPositionIK solver_gripper fresh
       (long_request seed5)
     = Some (res, kstate')
     ∧ Ik.solution_out res !! 4%nat = Some 7)
  ∧ (∃ res kstate',
       InverseKinematicsPlugin.searchPositionIK solver_gripper fresh
         (request far seed5)
       = Some (res, kstate')
       ∧ Ik.solution_out res !! 4%nat = Some 0).
Proof.
  assert (∀ j, j ∈ [0; 1; 2; 3]%nat → indexOf j [0; 1; 2; 3; 4]%nat ≠ 4%nat)
    as Hother.
  { intros j Hj. listed Hj; discriminate. }
  split.
  - destruct (plugin_other_slots_come_from_the_callers_vector
                gripper "arm" "base" ["effector"%string] 0 None None
                solver_gripper fresh solver_gripper_initialized
                0%nat 1%nat 2%nat 3%nat eq_refl eq_refl eq_refl eq_refl)
      with (kstate := fresh) (req := long_request seed5)
      as (res & kstate' & Hrun & Hslots).
    + intros j Hj. listed Hj; reflexivity.
    + reflexivity.
    + reflexivity.
    + exists res, kstate'. split; [exact Hrun|].
      destruct (Hslots 4%nat) as [Hkept _]; [simpl; lia|exact Hother|].
      assert (4 < length (Ik.solution (long_request seed5)))%nat as Hlong
        by (simpl; lia).
      exact (Hkept Hlong).
  - destruct (plugin_other_slots_come_from_the_callers_vector
                gripper "arm" "base" ["effector"%string] 0 None None
                solver_gripper fresh solver_gripper_initialized
                0%nat 1%nat 2%nat 3%nat eq_refl eq_refl eq_refl eq_refl)
      with (kstate := fresh) (req := request far seed5)
      as (res & kstate' & Hrun & Hslots).
    + intros j Hj. listed Hj; reflexivity.
    + reflexivity.
    + reflexivity.
    + exists res, kstate'. split; [exact Hrun|].
      destruct (Hslots 4%nat) as [_ Hnew]; [simpl; lia|exact Hother|].
      apply Hnew. simpl. lia.
Defined.

(** Loading pump, valve, the broken drive and the gauge: the drive fails,
    pump and valve are grouped already, the gauge is not. *)
Lemma configure_fails_with_the_groups_half_built_witness :
  ∃ hw',
    Hardware.configure Hardware.constructed [pump; valve; broken; gauge]
      (Some description)
    = (false, hw')
    ∧ default [] (Hardware.m_groups hw' !! "piston"%string) = [pump; valve]
    ∧ default [] (Hardware.m_groups hw' !! "wheel"%string) = [].
Proof.
  destruct (configure_fails_with_the_groups_half_built
              Hardware.constructed [pump; valve] [gauge] broken
              (Some description))
    as (hw' & Hrun & _ & _ & Hgroups).
  - intros c Hc. listed Hc; reflexivity.
  - reflexivity.
  - exists hw'. split; [exact Hrun|].
    split; rewrite Hgroups; reflexivity.
Defined.

(** Loading pump, gauge, valve and fan: the piston gets pump, valve and fan
    in that order and the limits of the description; the wheel, which has an
    encoder only, keeps the limits it had. *)
Lemma configure_groups_controllers_by_parent_witness :
  ∃ hw',
    Hardware.configure Hardware.constructed [pump; gauge; valve; fan]
      (Some description)
    = (true, hw')
    ∧ default [] (Hardware.m_groups hw' !! "piston"%string)
      = [pump; valve; fan]
    ∧ default [] (Hardware.m_groups hw' !! "wheel"%string) = [gauge]
    ∧ Hardware.max_position (Hardware.m_limits hw' "piston"%string) = 0.125
    ∧ Hardware.m_limits hw' "wheel"%string = Hardware.noLimits.
Proof.
  destruct (configure_groups_controllers_by_parent
              Hardware.constructed [pump; gauge; valve; fan]
              (Some description))
    as (hw' & Hrun & _ & Hgroups & Hlimits).
  - intros c Hc. listed Hc; reflexivity.
  - exists hw'. split; [exact Hrun|].
    split; [rewrite Hgroups; reflexivity|].
    split; [rewrite Hgroups; reflexivity|].
    split; rewrite Hlimits; reflexivity.
Defined.

(** [init] on the plant, whose values all start at 3 and whose limits are
    default-constructed: the saturation handle of the piston throws, the
    piston being zeroed already.  With velocity limits in place [init]
    returns [true]; the piston is a group and ends at zero, the wheel is none
    and keeps its 3. *)
Lemma init_zeroes_the_groups_or_throws_witness :
  (∃ hw', Hardware.init plant = (Hardware.throws, hw')
          ∧ Hardware.m_pos hw' "wheel"%string = 3)
  ∧ (∃ hw', Hardware.init limited_plant = (Hardware.returns true, hw')
            ∧ Hardware.m_cmd hw' "piston"%string = 0
            ∧ Hardware.m_pos hw' "piston"%string = 0
            ∧ Hardware.m_pos hw' "wheel"%string = 3).
Proof.
  split.
  - destruct (init_zeroes_the_groups_or_throws plant) as [_ Hinit].
    destruct (Hinit eq_refl)
      as (outcome & hw' & Hrun & _ & _ & Hkind & Hiff & _ & _ & Hkept).
    assert (outcome = Hardware.throws) as ->.
    { destruct Hkind as [Htrue|Hthrows]; [|exact Hthrows].
      pose proof (proj1 Hiff Htrue "piston"%string) as Hlimits.
      discriminate Hlimits. by eexists. }
    exists hw'. split; [exact Hrun|].
    destruct (Hkept "wheel"%string) as (Hpos & _); [reflexivity|].
    by rewrite Hpos.
  - destruct (init_zeroes_the_groups_or_throws limited_plant) as [_ Hinit].
    destruct (Hinit eq_refl)
      as (outcome & hw' & Hrun & _ & _ & _ & Hiff & Hzero & _ & Hkept).
    assert (outcome = Hardware.returns true) as ->.
    { apply Hiff. intros name _. reflexivity. }
    exists hw'. split; [exact Hrun|].
    destruct (Hzero eq_refl "piston"%string) as (Hpos & _ & _ & Hcmd);
      [by eexists|].
    destruct (Hkept "wheel"%string) as (Hpos' & _); [reflexivity|].
    split; [exact Hcmd|]. split; [exact Hpos|]. by rewrite Hpos'.
Defined.

(** [write] on the plant, the piston being commanded half speed: the
    command is gone afterwards. *)
Lemma write_takes_a_positive_solenoid_command_to_zero_witness :
  Hardware.m_cmd plant "piston"%string = 0.5
  ∧ Hardware.m_cmd (Hardware.write plant).1 "piston"%string = 0
  ∧ Hardware.m_cmd (Hardware.write plant).1 "wheel"%string = 0.5.
Proof.
  split; [reflexivity|]. split.
  - destruct (write_takes_a_positive_solenoid_command_to_zero plant
                "piston"%string) as [Hcmd _].
    exact Hcmd.
  - destruct (write_takes_a_positive_solenoid_command_to_zero plant
                "wheel"%string) as [Hcmd _].
    exact Hcmd.
Defined.

(** Pump before and fan behind the valve: the pump is commanded half
    speed, the valve is triggered, the fan is commanded zero. *)
Lemma write_triggers_the_first_solenoid_only_witness :
  (Hardware.writeGroup "piston" [pump; valve; fan] (Hardware.m_cmd plant)).2
  = [Hardware.command pump 0.5; Hardware.trigger valve;
     Hardware.command fan 0].
Proof.
  destruct (write_triggers_the_first_solenoid_only "piston"
              (Hardware.m_cmd plant) [pump; valve; fan]) as [_ Hfires].
  exact (Hfires eq_refl [pump] valve [fan] eq_refl eq_refl eq_refl).
Defined.

(** The name of the arm [/robot/arms/arm10]. *)
Lemma getControllerName_is_what_follows_the_last_slash_witness :
  Robot.getControllerName (text "/robot/arms/arm10") = text "arm10".
Proof.
  destruct (getControllerName_is_what_follows_the_last_slash
              (text "/robot/arms/arm10")) as (_ & _ & _ & Hname).
  apply (Hname (text "/robot/arms")).
  - apply (bool_decide_eq_false_1 _). vm_compute. reflexivity.
  - reflexivity.
Defined.

(** [/robot/rate] names no arm. *)
Lemma getControllerPath_is_null_without_the_type_node_witness :
  Robot.getControllerPath (text "/robot/rate") Robot.arms used_armPath
  = Some None
  ∧ ∀ j, ¬ text "/arms/" `prefix_of` drop j (text "/robot/rate").
Proof.
  assert (Robot.getControllerPath (text "/robot/rate") Robot.arms used_armPath
          = Some None) as Hnull by (vm_compute; reflexivity).
  split; [exact Hnull|].
  apply (getControllerPath_is_null_without_the_type_node
           (text "/robot/rate") Robot.arms used_armPath).
  - vm_compute. lia.
  - exact Hnull.
Defined.

(** The second arm of [arm_params] goes through the array that the first
    has used: sixteen bytes are copied over [/robot/arms/arm10], the last
    byte stays, and the string handed back names an arm [arm20]. *)
Lemma getControllerPath_copies_without_a_terminator_witness :
  Robot.getControllerPath (text "/robot/arms/arm2/shoulder") Robot.arms
    used_armPath
  = Some (Some (text "/robot/arms/arm2" ++ drop 16 used_armPath))
  ∧ Robot.c_str (text "/robot/arms/arm2" ++ drop 16 used_armPath)
    = Some (text "/robot/arms/arm20").
Proof.
  destruct (getControllerPath_copies_without_a_terminator
              (text "/robot") Robot.arms (text "arm2") (text "/shoulder")
              used_armPath)
    as [Hcopy Hstring].
  - vm_compute. lia.
  - intros j Hj.
    destruct j as [|[|[|[|[|[|j]]]]]]; [..|simpl in Hj; lia];
      apply (bool_decide_eq_false_1 _); vm_compute; reflexivity.
  - apply (bool_decide_eq_false_1 _). vm_compute. reflexivity.
  - right. reflexivity.
  - vm_compute. lia.
  - split; [exact Hcopy|].
    etransitivity; [apply Hstring|vm_compute; reflexivity].
    apply (bool_decide_eq_false_1 _). vm_compute. reflexivity.
Defined.

(** The arms [deserializeArms] makes for [arm_params]: two, of different
    paths, the second of which is no parameter's. *)
Example two_arms_made :
  Robot.deserializeArms [] arm_params
  = Some [text "/robot/arms/arm10"; text "/robot/arms/arm20"].
Proof. vm_compute. reflexivity. Qed.

Lemma deserializeArms_makes_one_arm_per_path_witness :
  NoDup [text "/robot/arms/arm10"; text "/robot/arms/arm20"].
Proof.
  exact (deserializeArms_makes_one_arm_per_path arm_params _ two_arms_made).
Defined.

(** Half speed forward with a full duty cycle of 255. *)
Lemma setVelocity_drives_one_channel_at_a_time_witness :
  ∃ msg servo',
    PwmServo.setVelocity 255 servo 0.5 = Some (msg, servo', true)
    ∧ PwmServo.dutyCycle1 msg = 127%Z
    ∧ PwmServo.dutyCycle2 msg = 0%Z.
Proof.
  assert (∃ msg servo',
            PwmServo.setVelocity 255 servo 0.5 = Some (msg, servo', true)
            ∧ PwmServo.dutyCycle1 msg = 127%Z) as (msg & servo' & Hrun & Hduty).
  { eexists _, _. split; vm_compute; reflexivity. }
  exists msg, servo'. split; [exact Hrun|]. split; [exact Hduty|].
  destruct (setVelocity_drives_one_channel_at_a_time 255 servo servo' 0.5 msg
              true Hrun) as (_ & Hforward & _).
  apply Hforward. reflexivity.
Defined.

(** The wiring asks for the channels 4 and 5: the left channel ends at 5
    and the right channel stays at 1. *)
Lemma deserialize_stores_rpwm_into_m_lpwm_witness :
  PwmServo.m_lpwm (PwmServo.deserialize servo wiring) = 5%Z
  ∧ PwmServo.m_rpwm (PwmServo.deserialize servo wiring) = 1%Z.
Proof.
  destruct (deserialize_stores_rpwm_into_m_lpwm servo wiring)
    as (_ & Hright & Hleft & _).
  split; [exact (Hleft 5%Z eq_refl)|exact (Hright 0)].
Defined.

Lemma legacy_arm_initialized :
  IkLegacy.initialize arm "arm" "base" ["effector"%string] 0
  = Some (legacy_of arm).
Proof. reflexivity. Qed.

Lemma legacy_stump_initialized :
  IkLegacy.initialize stump "arm" "base" ["effector"%string] 0
  = Some (legacy_of stump).
Proof. reflexivity. Qed.

Lemma legacy_locals_found :
  IkLegacy.locals (legacy_of arm) [pose_at low_right] = Some legacy_locals.
Proof. vm_compute. reflexivity. Qed.

Lemma legacy_arm_masters (j m : JointPtr) :
  j ∈ [0; 1; 2]%nat → getMimic (jointModel arm j) = Some m →
  m ∈ [0; 1; 2; 3]%nat.
Proof.
  intros Hj Hm.
  repeat (apply elem_of_cons in Hj as [->|Hj]); try discriminate.
  by apply elem_of_nil in Hj.
Qed.

(** The target [low_right] lies below both lower thresholds: the shoulder
    and the elbow of the plain arm go to their lower limits. *)
Lemma legacy_thresholds_pick_the_limits_witness :
  ∃ res,
    IkLegacy.searchPositionIK (legacy_of arm) (request low_right seed4)
    = Some res
    ∧ Ik.solution_out res !! 1%nat = Some (-1)
    ∧ Ik.solution_out res !! 2%nat = Some (-0.5).
Proof.
  destruct (legacy_thresholds_pick_the_limits arm "arm" "base"
              ["effector"%string] 0 (legacy_of arm) legacy_arm_initialized
              (request low_right seed4) legacy_locals eq_refl eq_refl
              legacy_locals_found
              legacy_arm_masters)
    as (axis & res & Haxis & Hrun & _ & Helbow & _ & Hshoulder).
  injection Haxis as <-.
  exists res. split; [exact Hrun|]. split.
  - apply Hshoulder; [discriminate|discriminate|]. vm_compute. reflexivity.
  - apply Helbow. vm_compute. reflexivity.
Defined.

(** The wrist slot of the plain arm comes back as the seed has it. *)
Lemma legacy_other_slots_keep_the_seed_witness :
  ∃ res,
    IkLegacy.searchPositionIK (legacy_of arm) (request low_right seed4)
    = Some res
    ∧ Ik.solution_out res !! 3%nat = Some 0.0625.
Proof.
  destruct (legacy_other_slots_keep_the_seed arm "arm" "base"
              ["effector"%string] 0 (legacy_of arm) legacy_arm_initialized
              (request low_right seed4) legacy_locals eq_refl eq_refl
              legacy_locals_found
              legacy_arm_masters)
    as (res & Hrun & _ & _ & Hkeep).
  exists res. split; [exact Hrun|].
  etransitivity; [apply (Hkeep 3%nat)|reflexivity].
  intros j Hj.
  repeat (apply elem_of_cons in Hj as [->|Hj]);
    try (split; [vm_compute; lia|discriminate]).
  by apply elem_of_nil in Hj.
Defined.

(** The stump has its three joints and nothing behind the elbow. *)
Lemma legacy_solver_needs_a_joint_behind_the_elbow_witness :
  IkLegacy.searchPositionIK (legacy_of stump)
    (request low_right [0.125; 0.25; 0.375])
  = None.
Proof.
  apply (legacy_solver_needs_a_joint_behind_the_elbow stump "arm" "base"
           ["effector"%string] 0 (legacy_of stump) legacy_stump_initialized
           (request low_right [0.125; 0.25; 0.375]) eq_refl eq_refl).
  intros pElbowJoint Hfound. vm_compute in Hfound.
  injection Hfound as <-. reflexivity.
Defined.

End MoreChecks.
